(** * Directional statistics of the FRB/QSO sky-correlation scripts

    A shallow embedding of the numerical core of the analysis scripts
    ([scripts/frb_dipole_test.py], [scripts/frb_cpt_dm_histogram.py],
    [scripts/frb_qso_autocorr_sigma.py], [scripts/frb_sigma_axis_map.py],
    [scripts/frb_qso_mirror_overlay.py]) and the properties of it that the
    specification states.

    Number model.  A Python/NumPy float that holds a finite value is a real
    number of [R]; arithmetic on finite values is exact real arithmetic (no
    rounding, no overflow to infinity, no underflow to zero).  The special
    values the scripts produce on purpose or by a division by zero
    ([np.nan], [np.inf]) are the extra constructors of [fval].  An array
    of type [list R] is an array of finite floats.  Where a property
    would fail in doubles through the range of the exponent, its statement
    bounds the magnitudes of its inputs.  Python exceptions are the [Err]
    results of [result].

    Library model.  [np.linalg.lstsq] is the exact least-squares solution of
    least norm, on finite input (on input that is not finite it raises
    [LinAlgError]; such arrays are not arrays of [list R]).  The random
    generator of [np.random.default_rng] is not modelled bit for bit: a
    generator is a state type with its seeding and its [permutation]
    method, and the permutation test takes it as a parameter. *)

From Stdlib Require Import Reals Lra Lia List ZArith Bool Permutation.
Import ListNotations.
Open Scope R_scope.

(** ** Results and exceptions *)

Inductive error : Type :=
| ZeroDivisionError
| TypeError
| ValueError
| IndexError.

Inductive result (A : Type) : Type :=
| Ok (a : A)
| Err (e : error).
Arguments Ok {A} a.
Arguments Err {A} e.

Definition bind {A B : Type} (m : result A) (k : A -> result B) : result B :=
  match m with
  | Ok a => k a
  | Err e => Err e
  end.

Notation "x <- m ;; k" := (bind m (fun x => k))
  (at level 61, m at next level, right associativity).

(** ** Floating-point values with the IEEE special values *)

Inductive fval : Type :=
| Num (r : R)
| PInf
| NInf
| NaN.

Definition is_nan (v : fval) : bool :=
  match v with NaN => true | _ => false end.

(** ** Comparisons as booleans *)

Definition Rleb (x y : R) : bool := if Rle_dec x y then true else false.
Definition Rltb (x y : R) : bool := if Rlt_dec x y then true else false.
Definition Rgeb (x y : R) : bool := Rleb y x.
Definition Rgtb (x y : R) : bool := Rltb y x.
Definition Reqb (x y : R) : bool := if Req_dec_T x y then true else false.

(** ** The NumPy primitives the scripts use *)

Module np.

(** [np.deg2rad], [np.rad2deg] / [np.degrees]. *)
Definition deg2rad (x : R) : R := x * (PI / 180).
Definition rad2deg (x : R) : R := x * (180 / PI).

(** [np.clip(x, lo, hi)] is [minimum(maximum(x, lo), hi)]. *)
Definition clip (x lo hi : R) : R := Rmin (Rmax x lo) hi.

(** [x % m] on floats: the remainder has the sign of the divisor.  The
    exact remainder is strictly below [m]; the float one is rounded and can
    be [m] itself (for a negative [x] of tiny size), so statements about
    the range of a remainder of a possibly negative operand use the closed
    interval. *)
Definition fmod (x m : R) : R := x - m * IZR (Zfloor (x / m)).

(** [np.sign]. *)
Definition sign (x : R) : R :=
  if Rltb x 0 then -1 else if Rltb 0 x then 1 else 0.

(** [np.sum] of a one-dimensional array. *)
Definition sum (l : list R) : R := fold_right Rplus 0 l.

(** Element-wise binary operation on two one-dimensional arrays, with
    NumPy's broadcasting of a length-one operand; any other pair of
    different lengths does not broadcast. *)
Fixpoint zip_with {A B C} (f : A -> B -> C) (a : list A) (b : list B)
  : list C :=
  match a, b with
  | x :: a', y :: b' => f x y :: zip_with f a' b'
  | _, _ => []
  end.

Definition broadcast2 (f : R -> R -> R) (a b : list R) : result (list R) :=
  if (length a =? length b)%nat then Ok (zip_with f a b)
  else match a, b with
       | [x], _ => Ok (map (f x) b)
       | _, [y] => Ok (map (fun x => f x y) a)
       | _, _ => Err ValueError
       end.

End np.

(** ** Vectors of the sphere *)

Definition vec3 : Type := (R * R * R)%type.

Definition dot (u v : vec3) : R :=
  let '(ux, uy, uz) := u in
  let '(vx, vy, vz) := v in
  ux * vx + uy * vy + uz * vz.

Definition norm (u : vec3) : R := sqrt (dot u u).

(** [np.vstack([x, y, z]).T]: the three rows must have the same length. *)
Fixpoint zip3 (x y z : list R) : list vec3 :=
  match x, y, z with
  | a :: x', b :: y', c :: z' => (a, b, c) :: zip3 x' y' z'
  | _, _, _ => []
  end.

Definition vstack3T (x y z : list R) : result (list vec3) :=
  if ((length x =? length y) && (length y =? length z))%nat
  then Ok (zip3 x y z)
  else Err ValueError.

(** ** Coordinate transform ([frb_dipole_test.py], [frb_cpt_dm_histogram.py]) *)

(** [sph_to_cart(ra_deg, dec_deg)] of [frb_dipole_test.py]. *)
Definition sph_to_cart (ra_deg dec_deg : list R) : result (list vec3) :=
  let ra := map np.deg2rad ra_deg in
  let dec := map np.deg2rad dec_deg in
  x <- np.broadcast2 Rmult (map cos dec) (map cos ra) ;;
  y <- np.broadcast2 Rmult (map cos dec) (map sin ra) ;;
  let z := map sin dec in
  vstack3T x y z.

(** [unit_vectors(ra, dec)] of [frb_cpt_dm_histogram.py]. *)
Definition unit_vectors (ra dec : list R) : result (list vec3) :=
  let ra := map np.deg2rad ra in
  let dec := map np.deg2rad dec in
  x <- np.broadcast2 Rmult (map cos dec) (map cos ra) ;;
  y <- np.broadcast2 Rmult (map cos dec) (map sin ra) ;;
  let z := map sin dec in
  vstack3T x y z.

(** The vector of one sky point, as each row of the result is computed. *)
Definition to_unit_vector (ra_deg dec_deg : R) : vec3 :=
  let ra := np.deg2rad ra_deg in
  let dec := np.deg2rad dec_deg in
  (cos dec * cos ra, cos dec * sin ra, sin dec).

(** ** IEEE arithmetic on the special values

    Signed zeros are not distinguished: a zero divisor is [+0.0]. *)

Definition fdivR (x y : R) : fval :=
  if Reqb y 0 then
    if Reqb x 0 then NaN else if Rltb 0 x then PInf else NInf
  else Num (x / y).

Definition fadd (u v : fval) : fval :=
  match u, v with
  | NaN, _ | _, NaN => NaN
  | Num a, Num b => Num (a + b)
  | PInf, NInf | NInf, PInf => NaN
  | PInf, _ | _, PInf => PInf
  | NInf, _ | _, NInf => NInf
  end.

Definition fdiv (u v : fval) : fval :=
  match u, v with
  | NaN, _ | _, NaN => NaN
  | Num a, Num b => fdivR a b
  | Num _, _ => Num 0
  | PInf, Num b => if Rltb b 0 then NInf else PInf
  | NInf, Num b => if Rltb b 0 then PInf else NInf
  | _, _ => NaN
  end.

(** [np.sqrt] of a float: not-a-number below zero. *)
Definition fsqrt (x : R) : fval := if Rltb x 0 then NaN else Num (sqrt x).

(** ** Indexing *)

(** [a[i]] for a non-negative index. *)
Definition get {A} (a : list A) (i : nat) : result A :=
  match nth_error a i with
  | Some x => Ok x
  | None => Err IndexError
  end.

(** [a[idx]] for an integer index array. *)
Fixpoint take {A} (a : list A) (idx : list nat) : result (list A) :=
  match idx with
  | [] => Ok []
  | i :: idx' =>
      x <- get a i ;;
      xs <- take a idx' ;;
      Ok (x :: xs)
  end.

(** [a[mask]] for a boolean mask.  The mask must have the length of [a],
    except that NumPy takes an empty mask on an array of any length and
    selects nothing. *)
Fixpoint select {A} (a : list A) (mask : list bool) : list A :=
  match a, mask with
  | x :: a', m :: mask' => if m then x :: select a' mask' else select a' mask'
  | _, _ => []
  end.

Definition mask_index {A} (a : list A) (mask : list bool) : result (list A) :=
  if ((length mask =? 0) || (length a =? length mask))%nat
  then Ok (select a mask)
  else Err IndexError.

(** [np.where(cond)[0]]: the indices at which the condition holds. *)
Fixpoint where_from (i : nat) (cond : list bool) : list nat :=
  match cond with
  | [] => []
  | c :: cond' =>
      if c then i :: where_from (S i) cond' else where_from (S i) cond'
  end.

Definition where_ (cond : list bool) : list nat := where_from 0 cond.


(** ** Dipole fitter ([frb_dipole_test.py]) *)

Module Dipole.

Import np.

(** [np.ones(N)]. *)
Definition ones (N : nat) : list R := repeat 1 N.

(** [if w is None: w = np.ones(N)]. *)
Definition default_weights (w : option (list R)) (N : nat) : list R :=
  match w with
  | None => ones N
  | Some w => w
  end.

(** [np.average(y, weights=w)]: the shapes must agree and the weights
    must not sum to zero. *)
Definition average (y w : list R) : result R :=
  if negb (length y =? length w)%nat then Err TypeError
  else
    let scl := sum w in
    if Reqb scl 0 then Err ZeroDivisionError
    else Ok (sum (zip_with Rmult y w) / scl).

(** [np.arctan2(y, x)]. *)
Definition arctan2 (y x : R) : R :=
  if Rltb 0 x then atan (y / x)
  else if Rltb x 0 then
    if Rleb 0 y then atan (y / x) + PI else atan (y / x) - PI
  else if Rltb 0 y then PI / 2
  else if Rltb y 0 then - (PI / 2)
  else 0.

(** [np.arcsin] on [-1, 1], where every candidate's third coordinate lies. *)
Definition arcsin (x : R) : R := asin x.

(** [np.linalg.lstsq(A, c, rcond=None)[0]] for a two-column matrix [A] of
    finite entries (on others it raises [LinAlgError]), in exact
    arithmetic: the least-squares solution of least Euclidean norm.
    With [G] the Gram matrix of the columns [u], [v] of [A]: the solution
    of the normal equations when [G] is invertible; [A^T c / (u.u + v.v)]
    when [A] has rank one; zero when [A] is zero. *)
Definition lstsq (A : list (R * R)) (c : list R) : R * R :=
  let u := map fst A in
  let v := map snd A in
  let uu := sum (zip_with Rmult u u) in
  let uv := sum (zip_with Rmult u v) in
  let vv := sum (zip_with Rmult v v) in
  let uc := sum (zip_with Rmult u c) in
  let vc := sum (zip_with Rmult v c) in
  let det := uu * vv - uv * uv in
  if negb (Reqb det 0) then
    ((vv * uc - uv * vc) / det, (uu * vc - uv * uc) / det)
  else if negb (Reqb (uu + vv) 0) then
    (uc / (uu + vv), vc / (uu + vv))
  else (0, 0).

(** The candidate directions: a Fibonacci spiral of [num_dirs] points. *)
Definition num_dirs : nat := 4000.

Definition golden : R := (sqrt 5 - 1) / 2 * 2 * PI.

Definition fib_dir (k : nat) : vec3 :=
  let kr := IZR (Z.of_nat k) in
  let z := 1 - 2 * (kr + 0.5) / IZR (Z.of_nat num_dirs) in
  let r := sqrt (1 - z * z) in
  let lon := kr * golden in
  (r * cos lon, r * sin lon, z).

Definition d_dirs : list vec3 := map fib_dir (seq 0 num_dirs).

(** What one turn of the loop over the candidates keeps: [(a, b, d, yhat)]. *)
Record candidate : Type := mkCandidate {
  c_a : R;
  c_b : R;
  c_d : vec3;
  c_yhat : list R
}.

(** The body of the loop for one candidate [d]: the sum of squares [ss]
    and the tuple to keep. *)
Definition candidate_of (nvecs : list vec3) (y w : list R)
    (y_mean : R) (yc : list R) (d : vec3) : R * candidate :=
  let N := length y in
  let ndot := map (fun n => dot n d) nvecs in
  let X := combine (ones N) ndot in
  let WX := zip_with (fun x wi => (fst x * wi, snd x * wi)) X w in
  let Wy := zip_with Rmult yc w in
  let '(a_c, b) := lstsq WX Wy in
  let a := a_c + y_mean in
  let yhat := map (fun nd => a + b * nd) ndot in
  let ss :=
    sum (zip_with Rmult w (map (fun e => e ^ 2) (zip_with Rminus y yhat))) in
  (ss, mkCandidate a b d yhat).

(** [np.column_stack] needs as many projections as there are values. *)
Definition fit_candidate (nvecs : list vec3) (y w : list R)
    (y_mean : R) (yc : list R) (d : vec3) : result (R * candidate) :=
  if negb (length nvecs =? length y)%nat then Err ValueError
  else Ok (candidate_of nvecs y w y_mean yc d).

(** The loop; [None] is the state [best = None, best_ss = inf]. *)
Definition keep_best (best : option (R * candidate)) (c : R * candidate)
  : option (R * candidate) :=
  match best with
  | None => Some c
  | Some (best_ss, _) => if Rltb (fst c) best_ss then Some c else best
  end.

Fixpoint search (nvecs : list vec3) (y w : list R) (y_mean : R)
    (yc : list R) (dirs : list vec3) (best : option (R * candidate))
  : result (option (R * candidate)) :=
  match dirs with
  | [] => Ok best
  | d :: dirs' =>
      c <- fit_candidate nvecs y w y_mean yc d ;;
      search nvecs y w y_mean yc dirs' (keep_best best c)
  end.

(** The dictionary [dict(a=a, b=b, ra=ra, dec=dec, r2=r2)]. *)
Record fit_result : Type := mkFit {
  a : R;
  b : R;
  ra : R;
  dec : R;
  r2 : fval
}.

(** The sum [np.sum(w * (y - m)**2)]. *)
Definition weighted_ss (w y : list R) (m : R) : R :=
  sum (zip_with Rmult w (map (fun e => e ^ 2) (map (fun v => v - m) y))).

(** [fit_dipole(nvecs, y, w=None)]. *)
Definition fit_dipole (nvecs : list vec3) (y : list R)
    (w : option (list R)) : result (fit_result * list R) :=
  let N := length y in
  let w := default_weights w N in
  y_mean <- average y w ;;
  let yc := map (fun v => v - y_mean) y in
  best <- search nvecs y w y_mean yc d_dirs None ;;
  match best with
  | None => Err TypeError
  | Some (best_ss, c) =>
      m <- average y w ;;
      let ss_tot := weighted_ss w y m in
      let r2 := if Rgtb ss_tot 0 then Num (1 - best_ss / ss_tot) else NaN in
      let '(dx, dy, dz) := c_d c in
      let ra := fmod (rad2deg (arctan2 dy dx) + 360) 360 in
      let dec := rad2deg (arcsin dz) in
      Ok (mkFit (c_a c) (c_b c) ra dec r2, c_yhat c)
  end.

(** The seeded random source: the state of the generator that
    [np.random.default_rng(seed)] returns for a seed it accepts (a seed
    >= 0; [Process.default_rng] has the refusal of a negative one), and
    the method [permutation(n)] of a generator, which advances its
    state. *)
Record Generator : Type := mkGenerator {
  rng : Type;
  default_rng : Z -> rng;
  permutation : rng -> nat -> list nat * rng
}.

Section PermutationTest.

Variable G : Generator.

(** The loop of [permutation_pval], with the generator and the count
    threaded through. *)
Fixpoint perm_loop (iters : nat) (g : rng G) (cnt : Z)
    (nvecs : list vec3) (y : list R) (w : option (list R)) (obs_b : R)
  : result Z :=
  match iters with
  | O => Ok cnt
  | S iters' =>
      let '(idx, g') := permutation G g (length y) in
      nv <- take nvecs idx ;;
      fit <- fit_dipole nv y w ;;
      let res := fst fit in
      let cnt' :=
        if Rgeb (Rabs (b res)) (Rabs obs_b) then (cnt + 1)%Z else cnt in
      perm_loop iters' g' cnt' nvecs y w obs_b
  end.

(** [permutation_pval(nvecs, y, w, obs_b, nperm, seed)], from the
    generator that [default_rng] returns for the seed, which is a seed it
    accepts; its refusal of a negative seed, and the generator as an object
    of the process, are in [Process.permutation_pval] below. *)
Definition permutation_pval (nvecs : list vec3) (y : list R)
    (w : option (list R)) (obs_b : R) (nperm seed : Z) : result R :=
  let g := default_rng G seed in
  cnt <- perm_loop (Z.to_nat nperm) g 0%Z nvecs y w obs_b ;;
  if (nperm + 1 =? 0)%Z then Err ZeroDivisionError
  else Ok (IZR (cnt + 1) / IZR (nperm + 1)).

End PermutationTest.

End Dipole.

(** The permutation test as the specification words it: in every iteration
    the values are reshuffled and the directions (and the weights, which are
    not mentioned) stay where they are.  Used only to compare with
    [Dipole.permutation_pval]. *)
Module DipoleSpec.

Import Dipole.

Section PermutationTest.

Variable G : Generator.

Fixpoint perm_loop_values_reshuffled (iters : nat) (g : rng G) (cnt : Z)
    (nvecs : list vec3) (y : list R) (w : option (list R)) (obs_b : R)
  : result Z :=
  match iters with
  | O => Ok cnt
  | S iters' =>
      let '(idx, g') := permutation G g (length y) in
      yp <- take y idx ;;
      fit <- fit_dipole nvecs yp w ;;
      let res := fst fit in
      let cnt' :=
        if Rgeb (Rabs (b res)) (Rabs obs_b) then (cnt + 1)%Z else cnt in
      perm_loop_values_reshuffled iters' g' cnt' nvecs y w obs_b
  end.

Definition permutation_pval_values_reshuffled (nvecs : list vec3)
    (y : list R) (w : option (list R)) (obs_b : R) (nperm seed : Z)
  : result R :=
  let g := default_rng G seed in
  cnt <- perm_loop_values_reshuffled (Z.to_nat nperm) g 0%Z
           nvecs y w obs_b ;;
  if (nperm + 1 =? 0)%Z then Err ZeroDivisionError
  else Ok (IZR (cnt + 1) / IZR (nperm + 1)).

End PermutationTest.

End DipoleSpec.

(** ** The permutation test as a step of a process

    [np.random.default_rng(seed)] creates a new generator object, and
    [rng.permutation(n)] changes the state of the object it is called on.
    A process holds the generators created so far, NumPy's global one among
    them: [gen a] is the state of the generator at address [a], and [next]
    is the address the next generator will get. *)

Module Process.

Section Sources.

Variable G : Dipole.Generator.

Record sources : Type := mkSources {
  next : nat;
  gen : nat -> Dipole.rng G
}.

(** [np.random.default_rng(seed)]: a negative seed is refused with
    [ValueError]; otherwise the new object is seeded with [seed]. *)
Definition default_rng (seed : Z) (s : sources) : result nat * sources :=
  if (seed <? 0)%Z then (Err ValueError, s)
  else
    (Ok (next s),
     mkSources (S (next s))
       (fun a => if (a =? next s)%nat then Dipole.default_rng G seed
                 else gen s a)).

(** [rng.permutation(n)] for the generator at address [r]. *)
Definition permutation (r n : nat) (s : sources) : list nat * sources :=
  let '(idx, g') := Dipole.permutation G (gen s r) n in
  (idx, mkSources (next s) (fun a => if (a =? r)%nat then g' else gen s a)).

(** The loop of [permutation_pval]; an exception leaves the generators as
    they are at that point. *)
Fixpoint perm_loop (iters : nat) (r : nat) (cnt : Z)
    (nvecs : list vec3) (y : list R) (w : option (list R)) (obs_b : R)
    (s : sources) : result Z * sources :=
  match iters with
  | O => (Ok cnt, s)
  | S iters' =>
      let '(idx, s') := permutation r (length y) s in
      match (nv <- take nvecs idx ;; Dipole.fit_dipole nv y w) with
      | Err e => (Err e, s')
      | Ok fit =>
          let res := fst fit in
          let cnt' :=
            if Rgeb (Rabs (Dipole.b res)) (Rabs obs_b) then (cnt + 1)%Z
            else cnt in
          perm_loop iters' r cnt' nvecs y w obs_b s'
      end
  end.

(** [permutation_pval(nvecs, y, w, obs_b, nperm, seed)], from its first
    statement [rng = np.random.default_rng(seed)] on. *)
Definition permutation_pval (nvecs : list vec3) (y : list R)
    (w : option (list R)) (obs_b : R) (nperm seed : Z) (s : sources)
  : result R * sources :=
  match default_rng seed s with
  | (Err e, s') => (Err e, s')
  | (Ok r, s') =>
      match perm_loop (Z.to_nat nperm) r 0%Z nvecs y w obs_b s' with
      | (Err e, s'') => (Err e, s'')
      | (Ok cnt, s'') =>
          if (nperm + 1 =? 0)%Z then (Err ZeroDivisionError, s'')
          else (Ok (IZR (cnt + 1) / IZR (nperm + 1)), s'')
      end
  end.

(** The fit followed by its significance, as [main] runs them for one
    observable: [res, yhat = fit_dipole(nvecs, y, w)], then
    [permutation_pval(nvecs, y, w, obs_b=res["b"], nperm, seed)]. *)
Definition fit_with_significance (nvecs : list vec3) (y w : list R)
    (nperm seed : Z) (s : sources)
  : result (Dipole.fit_result * R) * sources :=
  match Dipole.fit_dipole nvecs y (Some w) with
  | Err e => (Err e, s)
  | Ok fit =>
      let res := fst fit in
      match permutation_pval nvecs y (Some w) (Dipole.b res) nperm seed s
      with
      | (Err e, s') => (Err e, s')
      | (Ok pval, s') => (Ok (res, pval), s')
      end
  end.

End Sources.

End Process.

(** ** Hemisphere split ([frb_cpt_dm_histogram.py]) *)

(** [hemispheres(nvecs, dm, n0)]: [sgn = np.sign(nvecs @ n0)], then the two
    boolean-mask selections [dm[sgn >= 0]] and [dm[sgn < 0]]. *)
Definition hemispheres (nvecs : list vec3) (dm : list R) (n0 : vec3)
  : result (list R * list R) :=
  let sgn := map np.sign (map (fun n => dot n n0) nvecs) in
  pos <- mask_index dm (map (fun s => Rgeb s 0) sgn) ;;
  neg <- mask_index dm (map (fun s => Rltb s 0) sgn) ;;
  Ok (pos, neg).

(** ** Mirror reflection ([frb_qso_mirror_overlay.py]) *)

(** [reflect_cpt(ra_deg, dec_deg, ra0_deg, dec0_deg)] at one point. *)
Definition reflect_cpt (ra_deg dec_deg ra0_deg dec0_deg : R) : R * R :=
  let ra_ref := np.fmod (2 * ra0_deg - ra_deg) 360 in
  let dec_ref := 2 * dec0_deg - dec_deg in
  let dec_ref := np.clip dec_ref (-90) 90 in
  (ra_ref, dec_ref).

(** The same on the coordinate arrays of a catalogue, element by element. *)
Definition reflect_cpt_arrays (ra_deg dec_deg : list R) (ra0_deg dec0_deg : R)
  : list R * list R :=
  (map (fun ra => np.fmod (2 * ra0_deg - ra) 360) ra_deg,
   map (fun dec => np.clip (2 * dec0_deg - dec) (-90) 90) dec_deg).

(** ** Autocorrelation profile ([frb_qso_autocorr_sigma.py]) *)

Module Autocorr.

(** [crossing_angle(deg, corr, target)]. *)
Definition crossing_angle (deg corr : list R) (target : R) : result fval :=
  let idx := where_ (map (fun c => Rleb c target) corr) in
  match idx with
  | [] => Ok NaN
  | i :: _ =>
      if (0 <? i)%nat then
        x0 <- get deg (i - 1) ;;
        x1 <- get deg i ;;
        y0 <- get corr (i - 1) ;;
        y1 <- get corr i ;;
        Ok (fadd (Num x0) (fdivR ((target - y0) * (x1 - x0)) (y1 - y0)))
      else
        x <- get deg i ;;
        Ok (Num x)
  end.

(** [np.nanmean] of the selected cells: the mean of those that are not
    not-a-number, and not-a-number when none is left. *)
Definition fsum (l : list fval) : fval := fold_left fadd l (Num 0).

Definition nanmean (cells : list fval) : fval :=
  let kept := filter (fun v => negb (is_nan v)) cells in
  match kept with
  | [] => NaN
  | _ => fdiv (fsum kept) (Num (INR (length kept)))
  end.

(** [np.hypot]. *)
Definition hypot (p q : R) : R := sqrt (p * p + q * q).

(** The grid [r] of distances to the centre [(h / 2, w / 2)], flattened
    row by row like the cells of [AC]. *)
Definition distances (h w : nat) : list R :=
  flat_map (fun y =>
    map (fun x => hypot (INR y - INR h / 2) (INR x - INR w / 2)) (seq 0 w))
    (seq 0 h).

(** [bins = np.arange(0, int(np.min([h, w]) / 2))]. *)
Definition bins (h w : nat) : list R :=
  map INR (seq 0 (Nat.min h w / 2)).

(** One turn of the loop over [range(len(bins) - 1)]: the value written
    to [radial[i]], if any. *)
Definition bin_update (r : list R) (cells : list fval) (lo hi : R)
  : option fval :=
  let mask := map (fun ri => Rgeb ri lo && Rltb ri hi) r in
  if existsb (fun m => m) mask then Some (nanmean (select cells mask))
  else None.

(** [radial[i] = v]. *)
Fixpoint set_nth {A} (l : list A) (i : nat) (v : A) : list A :=
  match l, i with
  | [], _ => []
  | _ :: l', O => v :: l'
  | x :: l', S i' => x :: set_nth l' i' v
  end.

Fixpoint radial_loop (r : list R) (cells : list fval) (bins : list R)
    (idxs : list nat) (radial : list fval) : list fval :=
  match idxs with
  | [] => radial
  | i :: idxs' =>
      let radial' :=
        match bin_update r cells (nth i bins 0) (nth (S i) bins 0) with
        | Some v => set_nth radial i v
        | None => radial
        end in
      radial_loop r cells bins idxs' radial'
  end.

(** The radial profile of the autocorrelation grid [AC] of shape
    [(h, w)]: [radial = np.zeros_like(bins)], then the loop. *)
Definition radial (h w : nat) (AC : list (list fval)) : list fval :=
  let r := distances h w in
  let cells := concat AC in
  let bins := bins h w in
  let radial0 := map (fun _ => Num 0) bins in
  radial_loop r cells bins (seq 0 (length bins - 1)) radial0.

End Autocorr.

(** ** Axis significance map ([frb_sigma_axis_map.py]) *)

Module AxisMap.

Import np.

(** The parameter block at the head of the script. *)
Record params : Type := mkParams {
  THETA_MAX : R;
  F_SKY : R;
  GRID_RA : nat;
  GRID_DEC : nat
}.

(** The values the script sets. *)
Definition script_params : params := mkParams 15 0.66 72 36.

(** [ang_sep(ra1, dec1, ra2, dec2)], angles in radians, result in degrees. *)
Definition ang_sep (ra1 dec1 ra2 dec2 : R) : R :=
  rad2deg (acos (clip (sin dec1 * sin dec2 +
                       cos dec1 * cos dec2 * cos (ra1 - ra2)) (-1) 1)).

(** [np.linspace(start, stop, num)]. *)
Definition linspace (start stop : R) (num : nat) : list R :=
  match num with
  | O => []
  | S O => [start]
  | _ =>
      let step := (stop - start) / INR (num - 1) in
      map (fun k => INR k * step + start) (seq 0 num)
  end.

Definition ras (P : params) : list R := linspace 0 360 (GRID_RA P).
Definition decs (P : params) : list R := linspace (-90) 90 (GRID_DEC P).

(** The separations [theta] of all centroids from the node [(r, d)] and
    the count [np.sum(theta < THETA_MAX)]; a row of the table is
    [(centroid_ra_deg, centroid_dec_deg)]. *)
Definition thetas (rows : list (R * R)) (r d : R) : list R :=
  map (fun c => ang_sep (deg2rad (fst c)) (deg2rad (snd c))
                        (deg2rad r) (deg2rad d)) rows.

Definition count_true (l : list bool) : nat :=
  length (filter (fun m => m) l).

Definition density_at (P : params) (rows : list (R * R)) (r d : R) : R :=
  INR (count_true (map (fun t => Rltb t (THETA_MAX P)) (thetas rows r d))).

Definition density (P : params) (rows : list (R * R)) : list (list R) :=
  map (fun d => map (fun r => density_at P rows r d) (ras P)) (decs P).

(** The null model. *)
Definition DEG2_PER_SR : R := (180 / PI) ^ 2.

Definition A_tot_deg2 (P : params) : R := 4 * PI * DEG2_PER_SR * F_SKY P.

Definition A_in_deg2 (P : params) : R :=
  2 * PI * (1 - cos (deg2rad (THETA_MAX P))) * DEG2_PER_SR * F_SKY P.

(** What the script writes to [frb_sigma_axis_map.json]. *)
Record output : Type := mkOutput {
  mu_in : R;
  sigma_in : fval;
  Z_map : list (list fval)
}.

(** The script, from the table of centroids to its output.  The quotient
    of the two areas is a division of Python floats, which raises on a
    zero divisor; the division by [sigma_in] is NumPy's. *)
Definition axis_map (P : params) (rows : list (R * R)) : result output :=
  let N := length rows in
  let dens := density P rows in
  if Reqb (A_tot_deg2 P) 0 then Err ZeroDivisionError
  else
    let mu := INR N * (A_in_deg2 P / A_tot_deg2 P) in
    let sigma := fsqrt mu in
    let Z := map (map (fun n => fdiv (Num (n - mu)) sigma)) dens in
    Ok (mkOutput mu sigma Z).

End AxisMap.

(** ** Auxiliary notions for the statements *)

(** [m[i][j]] of a two-dimensional array. *)
Definition cell {A} (m : list (list A)) (i j : nat) : option A :=
  match nth_error m i with
  | Some row => nth_error row j
  | None => None
  end.

(** What one iteration of the permutation test fits: the directions
    reindexed by the drawn permutation, against the values and weights as
    they are; [bp] is the fitted amplitude. *)
Definition iteration_fit (nvecs : list vec3) (y : list R)
    (w : option (list R)) (idx : list nat) (bp : R) : Prop :=
  exists nv res yhat,
    take nvecs idx = Ok nv /\ Permutation nv nvecs /\
    Dipole.fit_dipole nv y w = Ok (res, yhat) /\ bp = Dipole.b res.

(** The index arrays of the first [k] calls of [permutation(n)] on a
    generator in state [g]. *)
Fixpoint draws (G : Dipole.Generator) (g : Dipole.rng G) (n k : nat)
  : list (list nat) :=
  match k with
  | O => []
  | S k' =>
      let '(idx, g') := Dipole.permutation G g n in
      idx :: draws G g' n k'
  end.

(** The number of fitted amplitudes at least as large, in absolute value,
    as the observed one. *)
Definition count_extreme (obs_b : R) (bs : list R) : Z :=
  Z.of_nat (length (filter (fun bp => Rgeb (Rabs bp) (Rabs obs_b)) bs)).

(** The third coordinate of the first candidate direction. *)
Definition z0 : R := 1 - 2 * (0 + 0.5) / 4000.

(** ** Inputs of the examples *)

(** A random source for the examples.  Its state is a counter that starts
    at the seed; [permutation(n)] reverses [0 .. n-1] when the counter is
    even and leaves it in order when it is odd. *)
Definition flip_generator : Dipole.Generator :=
  Dipole.mkGenerator nat (fun seed => Z.to_nat seed)
    (fun g n => (if Nat.even g then rev (seq 0 n) else seq 0 n, S g)).

(** A process in which seven generators exist already, each in state 5. *)
Definition busy_process : Process.sources flip_generator :=
  Process.mkSources flip_generator 7 (fun _ => 5%nat).

(** The normalised, centred autocorrelation of a 4 x 4 field of vertical
    stripes (columns alternately +1 and -1): 1 at even column lags, -1 at
    odd ones, and 1 at the centre [(2, 2)]. *)
Definition stripes_4x4 : list (list fval) :=
  [[Num 1; Num (-1); Num 1; Num (-1)]; [Num 1; Num (-1); Num 1; Num (-1)];
   [Num 1; Num (-1); Num 1; Num (-1)]; [Num 1; Num (-1); Num 1; Num (-1)]].

(** A hundred centroids at the south celestial pole, which is the grid
    node [(0, 0)] of the script's grid. *)
Definition hundred_at_pole : list (R * R) := repeat (0, -90) 100.

(** A coarse grid whose nodes are the two poles only, and one centroid on
    the equator, 90 degrees from both. *)
Definition polar_grid : AxisMap.params := AxisMap.mkParams 15 0.66 2 2.

(** ** Further functions of the scripts *)

(** [radec_to_mollweide(ra_deg, dec_deg)] of [frb_qso_mirror_overlay.py]. *)
Definition radec_to_mollweide (ra_deg dec_deg : R) : R * R :=
  (np.deg2rad (ra_deg - 180), np.deg2rad dec_deg).

(** [galactic_lat_from_equatorial(ra_deg, dec_deg)] of
    [frb_qso_mirror_overlay.py]. *)
Definition galactic_lat_from_equatorial (ra_deg dec_deg : R) : R :=
  let ra := np.deg2rad ra_deg in
  let dec := np.deg2rad dec_deg in
  let ra_ngp := np.deg2rad 192.85948 in
  let dec_ngp := np.deg2rad 27.12825 in
  let sinb := sin dec * sin dec_ngp +
              cos dec * cos dec_ngp * cos (ra - ra_ngp) in
  let b := asin (np.clip sinb (-1) 1) in
  np.rad2deg b.

(** Reflecting twice through the same axis. *)
Definition reflect_twice (ra dec ra0 dec0 : R) : R * R :=
  reflect_cpt (fst (reflect_cpt ra dec ra0 dec0))
              (snd (reflect_cpt ra dec ra0 dec0)) ra0 dec0.

(** The opposite direction. *)
Definition vopp (v : vec3) : vec3 :=
  let '(x, y, z) := v in (- x, - y, - z).

(** [px_per_deg = w / 360.0] and [deg = bins / px_per_deg] of
    [frb_qso_autocorr_sigma.py]. *)
Definition px_per_deg (w : nat) : R := INR w / 360.

Definition deg_of_bins (h w : nat) : list R :=
  map (fun b => b / px_per_deg w) (Autocorr.bins h w).

(** The cells of a flattened grid whose distance to the centre, in the
    co-indexed array [r], lies in [[lo, hi)]. *)
Fixpoint members (r : list R) (cells : list fval) (lo hi : R) : list fval :=
  match r, cells with
  | ri :: r', c :: cells' =>
      if Rleb lo ri && Rltb ri hi then c :: members r' cells' lo hi
      else members r' cells' lo hi
  | _, _ => []
  end.

(** [i] is the first index at which the profile is at or below the target. *)
Definition first_crossing (corr : list R) (target : R) (i : nat) : Prop :=
  (i < length corr)%nat /\ nth i corr 0 <= target /\
  forall j, (j < i)%nat -> target < nth j corr 0.

(** A finite cell with a value in [[lo, hi]]. *)
Definition bounded_cell (lo hi : R) (e : fval) : Prop :=
  exists c, e = Num c /\ lo <= c <= hi.

(** A magnitude far inside the range of doubles: the float arithmetic on
    [x], [x^2] and [1 / x^2] neither overflows nor underflows. *)
Definition within_float_range (x : R) : Prop :=
  / 10 ^ 100 <= Rabs x <= 10 ^ 100.

(** [f_sky], [neff(theta_deg)] and [L_gly(theta_deg, D_gly)] of
    [frb_qso_autocorr_sigma.py]; the angle is a NumPy float, so a zero
    divisor gives an infinity and not-a-number propagates.  On a finite
    angle the quotient is the exact one, which is what the float quotient
    approximates for an angle [within_float_range]. *)
Definition f_sky : R := 0.66.

Definition neff (theta_deg : fval) : fval :=
  match theta_deg with
  | Num t => fdivR (4 * f_sky) (np.deg2rad t ^ 2)
  | NaN => NaN
  | PInf | NInf => Num 0
  end.

Definition L_gly (theta_deg : fval) (D_gly : R) : fval :=
  match theta_deg with
  | Num t => Num (np.deg2rad t * D_gly)
  | NaN => NaN
  | PInf => if Rltb 0 D_gly then PInf else if Rltb D_gly 0 then NInf else NaN
  | NInf => if Rltb 0 D_gly then NInf else if Rltb D_gly 0 then PInf else NaN
  end.

(** [neff(crossing_angle(deg, corr, target))], as the script computes
    [N1] and [N2]. *)
Definition neff_at (deg corr : list R) (target : R) : result fval :=
  theta <- Autocorr.crossing_angle deg corr target ;;
  Ok (neff theta).

(** Sizes of a fit input for which the float arithmetic of [fit_dipole]
    stays within the range of doubles: direction vectors not longer than
    1, values and weights of size at most 10^50. *)
Definition moderate_fit_input (nvecs : list vec3) (y w : list R) : Prop :=
  Forall (fun n => dot n n <= 1) nvecs /\
  Forall (fun v => Rabs v <= 10 ^ 50) y /\
  Forall (fun v => Rabs v <= 10 ^ 50) w.

(** The sky position [fit_dipole] reports for a direction [d_hat], with
    right ascension and declination in degrees. *)
Definition reported_ra (d : vec3) : R :=
  let '(dx, dy, _) := d in
  np.fmod (np.rad2deg (Dipole.arctan2 dy dx) + 360) 360.

Definition reported_dec (d : vec3) : R :=
  let '(_, _, dz) := d in np.rad2deg (Dipole.arcsin dz).

(** The residual sum of squares [|A (p, q) - c|^2] of a candidate
    solution of the least-squares problem that [lstsq] solves. *)
Definition residual_ss (A : list (R * R)) (c : list R) (p q : R) : R :=
  np.sum (map (fun e => e ^ 2)
            (np.zip_with (fun x ci => ci - p * fst x - q * snd x) A c)).

(** ** Weights of [main] ([frb_dipole_test.py])

    The columns of the table hold floats of any kind ([main] drops the
    rows without a position, not those without a value or an error); from
    the error column [main] computes the weights of the fit.  Squares and
    quotients of finite values are the exact ones, which is what the float
    operations approximate for magnitudes [within_float_range]. *)

(** [np.isfinite]. *)
Definition isfinite (v : fval) : bool :=
  match v with Num _ => true | _ => false end.

(** [err <= 0] on a float. *)
Definition fle0 (v : fval) : bool :=
  match v with
  | Num x => Rleb x 0
  | NInf => true
  | PInf | NaN => false
  end.

(** [err[~np.isfinite(err) | (err <= 0)] = np.nan]. *)
Definition mask_invalid (err : list fval) : list fval :=
  map (fun e => if negb (isfinite e) || fle0 e then NaN else e) err.

(** The order of floats that are not not-a-number, and the sorted array
    that the median is read from. *)
Definition fleb (u v : fval) : bool :=
  match u, v with
  | NaN, _ | _, NaN => false
  | NInf, _ => true
  | _, PInf => true
  | Num a, Num b => Rleb a b
  | _, _ => false
  end.

Fixpoint insert_sorted (x : fval) (l : list fval) : list fval :=
  match l with
  | [] => [x]
  | h :: t => if fleb x h then x :: l else h :: insert_sorted x t
  end.

Fixpoint sort (l : list fval) : list fval :=
  match l with
  | [] => []
  | h :: t => insert_sorted h (sort t)
  end.

(** [np.nanmedian]: the middle of the sorted values that are not
    not-a-number, the mean of the two middle ones when their number is
    even, and not-a-number when there is none. *)
Definition nanmedian (a : list fval) : fval :=
  let s := sort (filter (fun v => negb (is_nan v)) a) in
  let n := length s in
  if (n =? 0)%nat then NaN
  else if Nat.even n then
    fdiv (fadd (nth (n / 2 - 1) s NaN) (nth (n / 2) s NaN)) (Num 2)
  else nth (n / 2) s NaN.

(** The largest finite float, and [np.nan_to_num(x, nan=v)]. *)
Definition float_max : R := (2 - / 2 ^ 52) * 2 ^ 1023.

Definition nan_to_num (nan : fval) (v : fval) : fval :=
  match v with
  | NaN => nan
  | PInf => Num float_max
  | NInf => Num (- float_max)
  | Num x => Num x
  end.

(** [x ** 2] on a float: on a finite value the exact square, which the
    float square approximates unless it overflows or underflows (for sizes
    above about 10^154 or below about 10^-154). *)
Definition fsquare (v : fval) : fval :=
  match v with
  | Num x => Num (x ^ 2)
  | NaN => NaN
  | PInf | NInf => PInf
  end.

(** The weights [main] passes to the fit of one observable with the
    column of values [y]; [err] is the error column, when the table has
    it. *)
Definition main_weights (y : list fval) (err : option (list fval))
  : list fval :=
  let w :=
    match err with
    | Some err =>
        let err := mask_invalid err in
        if existsb isfinite err then
          Some (map (fun e =>
                  fdiv (Num 1) (fsquare (nan_to_num (nanmedian err) e))) err)
        else None
    | None => None
    end in
  match w with
  | Some w => w
  | None => map Num (Dipole.ones (length y))
  end.


(** The split that [main] of [frb_cpt_dm_histogram.py] computes from the
    coordinate arrays, the values and the axis [(ra0, dec0)]. *)
Definition split_by_axis (ra dec dm : list R) (ra0 dec0 : R)
  : result (list R * list R) :=
  nvecs <- unit_vectors ra dec ;;
  axis <- unit_vectors [ra0] [dec0] ;;
  n0 <- get axis 0 ;;
  hemispheres nvecs dm n0.

(** The angular distance, in degrees, of the sky position [p] from the
    axis, as [ang_sep] of [frb_sigma_axis_map.py] measures it. *)
Definition separation (ra0 dec0 : R) (p : R * R) : R :=
  AxisMap.ang_sep (np.deg2rad (fst p)) (np.deg2rad (snd p))
                  (np.deg2rad ra0) (np.deg2rad dec0).

(** * Properties *)

(** ** Comparisons *)

Lemma Rleb_true x y : Rleb x y = true <-> x <= y.
Proof. unfold Rleb; destruct (Rle_dec x y); split; auto; discriminate. Qed.

Lemma Rleb_false x y : Rleb x y = false <-> y < x.
Proof.
  unfold Rleb; destruct (Rle_dec x y); split; intros; try discriminate; lra.
Qed.

Lemma Rltb_true x y : Rltb x y = true <-> x < y.
Proof. unfold Rltb; destruct (Rlt_dec x y); split; auto; discriminate. Qed.

Lemma Rltb_false x y : Rltb x y = false <-> y <= x.
Proof.
  unfold Rltb; destruct (Rlt_dec x y); split; intros; try discriminate; lra.
Qed.

Lemma Reqb_true x y : Reqb x y = true <-> x = y.
Proof. unfold Reqb; destruct (Req_dec_T x y); split; auto; discriminate. Qed.

Lemma Reqb_false x y : Reqb x y = false <-> x <> y.
Proof.
  unfold Reqb; destruct (Req_dec_T x y); split; intros; auto;
    try discriminate; contradiction.
Qed.

Lemma Rleb_intro_true x y : x <= y -> Rleb x y = true.
Proof. apply Rleb_true. Qed.

Lemma Rleb_intro_false x y : y < x -> Rleb x y = false.
Proof. apply Rleb_false. Qed.

Lemma Rltb_intro_true x y : x < y -> Rltb x y = true.
Proof. apply Rltb_true. Qed.

Lemma Rltb_intro_false x y : y <= x -> Rltb x y = false.
Proof. apply Rltb_false. Qed.

Lemma Reqb_intro_true x y : x = y -> Reqb x y = true.
Proof. apply Reqb_true. Qed.

Lemma Reqb_intro_false x y : x <> y -> Reqb x y = false.
Proof. apply Reqb_false. Qed.

(** Decide the comparisons of concrete reals in the goal. *)
Ltac decide_comparisons :=
  repeat match goal with
  | |- context [Rleb ?a ?b] =>
      first [ rewrite (Rleb_intro_true a b) by (simpl; lra)
            | rewrite (Rleb_intro_false a b) by (simpl; lra) ]
  | |- context [Rltb ?a ?b] =>
      first [ rewrite (Rltb_intro_true a b) by (simpl; lra)
            | rewrite (Rltb_intro_false a b) by (simpl; lra) ]
  end.

(** ** Coordinate transform *)

Section CoordinateTransform.

Lemma zip_with_length {A B C} (f : A -> B -> C) (a : list A) (b : list B) :
  length a = length b -> length (np.zip_with f a b) = length a.
Proof.
  revert b; induction a as [|x a IH]; intros [|y b] H; simpl in *;
    try discriminate; auto.
Qed.

Lemma zip_with_nth_error {A B C} (f : A -> B -> C) (a : list A)
    (b : list B) i x y :
  nth_error a i = Some x -> nth_error b i = Some y ->
  nth_error (np.zip_with f a b) i = Some (f x y).
Proof.
  revert b i; induction a as [|x' a IH]; intros [|y' b] [|i] Ha Hb;
    simpl in *; try discriminate.
  - congruence.
  - eauto.
Qed.

Lemma rows_of_sky_points (ra dec : list R) :
  length ra = length dec ->
  zip3 (np.zip_with Rmult (map cos (map np.deg2rad dec))
                          (map cos (map np.deg2rad ra)))
       (np.zip_with Rmult (map cos (map np.deg2rad dec))
                          (map sin (map np.deg2rad ra)))
       (map sin (map np.deg2rad dec))
  = np.zip_with to_unit_vector ra dec.
Proof.
  revert dec; induction ra as [|r ra IH]; intros [|d dec] H; simpl in *;
    try discriminate; auto.
  rewrite IH by congruence. reflexivity.
Qed.

Lemma sph_to_cart_rows (ra dec : list R) :
  length ra = length dec ->
  sph_to_cart ra dec = Ok (np.zip_with to_unit_vector ra dec).
Proof.
  intros H. unfold sph_to_cart, np.broadcast2, vstack3T.
  rewrite !length_map. rewrite <- H, Nat.eqb_refl. simpl.
  rewrite !zip_with_length by (rewrite !length_map; auto).
  rewrite !length_map, <- H, Nat.eqb_refl. simpl.
  now rewrite rows_of_sky_points.
Qed.

Lemma unit_vectors_rows (ra dec : list R) :
  length ra = length dec ->
  unit_vectors ra dec = Ok (np.zip_with to_unit_vector ra dec).
Proof. exact (sph_to_cart_rows ra dec). Qed.

Lemma norm_to_unit_vector (r d : R) : norm (to_unit_vector r d) = 1.
Proof.
  unfold norm, to_unit_vector, dot.
  set (a := np.deg2rad r). set (e := np.deg2rad d).
  replace (cos e * cos a * (cos e * cos a) + cos e * sin a * (cos e * sin a)
           + sin e * sin e)
    with ((cos e)² * ((sin a)² + (cos a)²) + (sin e)²)
    by (unfold Rsqr; ring).
  rewrite sin2_cos2, Rmult_1_r, Rplus_comm, sin2_cos2.
  apply sqrt_1.
Qed.

End CoordinateTransform.

(** C9.  On coordinate arrays of equal length N (a single sky point is the
    case N = 1), [sph_to_cart] and [unit_vectors] both return N vectors, the
    i-th being (cos dec_i cos ra_i, cos dec_i sin ra_i, sin dec_i) with the
    angles converted to radians, and its Euclidean norm is 1 within 1e-9.
    This holds for all real ra and dec, in particular for ra in [0,360) and
    dec in [-90,90]. *)
Theorem sph_to_cart_unit_vectors (ra dec : list R)
    (Hlen : length ra = length dec) :
  exists vs,
    sph_to_cart ra dec = Ok vs /\ unit_vectors ra dec = Ok vs /\
    length vs = length ra /\
    forall i r d,
      nth_error ra i = Some r -> nth_error dec i = Some d ->
      nth_error vs i =
        Some (cos (d * (PI / 180)) * cos (r * (PI / 180)),
              cos (d * (PI / 180)) * sin (r * (PI / 180)),
              sin (d * (PI / 180)))
      /\ forall v, nth_error vs i = Some v -> Rabs (norm v - 1) <= 1 / 10 ^ 9.
Proof.
  exists (np.zip_with to_unit_vector ra dec).
  rewrite sph_to_cart_rows, unit_vectors_rows by assumption.
  repeat split; auto using zip_with_length.
  - now apply zip_with_nth_error with (f := to_unit_vector).
  - intros v Hv.
    rewrite (zip_with_nth_error to_unit_vector ra dec i r d) in Hv by auto.
    injection Hv as <-. rewrite norm_to_unit_vector.
    replace (1 - 1) with 0 by ring. rewrite Rabs_R0.
    apply Rlt_le, Rdiv_lt_0_compat; [lra | apply pow_lt; lra].
Qed.

Lemma sph_to_cart_unit_vectors_witness :
  length [0; 90] = length [0; 90] /\
  exists vs,
    sph_to_cart [0; 90] [0; 90] = Ok vs /\
    unit_vectors [0; 90] [0; 90] = Ok vs /\
    length vs = 2%nat /\
    forall i r d,
      nth_error [0; 90] i = Some r -> nth_error [0; 90] i = Some d ->
      nth_error vs i =
        Some (cos (d * (PI / 180)) * cos (r * (PI / 180)),
              cos (d * (PI / 180)) * sin (r * (PI / 180)),
              sin (d * (PI / 180)))
      /\ forall v, nth_error vs i = Some v -> Rabs (norm v - 1) <= 1 / 10 ^ 9.
Proof.
  split; [reflexivity|].
  apply (sph_to_cart_unit_vectors [0; 90] [0; 90]). reflexivity.
Defined.

(** ** Hemisphere split *)

Section Hemispheres.

Lemma sign_nonneg (x : R) : Rgeb (np.sign x) 0 = Rleb 0 x.
Proof.
  unfold Rgeb, np.sign.
  destruct (Rltb x 0) eqn:Hneg.
  - apply Rltb_true in Hneg.
    rewrite Rleb_intro_false by lra. symmetry. apply Rleb_false. lra.
  - apply Rltb_false in Hneg.
    destruct (Rltb 0 x); rewrite Rleb_intro_true by lra;
      symmetry; apply Rleb_true; lra.
Qed.

Lemma sign_neg (x : R) : Rltb (np.sign x) 0 = Rltb x 0.
Proof.
  unfold np.sign.
  destruct (Rltb x 0) eqn:Hneg.
  - apply Rltb_true. lra.
  - destruct (Rltb 0 x); apply Rltb_false; lra.
Qed.

Lemma nonneg_not_neg (x : R) : Rleb 0 x = negb (Rltb x 0).
Proof.
  destruct (Rltb x 0) eqn:H.
  - apply Rltb_true in H. apply Rleb_false. exact H.
  - apply Rltb_false in H. apply Rleb_true. exact H.
Qed.

Lemma mask_index_same_length {A} (a : list A) (m : list bool) :
  length a = length m -> mask_index a m = Ok (select a m).
Proof.
  intros H. unfold mask_index. now rewrite H, Nat.eqb_refl, orb_true_r.
Qed.

Lemma select_split {A} (a : list A) (m : list bool) :
  Permutation (select a m ++ select a (map negb m)) a
  \/ length a <> length m.
Proof.
  revert m; induction a as [|x a IH]; intros [|c m]; simpl.
  - left. constructor.
  - right. discriminate.
  - right. discriminate.
  - destruct (IH m) as [IHp|IHn].
    + left. destruct c; simpl.
      * now constructor.
      * apply Permutation_sym, Permutation_cons_app, Permutation_sym, IHp.
    + right. congruence.
Qed.

Lemma select_split_length {A} (a : list A) (m : list bool) :
  length a = length m ->
  (length (select a m) + length (select a (map negb m)) = length a)%nat.
Proof.
  intros H. destruct (select_split a m) as [P|N]; [|contradiction].
  apply Permutation_length in P. now rewrite length_app in P.
Qed.

End Hemispheres.

(** C10.  For co-indexed arrays [nvecs] and [dm] and any axis [n0],
    [hemispheres] returns two arrays: the first selects the samples whose
    dot product with [n0] is >= 0 (the boundary dot = 0 included), the
    second those whose dot product is < 0.  Every sample satisfies exactly
    one of the two conditions, so the two arrays together are a
    rearrangement of [dm] and their lengths add up to [len(dm)]. *)
Theorem hemispheres_partition (nvecs : list vec3) (dm : list R) (n0 : vec3)
    (Hlen : length nvecs = length dm) :
  exists pos neg,
    hemispheres nvecs dm n0 = Ok (pos, neg) /\
    pos = select dm (map (fun n => Rleb 0 (dot n n0)) nvecs) /\
    neg = select dm (map (fun n => Rltb (dot n n0) 0) nvecs) /\
    (forall n, Rleb 0 (dot n n0) = negb (Rltb (dot n n0) 0)) /\
    Permutation (pos ++ neg) dm /\
    (length pos + length neg = length dm)%nat.
Proof.
  set (mp := map (fun n => Rleb 0 (dot n n0)) nvecs).
  set (mn := map (fun n => Rltb (dot n n0) 0) nvecs).
  assert (Hmn : mn = map negb mp).
  { unfold mn, mp. rewrite map_map. apply map_ext. intros n.
    rewrite nonneg_not_neg. now rewrite negb_involutive. }
  assert (Hl : length dm = length mp) by (unfold mp; now rewrite length_map).
  exists (select dm mp), (select dm mn).
  split; [|split; [reflexivity|split; [reflexivity|split; [|split]]]].
  - unfold hemispheres.
    rewrite !mask_index_same_length by (now rewrite !length_map).
    simpl. rewrite !map_map.
    rewrite (map_ext (fun x => Rgeb (np.sign (dot x n0)) 0)
                     (fun n => Rleb 0 (dot n n0)))
      by (intros; apply sign_nonneg).
    rewrite (map_ext (fun x => Rltb (np.sign (dot x n0)) 0)
                     (fun n => Rltb (dot n n0) 0))
      by (intros; apply sign_neg).
    reflexivity.
  - intros n. apply nonneg_not_neg.
  - rewrite Hmn. destruct (select_split dm mp); [assumption|contradiction].
  - rewrite Hmn. now apply select_split_length.
Qed.

Lemma hemispheres_partition_witness :
  length [(1, 0, 0); (0, 1, 0); (-1, 0, 0)] = length [10; 20; 30] /\
  exists pos neg,
    hemispheres [(1, 0, 0); (0, 1, 0); (-1, 0, 0)] [10; 20; 30] (1, 0, 0)
      = Ok (pos, neg) /\
    pos = select [10; 20; 30]
            (map (fun n => Rleb 0 (dot n (1, 0, 0)))
                 [(1, 0, 0); (0, 1, 0); (-1, 0, 0)]) /\
    neg = select [10; 20; 30]
            (map (fun n => Rltb (dot n (1, 0, 0)) 0)
                 [(1, 0, 0); (0, 1, 0); (-1, 0, 0)]) /\
    (forall n, Rleb 0 (dot n (1, 0, 0)) = negb (Rltb (dot n (1, 0, 0)) 0)) /\
    Permutation (pos ++ neg) [10; 20; 30] /\
    (length pos + length neg = length [10; 20; 30])%nat.
Proof.
  split; [reflexivity|].
  apply (hemispheres_partition
           [(1, 0, 0); (0, 1, 0); (-1, 0, 0)] [10; 20; 30] (1, 0, 0)).
  reflexivity.
Defined.

(** On three samples along the x axis, split by the axis (1, 0, 0): the
    sample on the boundary (dot = 0) goes with the positive hemisphere. *)
Example hemispheres_boundary :
  hemispheres [(1, 0, 0); (0, 1, 0); (-1, 0, 0)] [10; 20; 30] (1, 0, 0)
  = Ok ([10; 20], [30]).
Proof.
  unfold hemispheres, mask_index, np.sign, Rgeb, dot. cbn [map length].
  decide_comparisons. reflexivity.
Qed.

(** ** Mirror reflection *)

Section Reflection.

Lemma fmod_360_id (x : R) : 0 <= x < 360 -> np.fmod x 360 = x.
Proof.
  intros H. unfold np.fmod.
  rewrite (Zfloor_eq 0 (x / 360)); [simpl; ring|].
  simpl. lra.
Qed.

Lemma fmod_360_shift (x : R) (k : Z) :
  np.fmod (x + 360 * IZR k) 360 = np.fmod x 360.
Proof.
  unfold np.fmod.
  replace ((x + 360 * IZR k) / 360) with (x / 360 + IZR k) by (field; lra).
  rewrite Zfloor_addz, plus_IZR. ring.
Qed.

Lemma clip_id (x lo hi : R) : lo <= x <= hi -> np.clip x lo hi = x.
Proof.
  intros [Hl Hu]. unfold np.clip.
  rewrite Rmax_left by lra. now rewrite Rmin_left by lra.
Qed.

Lemma reflect_ra_twice (ra ra0 : R) :
  0 <= ra < 360 ->
  np.fmod (2 * ra0 - np.fmod (2 * ra0 - ra) 360) 360 = ra.
Proof.
  intros H. unfold np.fmod at 2.
  set (k := Zfloor ((2 * ra0 - ra) / 360)).
  replace (2 * ra0 - (2 * ra0 - ra - 360 * IZR k))
    with (ra + 360 * IZR k) by ring.
  rewrite fmod_360_shift. now apply fmod_360_id.
Qed.

Lemma reflect_cpt_arrays_pointwise (ra dec : list R) (ra0 dec0 : R) :
  combine (fst (reflect_cpt_arrays ra dec ra0 dec0))
          (snd (reflect_cpt_arrays ra dec ra0 dec0))
  = map (fun p => reflect_cpt (fst p) (snd p) ra0 dec0) (combine ra dec).
Proof.
  unfold reflect_cpt_arrays. cbn [fst snd].
  revert dec. induction ra as [|r ra IH]; intros [|d dec]; simpl; auto.
  now rewrite IH.
Qed.

End Reflection.

(** The reflection at a declination outside [-90, 90]: the first reflection
    of dec = 100 through dec0 = 50 is 0 (no clamp), the second is
    clamp(100) = 90. *)
Lemma reflect_cpt_twice_dec_100 :
  reflect_cpt (fst (reflect_cpt 0 100 0 50)) (snd (reflect_cpt 0 100 0 50))
              0 50 = (0, 90).
Proof.
  unfold reflect_cpt. simpl fst. simpl snd.
  replace (2 * 0 - 0) with 0 by ring.
  rewrite (fmod_360_id 0) by lra.
  replace (2 * 0 - 0) with 0 by ring.
  rewrite (fmod_360_id 0) by lra.
  replace (2 * 50 - 100) with 0 by ring.
  rewrite (clip_id 0) by lra.
  replace (2 * 50 - 0) with 100 by ring.
  unfold np.clip. rewrite Rmax_left by lra. now rewrite Rmin_right by lra.
Qed.

(** C6 as stated fails: with ra in [0,360) and |2 dec0 - dec| <= 90 alone,
    the second reflection can clamp.  At (ra, dec, ra0, dec0) =
    (0, 100, 0, 50) the double reflection returns (0, 90), not (0, 100). *)
Lemma reflect_cpt_involution_counterexample :
  ~ (forall ra dec ra0 dec0 : R,
       0 <= ra < 360 -> Rabs (2 * dec0 - dec) <= 90 ->
       reflect_cpt (fst (reflect_cpt ra dec ra0 dec0))
                   (snd (reflect_cpt ra dec ra0 dec0)) ra0 dec0 = (ra, dec)).
Proof.
  intros H. specialize (H 0 100 0 50).
  rewrite reflect_cpt_twice_dec_100 in H.
  assert (E : (0, 90) = (0, 100)).
  { apply H; [lra|]. replace (2 * 50 - 100) with 0 by ring.
    rewrite Rabs_R0. lra. }
  injection E as E. lra.
Qed.

(** C6, amended.  [reflect_cpt] returns ra' = (2 ra0 - ra) mod 360 and
    dec' = clamp(2 dec0 - dec, -90, 90).  For ra in [0,360), dec in
    [-90,90] and |2 dec0 - dec| <= 90 (so that neither reflection clamps),
    reflecting twice through the same axis recovers (ra, dec). *)
Theorem reflect_cpt_involution (ra dec ra0 dec0 : R)
    (Hra : 0 <= ra < 360) (Hdec : -90 <= dec <= 90)
    (Hclamp : Rabs (2 * dec0 - dec) <= 90) :
  reflect_cpt ra dec ra0 dec0 =
    (np.fmod (2 * ra0 - ra) 360, np.clip (2 * dec0 - dec) (-90) 90) /\
  reflect_cpt (fst (reflect_cpt ra dec ra0 dec0))
              (snd (reflect_cpt ra dec ra0 dec0)) ra0 dec0 = (ra, dec).
Proof.
  split; [reflexivity|].
  unfold reflect_cpt. simpl fst. simpl snd.
  rewrite reflect_ra_twice by assumption.
  assert (Hc : -90 <= 2 * dec0 - dec <= 90).
  { revert Hclamp. unfold Rabs. destruct Rcase_abs; lra. }
  rewrite (clip_id (2 * dec0 - dec)) by lra.
  replace (2 * dec0 - (2 * dec0 - dec)) with dec by ring.
  now rewrite clip_id by lra.
Qed.

Lemma reflect_cpt_involution_witness :
  0 <= 30 < 360 /\ -90 <= 10 <= 90 /\ Rabs (2 * 40 - 10) <= 90 /\
  reflect_cpt 30 10 170 40 =
    (np.fmod (2 * 170 - 30) 360, np.clip (2 * 40 - 10) (-90) 90) /\
  reflect_cpt (fst (reflect_cpt 30 10 170 40))
              (snd (reflect_cpt 30 10 170 40)) 170 40 = (30, 10).
Proof.
  assert (Ha : Rabs (2 * 40 - 10) <= 90).
  { replace (2 * 40 - 10) with 70 by ring. rewrite Rabs_pos_eq; lra. }
  split; [lra|]. split; [lra|]. split; [exact Ha|].
  apply (reflect_cpt_involution 30 10 170 40); [lra|lra|exact Ha].
Defined.

(** ** Crossing angle *)

Section CrossingAngle.

Import Autocorr.

Lemma where_from_none (p : R -> bool) (l : list R) (k : nat) :
  (forall x, In x l -> p x = false) -> where_from k (map p l) = [].
Proof.
  revert k; induction l as [|x l IH]; intros k H; simpl; auto.
  rewrite (H x) by (now left). apply IH. intros; apply H; now right.
Qed.

Lemma where_from_first (p : R -> bool) (l : list R) (k i : nat) :
  (i < length l)%nat ->
  p (nth i l 0) = true ->
  (forall j, (j < i)%nat -> p (nth j l 0) = false) ->
  exists rest, where_from k (map p l) = (k + i)%nat :: rest.
Proof.
  revert k i; induction l as [|x l IH]; intros k i Hi Hp Hbefore;
    simpl in *; [lia|].
  destruct i as [|i].
  - rewrite Hp. rewrite Nat.add_0_r. eauto.
  - rewrite (Hbefore 0%nat) by lia.
    destruct (IH (S k) i) as [rest Hr]; try lia; auto.
    + intros j Hj. apply (Hbefore (S j)). lia.
    + exists rest. rewrite Hr. f_equal. lia.
Qed.

Lemma get_nth {A} (l : list A) (i : nat) (d : A) :
  (i < length l)%nat -> get l i = Ok (nth i l d).
Proof.
  intros H. unfold get. now rewrite (nth_error_nth' l d H).
Qed.

Lemma fdivR_nonzero (x y : R) : y <> 0 -> fdivR x y = Num (x / y).
Proof. intros H. unfold fdivR. now rewrite Reqb_intro_false. Qed.

End CrossingAngle.

(** C4.  [crossing_angle(deg, corr, target)] on arrays of equal length:
    - if no correlation is <= target, the result is not-a-number;
    - otherwise, with i the first index at which corr[i] <= target, the
      result is deg[0] when i = 0, and for i > 0 it is
      deg[i-1] + (target - corr[i-1]) (deg[i] - deg[i-1])
                 / (corr[i] - corr[i-1]),
      the abscissa at ordinate [target] of the line through
      (deg[i-1], corr[i-1]) and (deg[i], corr[i]);
    - for deg = [0,1,2], corr = [1,0.6,0.3], target = 0.5 the result is
      1 + (0.5-0.6)/(0.3-0.6) = 4/3. *)
Theorem crossing_angle_interpolates (deg corr : list R) (target : R)
    (Hlen : length deg = length corr) :
  ((forall c, In c corr -> target < c) ->
   Autocorr.crossing_angle deg corr target = Ok NaN)
  /\
  (forall i,
     (i < length corr)%nat ->
     nth i corr 0 <= target ->
     (forall j, (j < i)%nat -> target < nth j corr 0) ->
     (i = 0%nat ->
      Autocorr.crossing_angle deg corr target = Ok (Num (nth 0 deg 0)))
     /\
     ((0 < i)%nat ->
      let x0 := nth (i - 1) deg 0 in
      let x1 := nth i deg 0 in
      let y0 := nth (i - 1) corr 0 in
      let y1 := nth i corr 0 in
      let theta := x0 + (target - y0) * (x1 - x0) / (y1 - y0) in
      Autocorr.crossing_angle deg corr target = Ok (Num theta) /\
      (theta - x0) * (y1 - y0) = (target - y0) * (x1 - x0)))
  /\
  (Autocorr.crossing_angle [0; 1; 2] [1; 0.6; 0.3] 0.5
     = Ok (Num (1 + (0.5 - 0.6) / (0.3 - 0.6)))
   /\ 1 + (0.5 - 0.6) / (0.3 - 0.6) = 4 / 3).
Proof.
  assert (General : forall dg cr tg, length dg = length cr ->
    forall i, (i < length cr)%nat -> nth i cr 0 <= tg ->
    (forall j, (j < i)%nat -> tg < nth j cr 0) ->
    (i = 0%nat -> Autocorr.crossing_angle dg cr tg = Ok (Num (nth 0 dg 0)))
    /\
    ((0 < i)%nat ->
     Autocorr.crossing_angle dg cr tg =
       Ok (Num (nth (i - 1) dg 0 +
                (tg - nth (i - 1) cr 0) * (nth i dg 0 - nth (i - 1) dg 0)
                / (nth i cr 0 - nth (i - 1) cr 0)))
     /\ nth i cr 0 - nth (i - 1) cr 0 <> 0)).
  { intros dg cr tg Hl i Hi Hcross Hbefore.
    destruct (where_from_first (fun c => Rleb c tg) cr 0 i) as [rest Hw];
      auto.
    { now apply Rleb_true. }
    { intros j Hj. apply Rleb_false. auto. }
    unfold Autocorr.crossing_angle, where_. rewrite Hw. simpl Nat.add.
    split.
    - intros ->. simpl. now rewrite (get_nth dg 0 0) by lia.
    - intros Hpos.
      assert (Hne : nth i cr 0 - nth (i - 1) cr 0 <> 0).
      { specialize (Hbefore (i - 1)%nat). lapply Hbefore; [lra | lia]. }
      split; [|exact Hne].
      replace (0 <? i)%nat with true by (symmetry; now apply Nat.ltb_lt).
      rewrite (get_nth dg (i - 1) 0), (get_nth dg i 0),
        (get_nth cr (i - 1) 0), (get_nth cr i 0) by lia.
      simpl. now rewrite fdivR_nonzero. }
  split; [|split].
  - intros Hall. unfold Autocorr.crossing_angle, where_.
    rewrite where_from_none; [reflexivity|].
    intros x Hx. apply Rleb_false. auto.
  - intros i Hi Hcross Hbefore.
    destruct (General deg corr target Hlen i Hi Hcross Hbefore) as [G0 G1].
    split; [exact G0|].
    intros Hpos. destruct (G1 Hpos) as [Hres Hne]. cbv zeta.
    split; [exact Hres|]. field. exact Hne.
  - split; [|lra].
    assert (Hi : Nat.lt 2 (length [1; 0.6; 0.3])) by (simpl; lia).
    destruct (General [0; 1; 2] [1; 0.6; 0.3] 0.5 eq_refl 2%nat Hi)
      as [_ G1].
    + simpl. lra.
    + intros [|[|j]] Hj; simpl; try lra; lia.
    + destruct (G1 ltac:(lia)) as [Hres _]. rewrite Hres. simpl.
      do 2 f_equal. lra.
Qed.

Lemma crossing_angle_interpolates_witness :
  length [0; 1; 2] = length [1; 0.6; 0.3] /\
  (Autocorr.crossing_angle [0; 1; 2] [1; 0.6; 0.3] 0.5
     = Ok (Num (1 + (0.5 - 0.6) / (0.3 - 0.6)))
   /\ 1 + (0.5 - 0.6) / (0.3 - 0.6) = 4 / 3).
Proof.
  split; [reflexivity|].
  apply (crossing_angle_interpolates [0; 1; 2] [1; 0.6; 0.3] 0.5 eq_refl).
Defined.

(** ** Radial profile *)

Section RadialProfile.

Import Autocorr.

Lemma in_bin_squares (p q lo hi : R) :
  0 <= lo -> 0 <= hi ->
  Rgeb (hypot p q) lo && Rltb (hypot p q) hi =
  Rleb (lo * lo) (p * p + q * q) && Rltb (p * p + q * q) (hi * hi).
Proof.
  intros Hlo Hhi. unfold Rgeb, hypot.
  assert (Hc : 0 <= p * p + q * q) by nra.
  set (c := p * p + q * q) in *.
  pose proof (sqrt_pos c) as Hs.
  pose proof (sqrt_sqrt c Hc) as Hss.
  f_equal.
  - destruct (Rleb (lo * lo) c) eqn:E.
    + apply Rleb_true in E. apply Rleb_true. nra.
    + apply Rleb_false in E. apply Rleb_false. nra.
  - destruct (Rltb c (hi * hi)) eqn:E.
    + apply Rltb_true in E. apply Rltb_true. nra.
    + apply Rltb_false in E. apply Rltb_false. nra.
Qed.

Lemma set_nth_length {A} (l : list A) (i : nat) (v : A) :
  length (set_nth l i v) = length l.
Proof.
  revert i; induction l as [|x l IH]; intros [|i]; simpl; auto.
Qed.

Lemma set_nth_other {A} (l : list A) (i j : nat) (v d : A) :
  i <> j -> nth j (set_nth l i v) d = nth j l d.
Proof.
  revert i j; induction l as [|x l IH]; intros [|i] [|j] H; simpl; auto.
  contradiction.
Qed.

Lemma radial_loop_untouched (r : list R) (cells : list fval)
    (bs : list R) (idxs : list nat) (rad : list fval) (j : nat) :
  ~ In j idxs ->
  nth j (radial_loop r cells bs idxs rad) (Num 0) = nth j rad (Num 0).
Proof.
  revert rad; induction idxs as [|i idxs IH]; intros rad Hj; simpl; auto.
  rewrite IH by (intros H; apply Hj; now right).
  destruct bin_update; auto.
  apply set_nth_other. intros ->. apply Hj. now left.
Qed.

Lemma radial_length (h w : nat) (AC : list (list fval)) :
  length (radial h w AC) = (Nat.min h w / 2)%nat.
Proof.
  unfold radial.
  assert (G : forall idxs rad,
    length (radial_loop (distances h w) (concat AC) (bins h w) idxs rad)
    = length rad).
  { induction idxs as [|i idxs IH]; intros rad; simpl; auto.
    rewrite IH. destruct bin_update; auto using set_nth_length. }
  rewrite G, length_map. unfold bins. now rewrite length_map, length_seq.
Qed.

(** Whatever the grid holds, the last entry of the profile is the zero
    it was initialised with: the loop stops one bin short. *)
Lemma radial_last_entry (h w : nat) (AC : list (list fval)) :
  nth (Nat.min h w / 2 - 1) (radial h w AC) (Num 0) = Num 0.
Proof.
  unfold radial. rewrite radial_loop_untouched.
  - generalize (Nat.min h w / 2 - 1)%nat as m. generalize (bins h w) as bs.
    induction bs as [|x bs IH]; intros [|m]; simpl; auto.
  - rewrite in_seq. unfold bins. rewrite length_map, length_seq. lia.
Qed.

Lemma set_nth_same {A} (l : list A) (i : nat) (v d : A) :
  (i < length l)%nat -> nth i (set_nth l i v) d = v.
Proof.
  revert i; induction l as [|x l IH]; intros [|i] H; simpl in *;
    try lia; auto.
  apply IH. lia.
Qed.

Lemma radial_loop_entry (r : list R) (cells : list fval) (bs : list R)
    (idxs : list nat) (rad : list fval) (i : nat) :
  NoDup idxs -> In i idxs -> (i < length rad)%nat ->
  nth i (radial_loop r cells bs idxs rad) (Num 0) =
  match bin_update r cells (nth i bs 0) (nth (S i) bs 0) with
  | Some v => v
  | None => nth i rad (Num 0)
  end.
Proof.
  revert rad. induction idxs as [|k idxs IH]; intros rad Hnd Hin Hlen;
    [destruct Hin|].
  inversion Hnd as [|? ? Hk Hnd']; subst.
  cbn [radial_loop].
  destruct (Nat.eq_dec k i) as [->|Hne].
  - rewrite radial_loop_untouched by assumption.
    destruct bin_update; auto using set_nth_same.
  - destruct Hin as [->|Hin]; [contradiction|].
    set (upd := bin_update r cells (nth k bs 0) (nth (S k) bs 0)).
    rewrite IH; auto.
    + destruct (bin_update r cells (nth i bs 0) (nth (S i) bs 0)); auto.
      destruct upd; auto using set_nth_other.
    + destruct upd; now rewrite ?set_nth_length.
Qed.

Lemma bins_nth (h w i : nat) :
  (i < Nat.min h w / 2)%nat -> nth i (bins h w) 0 = INR i.
Proof.
  intros H. unfold bins.
  change 0 with (INR 0). rewrite map_nth. now rewrite seq_nth.
Qed.

(** Every bin but the last holds the mean of its members, ignoring
    not-a-number, or the initial 0 when it has no member. *)
Lemma radial_entry (h w : nat) (AC : list (list fval)) (i : nat) :
  (S i < Nat.min h w / 2)%nat ->
  nth i (radial h w AC) (Num 0) =
  match bin_update (distances h w) (concat AC) (INR i) (INR (S i)) with
  | Some v => v
  | None => Num 0
  end.
Proof.
  intros Hi. unfold radial.
  assert (Hb : length (bins h w) = (Nat.min h w / 2)%nat)
    by (unfold bins; now rewrite length_map, length_seq).
  rewrite radial_loop_entry.
  - rewrite !bins_nth by lia.
    destruct bin_update; auto.
    clear. generalize (bins h w) as bs. intros bs. revert i.
    induction bs as [|x bs IH]; intros [|i]; simpl; auto.
  - apply seq_NoDup.
  - apply in_seq. rewrite Hb. lia.
  - rewrite length_map, Hb. lia.
Qed.

End RadialProfile.

(** C5 fails on the code at the last bin.  On the 4 x 4 autocorrelation
    grid of vertical stripes the bins are 0 and 1 (half the shorter side is
    2).  Bin 1 has members: the eight cells at pixel distance 1 or sqrt 2
    from the centre, two of them 1 and six of them -1, of mean -1/2.  But
    the loop runs over [range(len(bins) - 1)] and never reaches bin 1: the
    profile is [1, 0]. *)
Theorem radial_misses_last_bin :
  Autocorr.radial 4 4 stripes_4x4 = [Num 1; Num 0] /\
  Autocorr.bin_update (Autocorr.distances 4 4) (concat stripes_4x4) 1 2
    = Some (Num (- (1 / 2))).
Proof.
  split.
  - unfold Autocorr.radial, Autocorr.bins, Autocorr.distances, stripes_4x4.
    simpl seq. simpl map. simpl flat_map. simpl concat. simpl length.
    simpl seq. unfold Autocorr.radial_loop.
    simpl nth. unfold Autocorr.bin_update. simpl map.
    rewrite !(in_bin_squares _ _ 0 1) by lra.
    decide_comparisons. simpl.
    unfold Autocorr.nanmean. simpl. unfold fdivR.
    rewrite Reqb_intro_false by lra. do 2 f_equal. f_equal. lra.
  - unfold Autocorr.bin_update, Autocorr.distances, stripes_4x4.
    simpl seq. simpl map. simpl flat_map. simpl concat.
    rewrite !(in_bin_squares _ _ 1 2) by lra.
    decide_comparisons. simpl.
    unfold Autocorr.nanmean. simpl. unfold fdivR.
    rewrite Reqb_intro_false by lra. do 2 f_equal. lra.
Qed.

(** ** Axis significance map *)

Section AxisSignificance.

Import AxisMap.

Lemma cell_map {A B} (f : A -> B) (m : list (list A)) (i j : nat) :
  cell (map (map f) m) i j = option_map f (cell m i j).
Proof.
  unfold cell. rewrite nth_error_map.
  destruct (nth_error m i) as [row|]; simpl; auto.
  now rewrite nth_error_map.
Qed.

Lemma cell_density (P : params) (rows : list (R * R)) (i j : nat) (d r : R) :
  nth_error (decs P) i = Some d -> nth_error (ras P) j = Some r ->
  cell (density P rows) i j = Some (density_at P rows r d).
Proof.
  intros Hd Hr. unfold cell, density.
  rewrite nth_error_map, Hd. simpl. now rewrite nth_error_map, Hr.
Qed.

Lemma cell_density_inv (P : params) (rows : list (R * R)) (i j : nat) n :
  cell (density P rows) i j = Some n ->
  exists d r, nth_error (decs P) i = Some d /\
              nth_error (ras P) j = Some r /\ n = density_at P rows r d.
Proof.
  unfold cell, density. rewrite nth_error_map.
  destruct (nth_error (decs P) i) as [d|]; simpl; [|discriminate].
  rewrite nth_error_map.
  destruct (nth_error (ras P) j) as [r|]; simpl; [|discriminate].
  intros [= <-]. eauto.
Qed.

(** The count is the number of centroids closer than [THETA_MAX]. *)
Lemma density_at_counts (P : params) (rows : list (R * R)) (r d : R) :
  density_at P rows r d =
  INR (length (filter
    (fun c => Rltb (ang_sep (np.deg2rad (fst c)) (np.deg2rad (snd c))
                            (np.deg2rad r) (np.deg2rad d)) (THETA_MAX P))
    rows)).
Proof.
  unfold density_at, count_true, thetas. f_equal.
  induction rows as [|c rows IH]; simpl; auto.
  destruct Rltb; simpl; now rewrite IH.
Qed.

Lemma density_at_none (P : params) (rows : list (R * R)) (r d : R) :
  (forall c, In c rows ->
     THETA_MAX P <= ang_sep (np.deg2rad (fst c)) (np.deg2rad (snd c))
                            (np.deg2rad r) (np.deg2rad d)) ->
  density_at P rows r d = 0.
Proof.
  intros H. rewrite density_at_counts.
  replace (filter _ rows) with (@nil (R * R)); [reflexivity|].
  symmetry. induction rows as [|c rows IH]; simpl; auto.
  rewrite Rltb_intro_false by (apply H; now left).
  apply IH. intros; apply H; now right.
Qed.

Lemma density_at_all (P : params) (rows : list (R * R)) (r d : R) :
  (forall c, In c rows ->
     ang_sep (np.deg2rad (fst c)) (np.deg2rad (snd c))
             (np.deg2rad r) (np.deg2rad d) < THETA_MAX P) ->
  density_at P rows r d = INR (length rows).
Proof.
  intros H. rewrite density_at_counts. do 2 f_equal.
  induction rows as [|c rows IH]; simpl; auto.
  rewrite Rltb_intro_true by (apply H; now left).
  f_equal. apply IH. intros; apply H; now right.
Qed.

Lemma area_ratio (P : params) :
  F_SKY P <> 0 ->
  A_in_deg2 P / A_tot_deg2 P = (1 - cos (np.deg2rad (THETA_MAX P))) / 2.
Proof.
  intros HF. unfold A_in_deg2, A_tot_deg2, DEG2_PER_SR.
  pose proof PI_RGT_0. field. lra.
Qed.

Lemma A_tot_nonzero (P : params) : F_SKY P <> 0 -> A_tot_deg2 P <> 0.
Proof.
  intros HF. unfold A_tot_deg2, DEG2_PER_SR. pose proof PI_RGT_0 as Hpi.
  assert (H1 : 180 / PI <> 0).
  { apply Rgt_not_eq. apply Rdiv_lt_0_compat; lra. }
  apply Rmult_integral_contrapositive_currified; [|exact HF].
  apply Rmult_integral_contrapositive_currified; [lra|].
  apply pow_nonzero. exact H1.
Qed.

Lemma cap_fraction_pos (theta : R) :
  0 < theta < 360 -> 0 < (1 - cos (np.deg2rad theta)) / 2.
Proof.
  intros H. unfold np.deg2rad. pose proof PI_RGT_0 as Hpi.
  replace (theta * (PI / 180)) with (2 * (theta * (PI / 360))) by field.
  rewrite cos_2a_sin.
  assert (Hs : 0 < sin (theta * (PI / 360))).
  { apply sin_gt_0; [apply Rmult_lt_0_compat; lra|].
    apply Rmult_lt_reg_r with (360 / PI).
    - apply Rdiv_lt_0_compat; lra.
    - field_simplify; lra. }
  nra.
Qed.

Lemma cap_fraction_nonneg (theta : R) :
  0 <= (1 - cos (np.deg2rad theta)) / 2.
Proof. pose proof (COS_bound (np.deg2rad theta)). lra. Qed.

Lemma mu_nonneg (P : params) (rows : list (R * R)) :
  F_SKY P <> 0 ->
  0 <= INR (length rows) * (A_in_deg2 P / A_tot_deg2 P).
Proof.
  intros HF. rewrite area_ratio by assumption.
  apply Rmult_le_pos; [apply pos_INR | apply cap_fraction_nonneg].
Qed.

Lemma mu_pos (P : params) (rows : list (R * R)) :
  F_SKY P <> 0 -> 0 < THETA_MAX P < 360 -> rows <> [] ->
  0 < INR (length rows) * (A_in_deg2 P / A_tot_deg2 P).
Proof.
  intros HF Ht Hne. rewrite area_ratio by assumption.
  apply Rmult_lt_0_compat; [|now apply cap_fraction_pos].
  apply lt_0_INR. destruct rows; [contradiction | simpl; lia].
Qed.

Lemma axis_map_ok (P : params) (rows : list (R * R)) :
  F_SKY P <> 0 ->
  let mu := INR (length rows) * (A_in_deg2 P / A_tot_deg2 P) in
  axis_map P rows =
    Ok (mkOutput mu (Num (sqrt mu))
          (map (map (fun n => fdiv (Num (n - mu)) (Num (sqrt mu))))
               (density P rows))).
Proof.
  intros HF mu. unfold axis_map.
  rewrite Reqb_intro_false by (now apply A_tot_nonzero).
  fold mu. unfold fsqrt.
  rewrite Rltb_intro_false by (now apply mu_nonneg). reflexivity.
Qed.

Lemma zscore_pos_sigma (n mu : R) :
  0 < mu -> fdiv (Num (n - mu)) (Num (sqrt mu)) = Num ((n - mu) / sqrt mu).
Proof.
  intros H. simpl. apply fdivR_nonzero.
  apply Rgt_not_eq, sqrt_lt_R0, H.
Qed.

Lemma zscore_zero_density (mu : R) :
  0 < mu -> (0 - mu) / sqrt mu = - sqrt mu.
Proof.
  intros H. pose proof (sqrt_lt_R0 mu H) as Hs.
  pose proof (sqrt_sqrt mu (Rlt_le _ _ H)) as Hss.
  apply Rmult_eq_reg_r with (sqrt mu); [|lra].
  unfold Rdiv. rewrite Rmult_assoc, Rinv_l by lra. lra.
Qed.

End AxisSignificance.

Section AxisSignificanceResults.

Import AxisMap.

Variable P : params.
Variable rows : list (R * R).
Hypothesis HF : F_SKY P <> 0.
Hypothesis Ht : 0 < THETA_MAX P < 360.
Hypothesis Hne : rows <> [].

Let mu : R := INR (length rows) * (A_in_deg2 P / A_tot_deg2 P).
Let Z : list (list fval) :=
  map (map (fun n => fdiv (Num (n - mu)) (Num (sqrt mu)))) (density P rows).

Lemma axis_map_value : axis_map P rows = Ok (mkOutput mu (Num (sqrt mu)) Z).
Proof. now apply axis_map_ok. Qed.

Lemma axis_map_node (i j : nat) (d r : R) :
  nth_error (decs P) i = Some d -> nth_error (ras P) j = Some r ->
  cell Z i j = Some (Num ((density_at P rows r d - mu) / sqrt mu)).
Proof.
  intros Hd Hr. unfold Z.
  rewrite cell_map, (cell_density P rows i j d r Hd Hr). simpl option_map.
  f_equal. apply zscore_pos_sigma. now apply mu_pos.
Qed.

Lemma axis_map_all_far :
  (forall c d r, In c rows -> In d (decs P) -> In r (ras P) ->
     THETA_MAX P <= ang_sep (np.deg2rad (fst c)) (np.deg2rad (snd c))
                            (np.deg2rad r) (np.deg2rad d)) ->
  forall i j z, cell Z i j = Some z -> z = Num (- sqrt mu).
Proof.
  intros Hfar i j z Hz. unfold Z in Hz. rewrite cell_map in Hz.
  destruct (cell (density P rows) i j) as [n|] eqn:Hn; [|discriminate].
  destruct (cell_density_inv P rows i j n Hn) as (d & r & Hd & Hr & ->).
  simpl in Hz. injection Hz as <-.
  rewrite density_at_none.
  - rewrite fdivR_nonzero
      by (apply Rgt_not_eq, sqrt_lt_R0; now apply mu_pos).
    f_equal. apply zscore_zero_density. now apply mu_pos.
  - intros c Hc. apply Hfar; eauto using nth_error_In.
Qed.

Lemma axis_map_all_within (i j : nat) (d r : R) :
  nth_error (decs P) i = Some d -> nth_error (ras P) j = Some r ->
  (forall c, In c rows ->
     ang_sep (np.deg2rad (fst c)) (np.deg2rad (snd c))
             (np.deg2rad r) (np.deg2rad d) < THETA_MAX P) ->
  density_at P rows r d = INR (length rows) /\
  cell Z i j = Some (Num ((INR (length rows) - mu) / sqrt mu)).
Proof.
  intros Hd Hr Hin.
  pose proof (density_at_all P rows r d Hin) as Hall.
  split; [exact Hall|].
  rewrite (axis_map_node i j d r Hd Hr). now rewrite Hall.
Qed.

End AxisSignificanceResults.

(** C3 as stated fails on the empty table of centroids (N = 0).  No
    centroid is closer than [THETA_MAX] to any node, mu and sigma are 0, and
    every Z is 0/0: not-a-number, not -sqrt(mu). *)
Lemma axis_map_empty_table_counterexample :
  exists out,
    AxisMap.axis_map AxisMap.script_params [] = Ok out /\
    (forall c d r, In c [] ->
       In d (AxisMap.decs AxisMap.script_params) ->
       In r (AxisMap.ras AxisMap.script_params) ->
       AxisMap.THETA_MAX AxisMap.script_params <=
       AxisMap.ang_sep (np.deg2rad (fst c)) (np.deg2rad (snd c))
                       (np.deg2rad r) (np.deg2rad d)) /\
    AxisMap.mu_in out = 0 /\
    cell (AxisMap.Z_map out) 0 0 = Some NaN /\
    NaN <> Num (- sqrt (AxisMap.mu_in out)).
Proof.
  eexists. split.
  { apply axis_map_ok. simpl. lra. }
  cbn [AxisMap.mu_in AxisMap.Z_map length INR].
  split; [intros c d r []|].
  split; [ring|].
  split; [|discriminate].
  assert (Hd : exists d, nth_error (AxisMap.decs AxisMap.script_params) 0
                         = Some d) by (eexists; reflexivity).
  assert (Hr : exists r, nth_error (AxisMap.ras AxisMap.script_params) 0
                         = Some r) by (eexists; reflexivity).
  destruct Hd as [d Hd], Hr as [r Hr].
  rewrite cell_map, (cell_density _ [] 0 0 d r Hd Hr). simpl option_map.
  f_equal. rewrite density_at_none by (intros c []).
  rewrite Rmult_0_l, sqrt_0. simpl. unfold fdivR.
  rewrite !Reqb_intro_true by ring. reflexivity.
Qed.

(** C3, amended.  For a non-empty table of N centroids, a sky fraction
    different from 0 and a search radius strictly between 0 and 360 degrees:
    the script returns mu = N (A_in / A_tot) > 0 and sigma = sqrt(mu); at
    every grid node the density is the number of centroids whose
    great-circle separation from the node is strictly less than theta_max
    and Z = (density - mu) / sigma.  If every centroid is at separation
    >= theta_max from every node, every Z is -sqrt(mu).  If N = 100 and all
    centroids are within theta_max of one node, that node's density is 100
    and its Z is (100 - mu) / sigma. *)
Theorem axis_map_zscores (P : AxisMap.params) (rows : list (R * R))
    (HF : AxisMap.F_SKY P <> 0) (Ht : 0 < AxisMap.THETA_MAX P < 360)
    (Hne : rows <> []) :
  exists out,
    AxisMap.axis_map P rows = Ok out /\
    AxisMap.mu_in out =
      INR (length rows) * (AxisMap.A_in_deg2 P / AxisMap.A_tot_deg2 P) /\
    0 < AxisMap.mu_in out /\
    AxisMap.sigma_in out = Num (sqrt (AxisMap.mu_in out)) /\
    (forall i j d r,
       nth_error (AxisMap.decs P) i = Some d ->
       nth_error (AxisMap.ras P) j = Some r ->
       AxisMap.density_at P rows r d =
         INR (length (filter
           (fun c => Rltb (AxisMap.ang_sep
                             (np.deg2rad (fst c)) (np.deg2rad (snd c))
                             (np.deg2rad r) (np.deg2rad d))
                          (AxisMap.THETA_MAX P)) rows)) /\
       cell (AxisMap.Z_map out) i j =
         Some (Num ((AxisMap.density_at P rows r d - AxisMap.mu_in out)
                    / sqrt (AxisMap.mu_in out)))) /\
    ((forall c d r, In c rows ->
        In d (AxisMap.decs P) -> In r (AxisMap.ras P) ->
        AxisMap.THETA_MAX P <=
        AxisMap.ang_sep (np.deg2rad (fst c)) (np.deg2rad (snd c))
                        (np.deg2rad r) (np.deg2rad d)) ->
     forall i j z, cell (AxisMap.Z_map out) i j = Some z ->
                   z = Num (- sqrt (AxisMap.mu_in out))) /\
    (length rows = 100%nat ->
     forall i j d r,
       nth_error (AxisMap.decs P) i = Some d ->
       nth_error (AxisMap.ras P) j = Some r ->
       (forall c, In c rows ->
          AxisMap.ang_sep (np.deg2rad (fst c)) (np.deg2rad (snd c))
                          (np.deg2rad r) (np.deg2rad d)
          < AxisMap.THETA_MAX P) ->
       AxisMap.density_at P rows r d = 100 /\
       cell (AxisMap.Z_map out) i j =
         Some (Num ((100 - AxisMap.mu_in out) / sqrt (AxisMap.mu_in out)))).
Proof.
  eexists. split; [now apply axis_map_value|].
  cbn [AxisMap.mu_in AxisMap.sigma_in AxisMap.Z_map].
  split; [reflexivity|]. split; [now apply mu_pos|].
  split; [reflexivity|]. split; [|split].
  - intros i j d r Hd Hr. split; [apply density_at_counts|].
    now apply axis_map_node.
  - now apply axis_map_all_far.
  - intros H100 i j d r Hd Hr Hin.
    destruct (axis_map_all_within P rows HF Ht Hne i j d r Hd Hr Hin)
      as [Hdens Hz].
    assert (E : INR (length rows) = 100)
      by (rewrite H100, INR_IZR_INZ; reflexivity).
    split; [now rewrite Hdens|].
    rewrite Hz. unfold Rdiv, Rminus. do 4 f_equal. exact E.
Qed.

Section AxisSignificanceInstances.

Import AxisMap.

Lemma script_decs_head : nth_error (decs script_params) 0 = Some (-90).
Proof.
  unfold decs, linspace, script_params. cbn [GRID_DEC].
  cbn [seq map nth_error]. f_equal. simpl INR at 1. ring.
Qed.

Lemma script_ras_head : nth_error (ras script_params) 0 = Some 0.
Proof.
  unfold ras, linspace, script_params. cbn [GRID_RA].
  cbn [seq map nth_error]. f_equal. simpl INR at 1. ring.
Qed.

Lemma ang_sep_same (ra1 dec1 : R) : ang_sep ra1 dec1 ra1 dec1 = 0.
Proof.
  unfold ang_sep. replace (ra1 - ra1) with 0 by ring.
  rewrite cos_0, Rmult_1_r.
  replace (sin dec1 * sin dec1 + cos dec1 * cos dec1)
    with ((sin dec1)² + (cos dec1)²) by (unfold Rsqr; ring).
  rewrite sin2_cos2, clip_id by lra.
  rewrite acos_1. unfold np.rad2deg. ring.
Qed.

Lemma hundred_at_pole_within (c : R * R) :
  In c hundred_at_pole ->
  ang_sep (np.deg2rad (fst c)) (np.deg2rad (snd c))
          (np.deg2rad 0) (np.deg2rad (-90)) < THETA_MAX script_params.
Proof.
  intros Hc. apply repeat_spec in Hc. subst c. simpl fst. simpl snd.
  rewrite ang_sep_same. simpl. lra.
Qed.

Lemma deg2rad_90 : np.deg2rad 90 = PI / 2.
Proof. unfold np.deg2rad. field. Qed.

Lemma deg2rad_m90 : np.deg2rad (-90) = - (PI / 2).
Proof. unfold np.deg2rad. field. Qed.

Lemma ang_sep_equator_pole (ra1 ra2 dec2 : R) :
  cos dec2 = 0 -> ang_sep ra1 (np.deg2rad 0) ra2 dec2 = 90.
Proof.
  intros Hc. unfold ang_sep.
  replace (np.deg2rad 0) with 0 by (unfold np.deg2rad; ring).
  rewrite sin_0, Hc.
  replace (0 * sin dec2 + cos 0 * 0 * cos (ra1 - ra2)) with 0 by ring.
  rewrite clip_id by lra. rewrite acos_0. unfold np.rad2deg.
  pose proof PI_RGT_0. field. lra.
Qed.

Lemma polar_grid_decs (d : R) :
  In d (decs polar_grid) -> cos (np.deg2rad d) = 0.
Proof.
  unfold decs, linspace, polar_grid. cbn [GRID_DEC seq map]. simpl INR.
  intros [<-|[<-|[]]].
  - replace (0 * ((90 - -90) / 1) + -90) with (-90) by field.
    rewrite deg2rad_m90, cos_neg. apply cos_PI2.
  - replace (1 * ((90 - -90) / 1) + -90) with 90 by field.
    rewrite deg2rad_90. apply cos_PI2.
Qed.

End AxisSignificanceInstances.

Lemma axis_map_zscores_witness :
  AxisMap.F_SKY AxisMap.script_params <> 0 /\
  0 < AxisMap.THETA_MAX AxisMap.script_params < 360 /\
  hundred_at_pole <> [] /\
  exists out,
    AxisMap.axis_map AxisMap.script_params hundred_at_pole = Ok out /\
    0 < AxisMap.mu_in out /\
    AxisMap.density_at AxisMap.script_params hundred_at_pole 0 (-90) = 100 /\
    cell (AxisMap.Z_map out) 0 0 =
      Some (Num ((100 - AxisMap.mu_in out) / sqrt (AxisMap.mu_in out))).
Proof.
  assert (HF : AxisMap.F_SKY AxisMap.script_params <> 0) by (simpl; lra).
  assert (Ht : 0 < AxisMap.THETA_MAX AxisMap.script_params < 360)
    by (simpl; lra).
  assert (Hne : hundred_at_pole <> []) by discriminate.
  split; [exact HF|]. split; [exact Ht|]. split; [exact Hne|].
  destruct (axis_map_zscores AxisMap.script_params hundred_at_pole HF Ht Hne)
    as (out & Hout & _ & Hmu & _ & _ & _ & H100).
  exists out. split; [exact Hout|]. split; [exact Hmu|].
  apply (H100 eq_refl 0%nat 0%nat (-90) 0
           script_decs_head script_ras_head hundred_at_pole_within).
Defined.

(** The premise "every centroid is at least theta_max away from every
    node" of C3 can hold: on the grid of the two poles, one centroid on the
    equator gives Z = -sqrt(mu) at every node. *)
Example axis_map_far_from_all_nodes :
  exists out,
    AxisMap.axis_map polar_grid [(0, 0)] = Ok out /\
    0 < AxisMap.mu_in out /\
    cell (AxisMap.Z_map out) 0 0 = Some (Num (- sqrt (AxisMap.mu_in out))) /\
    forall i j z, cell (AxisMap.Z_map out) i j = Some z ->
                  z = Num (- sqrt (AxisMap.mu_in out)).
Proof.
  assert (HF : AxisMap.F_SKY polar_grid <> 0) by (simpl; lra).
  assert (Ht : 0 < AxisMap.THETA_MAX polar_grid < 360) by (simpl; lra).
  assert (Hne : [(0, 0)] <> @nil (R * R)) by discriminate.
  assert (Hfar : forall c d r, In c [(0, 0)] ->
            In d (AxisMap.decs polar_grid) -> In r (AxisMap.ras polar_grid) ->
            AxisMap.THETA_MAX polar_grid <=
            AxisMap.ang_sep (np.deg2rad (fst c)) (np.deg2rad (snd c))
                            (np.deg2rad r) (np.deg2rad d)).
  { intros c d r [<-|[]] Hd _. simpl fst. simpl snd.
    rewrite ang_sep_equator_pole by (now apply polar_grid_decs).
    simpl. lra. }
  eexists. split; [now apply axis_map_value|].
  cbn [AxisMap.mu_in AxisMap.Z_map].
  split; [now apply mu_pos|].
  pose proof (axis_map_all_far polar_grid [(0, 0)] HF Ht Hne Hfar) as Hall.
  split; [|exact Hall].
  assert (Hd : exists d, nth_error (AxisMap.decs polar_grid) 0 = Some d)
    by (eexists; reflexivity).
  assert (Hr : exists r, nth_error (AxisMap.ras polar_grid) 0 = Some r)
    by (eexists; reflexivity).
  destruct Hd as [d Hd], Hr as [r Hr].
  rewrite (axis_map_node polar_grid [(0, 0)] HF Ht Hne 0 0 d r Hd Hr).
  rewrite (density_at_none polar_grid [(0, 0)] r d)
    by (intros c Hc; apply Hfar; eauto using nth_error_In).
  do 2 f_equal. apply zscore_zero_density. now apply mu_pos.
Qed.

(** ** Dipole fitter *)

Section DipoleSearch.

Import Dipole.

Lemma candidate_ss (nvecs : list vec3) (y w : list R) (m : R)
    (yc : list R) (d : vec3) :
  fst (candidate_of nvecs y w m yc d) =
  np.sum (np.zip_with Rmult w
            (map (fun e => e ^ 2)
               (np.zip_with Rminus y
                  (c_yhat (snd (candidate_of nvecs y w m yc d)))))).
Proof. unfold candidate_of. destruct lstsq. reflexivity. Qed.

Lemma search_fold (nvecs : list vec3) (y w : list R) (m : R)
    (yc : list R) (dirs : list vec3) (best : option (R * candidate)) :
  length nvecs = length y ->
  search nvecs y w m yc dirs best =
  Ok (fold_left keep_best (map (candidate_of nvecs y w m yc) dirs) best).
Proof.
  intros Hn. revert best. induction dirs as [|d dirs IH]; intros best;
    simpl; auto.
  unfold fit_candidate. rewrite Hn, Nat.eqb_refl. simpl. apply IH.
Qed.

(** The loop keeps a candidate of least [ss]. *)
Lemma keep_best_least (cs : list (R * candidate)) (c0 : R * candidate) :
  exists c,
    fold_left keep_best cs (Some c0) = Some c /\
    (c = c0 \/ In c cs) /\
    fst c <= fst c0 /\
    forall c', In c' cs -> fst c <= fst c'.
Proof.
  revert c0. induction cs as [|c1 cs IH]; intros c0; simpl.
  - exists c0. repeat split; auto; try lra. intros c' [].
  - destruct c0 as [s0 k0]. simpl.
    destruct (Rltb (fst c1) s0) eqn:E.
    + apply Rltb_true in E.
      destruct (IH c1) as (c & Hc & Hin & Hle & Hall).
      exists c. repeat split; auto.
      * destruct Hin as [->|Hin]; auto.
      * simpl. lra.
      * intros c' [<-|Hc']; auto.
    + apply Rltb_false in E.
      destruct (IH (s0, k0)) as (c & Hc & Hin & Hle & Hall).
      exists c. repeat split; auto.
      * destruct Hin as [->|Hin]; auto.
      * intros c' [<-|Hc']; auto. simpl in Hle. lra.
Qed.

(** ... and the first one, when none that follows is strictly better. *)
Lemma keep_best_first (cs : list (R * candidate)) (c0 : R * candidate) :
  (forall c, In c cs -> fst c0 <= fst c) ->
  fold_left keep_best cs (Some c0) = Some c0.
Proof.
  revert c0. induction cs as [|c1 cs IH]; intros [s0 k0] H; simpl; auto.
  rewrite Rltb_intro_false by (apply (H c1); now left).
  apply IH. intros c Hc. apply H. now right.
Qed.

Lemma keep_best_cons (c0 : R * candidate) (cs : list (R * candidate)) :
  fold_left keep_best (c0 :: cs) None = fold_left keep_best cs (Some c0).
Proof. reflexivity. Qed.

Lemma d_dirs_cons : d_dirs = fib_dir 0 :: map fib_dir (seq 1 (num_dirs - 1)).
Proof. reflexivity. Qed.

Lemma average_ok (y w : list R) :
  length w = length y -> np.sum w <> 0 ->
  average y w = Ok (np.sum (np.zip_with Rmult y w) / np.sum w).
Proof.
  intros Hl Hs. unfold average. rewrite Hl, Nat.eqb_refl. simpl.
  now rewrite Reqb_intro_false.
Qed.

Lemma weighted_ss_nonneg (w l : list R) :
  Forall (fun x => 0 <= x) w ->
  0 <= np.sum (np.zip_with Rmult w (map (fun e => e ^ 2) l)).
Proof.
  intros Hw. revert l. unfold np.sum.
  induction Hw as [|x w Hx Hw IH]; intros [|e l]; simpl; try lra.
  apply Rplus_le_le_0_compat; [|apply IH].
  apply Rmult_le_pos; [exact Hx | nra].
Qed.

End DipoleSearch.

Section DipoleFit.

Import Dipole.

Variable nvecs : list vec3.
Variable y : list R.
Variable w : option (list R).

Let wt : list R := default_weights w (length y).
Let m : R := np.sum (np.zip_with Rmult y wt) / np.sum wt.
Let yc : list R := map (fun v => v - m) y.
Let cands : list (R * candidate) :=
  map (candidate_of nvecs y wt m yc) d_dirs.

Lemma best_candidate :
  exists c,
    fold_left keep_best cands None = Some c /\
    In c cands /\
    forall c', In c' cands -> fst c <= fst c'.
Proof.
  unfold cands. rewrite d_dirs_cons, map_cons.
  set (c0 := candidate_of nvecs y wt m yc (fib_dir 0)).
  set (cs := map _ (map fib_dir _)). clearbody c0 cs.
  rewrite keep_best_cons.
  destruct (keep_best_least cs c0) as (c & Hc & Hin & Hle & Hall).
  exists c. split; [exact Hc|]. split.
  - destruct Hin as [->|Hin]; [now left | now right].
  - intros c' [<-|Hc']; auto.
Qed.

Hypothesis Hn : length nvecs = length y.
Hypothesis Hw : length wt = length y.
Hypothesis Hs : np.sum wt <> 0.

Lemma fit_dipole_value :
  exists ss_best c,
    fold_left keep_best cands None = Some (ss_best, c) /\
    fit_dipole nvecs y w =
      Ok (mkFit (c_a c) (c_b c)
            (np.fmod (np.rad2deg (arctan2 (snd (fst (c_d c)))
                                          (fst (fst (c_d c)))) + 360) 360)
            (np.rad2deg (arcsin (snd (c_d c))))
            (if Rgtb (weighted_ss wt y m) 0
             then Num (1 - ss_best / weighted_ss wt y m) else NaN),
          c_yhat c).
Proof.
  destruct best_candidate as ([ssb c] & Hbest & _).
  exists ssb, c. split; [exact Hbest|].
  unfold fit_dipole. fold wt.
  rewrite (average_ok y wt Hw Hs). cbn [bind]. fold m. fold yc.
  rewrite search_fold by exact Hn. cbn [bind].
  fold cands. rewrite Hbest.
  destruct (c_d c) as [[dx dy] dz]. reflexivity.
Qed.

End DipoleFit.

(** C7.  For a fit input on which the weighted mean is defined (as many
    directions and weights as values, weights not summing to zero),
    [fit_dipole] returns, it does not raise.  With ss_best the weighted
    residual sum of squares of the returned prediction, which is the least
    over all candidate directions, and ss_tot = sum w_i (y_i - mean_w(y))^2:
    R^2 = 1 - ss_best / ss_tot when ss_tot > 0, and R^2 is not-a-number
    exactly when ss_tot <= 0. *)
Theorem fit_dipole_r2 (nvecs : list vec3) (y : list R) (w : option (list R))
    (Hn : length nvecs = length y)
    (Hw : length (Dipole.default_weights w (length y)) = length y)
    (Hs : np.sum (Dipole.default_weights w (length y)) <> 0) :
  let wt := Dipole.default_weights w (length y) in
  let m := np.sum (np.zip_with Rmult y wt) / np.sum wt in
  let ss_tot :=
    np.sum (np.zip_with Rmult wt
              (map (fun e => e ^ 2) (map (fun v => v - m) y))) in
  exists res yhat ss_best,
    Dipole.fit_dipole nvecs y w = Ok (res, yhat) /\
    Dipole.average y wt = Ok m /\
    ss_best =
      np.sum (np.zip_with Rmult wt
                (map (fun e => e ^ 2) (np.zip_with Rminus y yhat))) /\
    (forall d, In d Dipole.d_dirs ->
       ss_best <=
       fst (Dipole.candidate_of nvecs y wt m (map (fun v => v - m) y) d)) /\
    (exists d, In d Dipole.d_dirs /\
       (ss_best, yhat) =
       (fst (Dipole.candidate_of nvecs y wt m (map (fun v => v - m) y) d),
        Dipole.c_yhat
          (snd (Dipole.candidate_of nvecs y wt m
                  (map (fun v => v - m) y) d)))) /\
    (0 < ss_tot -> Dipole.r2 res = Num (1 - ss_best / ss_tot)) /\
    (Dipole.r2 res = NaN <-> ss_tot <= 0).
Proof.
  intros wt m ss_tot.
  destruct (fit_dipole_value nvecs y w Hn Hw Hs) as (ssb & c & Hbest & Hfit).
  destruct (best_candidate nvecs y w) as (c' & Hbest' & Hin & Hleast).
  fold wt in Hbest, Hbest', Hin, Hleast, Hfit.
  fold m in Hbest, Hbest', Hin, Hleast, Hfit.
  rewrite Hbest in Hbest'. injection Hbest' as <-.
  apply in_map_iff in Hin. destruct Hin as (d & Hd & Hind).
  eexists _, (Dipole.c_yhat c), ssb.
  split; [exact Hfit|].
  split; [now apply average_ok|].
  assert (Hss : ssb = fst (Dipole.candidate_of nvecs y wt m
                             (map (fun v => v - m) y) d)) by now rewrite Hd.
  assert (Hyh : Dipole.c_yhat c =
                Dipole.c_yhat (snd (Dipole.candidate_of nvecs y wt m
                                      (map (fun v => v - m) y) d)))
    by now rewrite Hd.
  split; [|split; [|split; [|split]]].
  - rewrite Hss at 1. rewrite candidate_ss. now rewrite <- Hyh.
  - intros d' Hd'. apply (Hleast (Dipole.candidate_of nvecs y wt m
                                    (map (fun v => v - m) y) d')).
    now apply in_map.
  - exists d. split; [exact Hind|]. now rewrite <- Hss, <- Hyh.
  - intros Hpos. cbn [Dipole.r2]. unfold Dipole.weighted_ss, Rgtb.
    fold ss_tot. now rewrite Rltb_intro_true.
  - cbn [Dipole.r2]. unfold Dipole.weighted_ss, Rgtb. fold ss_tot.
    destruct (Rltb 0 ss_tot) eqn:E.
    + apply Rltb_true in E. split; [discriminate | lra].
    + apply Rltb_false in E. split; auto.
Qed.

Lemma fit_dipole_r2_witness :
  length [(1, 0, 0); (0, 1, 0)] = length [1; 2] /\
  length (Dipole.default_weights None (length [1; 2])) = length [1; 2] /\
  np.sum (Dipole.default_weights None (length [1; 2])) <> 0 /\
  exists res yhat,
    Dipole.fit_dipole [(1, 0, 0); (0, 1, 0)] [1; 2] None = Ok (res, yhat) /\
    (Dipole.r2 res = NaN <->
     np.sum (np.zip_with Rmult [1; 1]
               (map (fun e => e ^ 2)
                  (map (fun v => v - np.sum (np.zip_with Rmult [1; 2] [1; 1])
                                    / np.sum [1; 1]) [1; 2]))) <= 0).
Proof.
  assert (Hs : np.sum (Dipole.default_weights None (length [1; 2])) <> 0)
    by (simpl; lra).
  split; [reflexivity|]. split; [reflexivity|]. split; [exact Hs|].
  destruct (fit_dipole_r2 [(1, 0, 0); (0, 1, 0)] [1; 2] None
              eq_refl eq_refl Hs)
    as (res & yhat & ssb & Hfit & _ & _ & _ & _ & _ & Hnan).
  exists res, yhat. split; [exact Hfit | exact Hnan].
Defined.

Section DipoleExactFits.

Import Dipole.

Lemma fib_dir_0 : fib_dir 0 = (sqrt (1 - z0 * z0), 0, z0).
Proof.
  unfold fib_dir, num_dirs, z0.
  change (IZR (Z.of_nat 0)) with 0.
  replace (IZR (Z.of_nat 4000)) with 4000 by reflexivity.
  rewrite Rmult_0_l, cos_0, sin_0, Rmult_1_r, Rmult_0_r. reflexivity.
Qed.

Lemma z0_value : z0 = 3999 / 4000.
Proof. unfold z0. lra. Qed.

Lemma first_radius_pos : 0 < sqrt (1 - z0 * z0).
Proof. apply sqrt_lt_R0. rewrite z0_value. lra. Qed.

Lemma first_candidate_ra :
  np.fmod (np.rad2deg (arctan2 0 (sqrt (1 - z0 * z0))) + 360) 360 = 0.
Proof.
  unfold arctan2. rewrite Rltb_intro_true by apply first_radius_pos.
  unfold Rdiv at 1. rewrite Rmult_0_l, atan_0.
  unfold np.rad2deg. rewrite Rmult_0_l.
  replace (0 + 360) with (0 + 360 * IZR 1) by ring.
  rewrite fmod_360_shift. apply fmod_360_id. lra.
Qed.

(** When the first candidate fits exactly and no weight is negative, the
    loop keeps the first candidate: no later one is strictly better. *)
Lemma first_candidate_kept (nvecs : list vec3) (y wt : list R) (m : R)
    (yc : list R) :
  Forall (fun x => 0 <= x) wt ->
  fst (candidate_of nvecs y wt m yc (fib_dir 0)) = 0 ->
  fold_left keep_best (map (candidate_of nvecs y wt m yc) d_dirs) None
  = Some (candidate_of nvecs y wt m yc (fib_dir 0)).
Proof.
  intros Hpos H0. rewrite d_dirs_cons, map_cons.
  set (c0 := candidate_of nvecs y wt m yc (fib_dir 0)) in *.
  set (ds := map fib_dir _). clearbody ds.
  rewrite keep_best_cons. apply keep_best_first.
  intros c Hc. apply in_map_iff in Hc. destruct Hc as (d & <- & _).
  rewrite H0, candidate_ss. now apply weighted_ss_nonneg.
Qed.

(** One sample: every candidate fits it exactly with amplitude 0. *)
Lemma candidate_single (n : vec3) (v w0 : R) (d : vec3) :
  w0 <> 0 ->
  candidate_of [n] [v] [w0] v [v - v] d = (0, mkCandidate v 0 d [v]).
Proof.
  intros Hw0. unfold candidate_of, lstsq. simpl.
  set (nd := dot n d).
  rewrite (Reqb_intro_true
             ((1 * w0 * (1 * w0) + 0) * (nd * w0 * (nd * w0) + 0) -
              (1 * w0 * (nd * w0) + 0) * (1 * w0 * (nd * w0) + 0)) 0)
    by ring.
  simpl negb. cbv iota.
  rewrite Reqb_intro_false by nra.
  simpl negb. cbv iota.
  assert (Hd : w0 * w0 + nd * w0 * (nd * w0) <> 0) by nra.
  f_equal; [field; exact Hd|].
  f_equal; [field; exact Hd | field; exact Hd |].
  f_equal. field. exact Hd.
Qed.

End DipoleExactFits.

Section DipoleSmallInputs.

Import Dipole.

Lemma fit_dipole_no_sample (nvecs : list vec3) (w : option (list R)) :
  w = None \/ w = Some [] ->
  fit_dipole nvecs [] w = Err ZeroDivisionError.
Proof.
  intros [->| ->]; unfold fit_dipole, average;
    cbn [length default_weights ones repeat Nat.eqb negb np.sum fold_right];
    rewrite Reqb_intro_true by reflexivity; reflexivity.
Qed.

Lemma fit_dipole_one_sample (n : vec3) (v : R) (w : option (list R)) :
  default_weights w 1 = [1] ->
  fit_dipole [n] [v] w =
    Ok (mkFit v 0 0 (np.rad2deg (arcsin z0)) NaN, [v]).
Proof.
  intros Hwt. unfold fit_dipole. cbn [length]. rewrite Hwt.
  rewrite (average_ok [v] [1]) by (simpl; auto; lra).
  cbn [bind].
  assert (Hm : np.sum (np.zip_with Rmult [v] [1]) / np.sum [1] = v)
    by (simpl; field; lra).
  rewrite Hm. cbn [map].
  rewrite search_fold by reflexivity. cbn [bind].
  rewrite first_candidate_kept.
  - rewrite candidate_single by lra. cbn [c_d c_a c_b c_yhat].
    rewrite fib_dir_0. cbv beta iota zeta. rewrite first_candidate_ra.
    unfold weighted_ss, Rgtb. cbn [map np.zip_with np.sum fold_right].
    rewrite Rltb_intro_false by (simpl; nra). reflexivity.
  - constructor; [lra | constructor].
  - rewrite candidate_single by lra. reflexivity.
Qed.
End DipoleSmallInputs.

(** C2 as stated fails: the code has no check of the sample count and no
    [InsufficientDataError].  With one sample (N = 1 < 2) and default
    weights the fit returns a result. *)
Lemma fit_dipole_single_sample_counterexample :
  (length [(1, 0, 0)] = length [5] /\ (length [5] < 2)%nat) /\
  exists res yhat,
    Dipole.fit_dipole [(1, 0, 0)] [5] None = Ok (res, yhat).
Proof.
  split; [split; [reflexivity | simpl; lia]|].
  exists (Dipole.mkFit 5 0 0 (np.rad2deg (Dipole.arcsin z0)) NaN), [5].
  apply (fit_dipole_one_sample (1, 0, 0) 5 None). reflexivity.
Qed.

(** C2, amended.  With no sample (N = 0) the fit fails, with the
    [ZeroDivisionError] of the weighted mean.  With one sample (N = 1) the
    fit does not fail.  With the default weights it returns intercept
    a = y_0, amplitude b = 0, the first candidate direction (ra = 0),
    R^2 = not-a-number, and the prediction [y_0]; with one positive weight
    it returns a result as well. *)
Theorem fit_dipole_fewer_than_two (nvecs : list vec3) (n : vec3) (v w0 : R)
    (Hw0 : 0 < w0) :
  Dipole.fit_dipole nvecs [] None = Err ZeroDivisionError /\
  Dipole.fit_dipole nvecs [] (Some []) = Err ZeroDivisionError /\
  Dipole.fit_dipole [n] [v] None =
    Ok (Dipole.mkFit v 0 0 (np.rad2deg (Dipole.arcsin (3999 / 4000))) NaN,
        [v]) /\
  exists res yhat, Dipole.fit_dipole [n] [v] (Some [w0]) = Ok (res, yhat).
Proof.
  rewrite <- z0_value.
  split; [apply fit_dipole_no_sample; now left|].
  split; [apply fit_dipole_no_sample; now right|].
  split.
  - apply (fit_dipole_one_sample n v None). reflexivity.
  - assert (Hs : np.sum (Dipole.default_weights (Some [w0]) (length [v]))
                 <> 0) by (simpl; lra).
    destruct (fit_dipole_value [n] [v] (Some [w0]) eq_refl eq_refl Hs)
      as (ssb & c & _ & Hfit).
    eauto.
Qed.

Lemma fit_dipole_fewer_than_two_witness :
  0 < 2 /\
  Dipole.fit_dipole [(0, 0, 1)] [] None = Err ZeroDivisionError /\
  Dipole.fit_dipole [(0, 0, 1)] [] (Some []) = Err ZeroDivisionError /\
  Dipole.fit_dipole [(1, 0, 0)] [5] None =
    Ok (Dipole.mkFit 5 0 0 (np.rad2deg (Dipole.arcsin (3999 / 4000))) NaN,
        [5]) /\
  exists res yhat,
    Dipole.fit_dipole [(1, 0, 0)] [5] (Some [2]) = Ok (res, yhat).
Proof.
  split; [lra|].
  apply (fit_dipole_fewer_than_two [(0, 0, 1)] (1, 0, 0) 5 2). lra.
Defined.

Section DipoleTwoPoint.

Import Dipole.

(** Three samples of which the third has weight 0: a candidate that
    separates the first two fits them exactly, with the slope of the
    line through them. *)
Lemma candidate_two_point (p q r : vec3) (y1 y2 y3 : R) (d : vec3) :
  dot p d <> dot q d ->
  let m := (y1 + y2) / 2 in
  fst (candidate_of [p; q; r] [y1; y2; y3] [1; 1; 0] m
         [y1 - m; y2 - m; y3 - m] d) = 0 /\
  c_b (snd (candidate_of [p; q; r] [y1; y2; y3] [1; 1; 0] m
              [y1 - m; y2 - m; y3 - m] d))
  = (y1 - y2) / (dot p d - dot q d).
Proof.
  intros Hne m. unfold candidate_of, lstsq.
  cbn [length ones repeat map combine np.zip_with np.sum fold_right fst snd].
  set (P := dot p d) in *. set (Q := dot q d) in *. set (T := dot r d).
  match goal with |- context [Reqb ?e 0] => set (det := e) end.
  assert (Edet : det = (P - Q) * (P - Q)) by (unfold det; ring).
  assert (Hdet : det <> 0).
  { rewrite Edet. intros H. apply Rmult_integral in H. lra. }
  rewrite (Reqb_intro_false det 0 Hdet). cbn [negb fst snd c_b].
  rewrite Edet. unfold m.
  split; field; lra.
Qed.

Lemma fit_dipole_two_point (p q r : vec3) (y1 y2 y3 : R) :
  dot p (fib_dir 0) <> dot q (fib_dir 0) ->
  exists res yhat,
    fit_dipole [p; q; r] [y1; y2; y3] (Some [1; 1; 0]) = Ok (res, yhat) /\
    b res = (y1 - y2) / (dot p (fib_dir 0) - dot q (fib_dir 0)).
Proof.
  intros Hne. unfold fit_dipole. cbn [default_weights].
  rewrite (average_ok [y1; y2; y3] [1; 1; 0]) by (simpl; auto; lra).
  cbn [bind].
  assert (Hm : np.sum (np.zip_with Rmult [y1; y2; y3] [1; 1; 0])
               / np.sum [1; 1; 0] = (y1 + y2) / 2) by (simpl; field).
  rewrite Hm. cbn [map].
  rewrite search_fold by reflexivity. cbn [bind].
  destruct (candidate_two_point p q r y1 y2 y3 (fib_dir 0) Hne)
    as [H0 Hb].
  rewrite first_candidate_kept; [| |exact H0].
  - destruct (candidate_of _ _ _ _ _ _) as [ss c]. cbn [snd] in Hb.
    destruct (c_d c) as [[dx dy] dz].
    eexists _, _. split; [reflexivity|]. exact Hb.
  - repeat constructor; lra.
Qed.

End DipoleTwoPoint.

Section PermutationLoop.

Import Dipole.

Variable G : Generator.

Lemma perm_loop_step (k : nat) (g g' : rng G) (cnt : Z)
    (nvecs nv : list vec3) (y : list R) (w : option (list R)) (obs_b : R)
    (idx : list nat) (res : fit_result) (yhat : list R) :
  permutation G g (length y) = (idx, g') ->
  take nvecs idx = Ok nv ->
  fit_dipole nv y w = Ok (res, yhat) ->
  perm_loop G (S k) g cnt nvecs y w obs_b =
  perm_loop G k g'
    (if Rgeb (Rabs (b res)) (Rabs obs_b) then (cnt + 1)%Z else cnt)
    nvecs y w obs_b.
Proof.
  intros Hp Ht Hf. cbn [perm_loop]. rewrite Hp, Ht. cbn [bind].
  rewrite Hf. reflexivity.
Qed.

Lemma perm_loop_values_step (k : nat) (g g' : rng G) (cnt : Z)
    (nvecs : list vec3) (y yp : list R) (w : option (list R)) (obs_b : R)
    (idx : list nat) (res : fit_result) (yhat : list R) :
  permutation G g (length y) = (idx, g') ->
  take y idx = Ok yp ->
  fit_dipole nvecs yp w = Ok (res, yhat) ->
  DipoleSpec.perm_loop_values_reshuffled G (S k) g cnt nvecs y w obs_b =
  DipoleSpec.perm_loop_values_reshuffled G k g'
    (if Rgeb (Rabs (b res)) (Rabs obs_b) then (cnt + 1)%Z else cnt)
    nvecs y w obs_b.
Proof.
  intros Hp Ht Hf. cbn [DipoleSpec.perm_loop_values_reshuffled].
  rewrite Hp, Ht. cbn [bind]. rewrite Hf. reflexivity.
Qed.

End PermutationLoop.

Section PermutationCounterexample.

Import Dipole.

Lemma dot_north : dot (0, 0, 1) (fib_dir 0) = z0.
Proof. rewrite fib_dir_0. unfold dot. ring. Qed.

Lemma dot_south : dot (0, 0, -1) (fib_dir 0) = - z0.
Proof. rewrite fib_dir_0. unfold dot. ring. Qed.

End PermutationCounterexample.

(** C1 as stated fails: the code reindexes the directions and leaves the
    values and their weights in place.  Take three samples, the first and
    the third in the same direction, with values [1,0,0] and weights
    [1,1,0], one iteration, and a random source whose first permutation of
    three is [2,1,0].  The code refits (nvecs[idx], y, w), which is the
    observed input again, so |b_perm| = |b_obs| and it returns
    p = (1+1)/(1+1) = 1.  Reshuffling the values instead refits
    (nvecs, [0,0,1], w), finds b = 0 < |b_obs| and would return p = 1/2. *)
Lemma permutation_pval_reshuffles_directions_counterexample :
  exists res yhat,
    Dipole.fit_dipole [(0, 0, 1); (0, 0, -1); (0, 0, 1)] [1; 0; 0]
      (Some [1; 1; 0]) = Ok (res, yhat) /\
    Dipole.permutation_pval flip_generator
      [(0, 0, 1); (0, 0, -1); (0, 0, 1)] [1; 0; 0] (Some [1; 1; 0])
      (Dipole.b res) 1 0 = Ok 1 /\
    DipoleSpec.permutation_pval_values_reshuffled flip_generator
      [(0, 0, 1); (0, 0, -1); (0, 0, 1)] [1; 0; 0] (Some [1; 1; 0])
      (Dipole.b res) 1 0 = Ok (1 / 2) /\
    1 <> 1 / 2.
Proof.
  assert (Hz : z0 = 3999 / 4000) by apply z0_value.
  destruct (fit_dipole_two_point (0, 0, 1) (0, 0, -1) (0, 0, 1) 1 0 0)
    as (res & yh & Hfit & Hb).
  { rewrite dot_north, dot_south, Hz. lra. }
  destruct (fit_dipole_two_point (0, 0, 1) (0, 0, -1) (0, 0, 1) 0 0 1)
    as (res2 & yh2 & Hfit2 & Hb2).
  { rewrite dot_north, dot_south, Hz. lra. }
  rewrite dot_north, dot_south in Hb, Hb2.
  assert (Eb : Dipole.b res = 1 / (2 * z0)) by (rewrite Hb; field; lra).
  assert (Eb2 : Dipole.b res2 = 0) by (rewrite Hb2; field; lra).
  assert (Habs : Rabs (1 / (2 * z0)) = 1 / (2 * z0)).
  { apply Rabs_pos_eq. rewrite Hz. lra. }
  exists res, yh. split; [exact Hfit|]. split; [|split; [|lra]].
  - unfold Dipole.permutation_pval.
    change (Z.to_nat 1) with 1%nat.
    rewrite (perm_loop_step flip_generator 0
               (Dipole.default_rng flip_generator 0) 1%nat 0
               [(0, 0, 1); (0, 0, -1); (0, 0, 1)]
               [(0, 0, 1); (0, 0, -1); (0, 0, 1)] [1; 0; 0] (Some [1; 1; 0])
               (Dipole.b res) [2; 1; 0]%nat res yh
               eq_refl eq_refl Hfit).
    cbn [Dipole.perm_loop bind]. unfold Rgeb.
    rewrite Rleb_intro_true by lra.
    change (1 + 1 =? 0)%Z with false. cbv iota.
    replace (IZR (0 + 1 + 1) / IZR (1 + 1)) with 1 by (simpl; lra).
    reflexivity.
  - unfold DipoleSpec.permutation_pval_values_reshuffled.
    change (Z.to_nat 1) with 1%nat.
    rewrite (perm_loop_values_step flip_generator 0
               (Dipole.default_rng flip_generator 0) 1%nat 0
               [(0, 0, 1); (0, 0, -1); (0, 0, 1)] [1; 0; 0] [0; 0; 1]
               (Some [1; 1; 0]) (Dipole.b res) [2; 1; 0]%nat res2 yh2
               eq_refl eq_refl Hfit2).
    cbn [DipoleSpec.perm_loop_values_reshuffled bind]. unfold Rgeb.
    rewrite Eb, Eb2, Habs, Rabs_R0.
    rewrite Rleb_intro_false by (rewrite Hz; lra).
    change (1 + 1 =? 0)%Z with false. cbv iota.
    replace (IZR (0 + 1) / IZR (1 + 1)) with (1 / 2) by (simpl; lra).
    reflexivity.
Qed.

Section PermutationTestCounts.

Import Dipole.

Lemma take_nth {A} (l : list A) (idx : list nat) (d : A) :
  (forall i, In i idx -> (i < length l)%nat) ->
  take l idx = Ok (map (fun i => nth i l d) idx).
Proof.
  induction idx as [|i idx IH]; intros H; simpl; auto.
  rewrite (get_nth l i d) by (apply H; now left). cbn [bind].
  rewrite IH by (intros; apply H; now right). reflexivity.
Qed.

Lemma map_nth_seq {A} (l : list A) (d : A) :
  map (fun i => nth i l d) (seq 0 (length l)) = l.
Proof.
  induction l as [|x l IH]; simpl; auto.
  f_equal. rewrite <- seq_shift, map_map. exact IH.
Qed.

Lemma take_permutation {A} (l : list A) (idx : list nat) :
  Permutation idx (seq 0 (length l)) ->
  exists nv, take l idx = Ok nv /\ Permutation nv l.
Proof.
  intros Hp. destruct l as [|d l].
  - apply Permutation_sym, Permutation_nil in Hp. subst idx.
    exists []. split; [reflexivity | constructor].
  - exists (map (fun i => nth i (d :: l) d) idx). split.
    + apply take_nth. intros i Hi.
      apply (Permutation_in _ Hp) in Hi. apply in_seq in Hi. lia.
    + apply Permutation_trans
        with (map (fun i => nth i (d :: l) d) (seq 0 (length (d :: l)))).
      * now apply Permutation_map.
      * now rewrite map_nth_seq.
Qed.

Variable G : Generator.
Hypothesis Hperm :
  forall g n, Permutation (fst (permutation G g n)) (seq 0 n).

Variable nvecs : list vec3.
Variable y : list R.
Variable w : option (list R).
Variable obs_b : R.
Hypothesis Hn : length nvecs = length y.
Hypothesis Hw : length (default_weights w (length y)) = length y.
Hypothesis Hs : np.sum (default_weights w (length y)) <> 0.

Lemma iteration_fit_exists (g : rng G) :
  exists bp, iteration_fit nvecs y w (fst (permutation G g (length y))) bp.
Proof.
  destruct (take_permutation nvecs (fst (permutation G g (length y))))
    as (nv & Ht & Hp).
  { rewrite Hn. apply Hperm. }
  assert (Hnv : length nv = length y)
    by (rewrite (Permutation_length Hp); exact Hn).
  destruct (fit_dipole_value nv y w Hnv Hw Hs) as (ssb & c & _ & Hfit).
  eexists. exists nv. eexists _, _.
  split; [exact Ht|]. split; [exact Hp|]. split; [exact Hfit|].
  reflexivity.
Qed.

Lemma count_extreme_cons (bp : R) (bs : list R) :
  count_extreme obs_b (bp :: bs) =
  ((if Rgeb (Rabs bp) (Rabs obs_b) then 1 else 0)
   + count_extreme obs_b bs)%Z.
Proof.
  unfold count_extreme. simpl. destruct Rgeb; simpl length; lia.
Qed.

Lemma perm_loop_counts (k : nat) :
  forall (g : rng G) (cnt : Z),
  exists bs,
    Forall2 (iteration_fit nvecs y w) (draws G g (length y) k) bs /\
    perm_loop G k g cnt nvecs y w obs_b
    = Ok (cnt + count_extreme obs_b bs)%Z.
Proof.
  induction k as [|k IH]; intros g cnt.
  - exists []. split; [constructor|]. simpl. f_equal.
    unfold count_extreme. simpl. lia.
  - destruct (iteration_fit_exists g) as (bp & Hit).
    pose proof Hit as (nv & res & yh & Ht & Hp & Hfit & Hb).
    cbn [draws]. destruct (permutation G g (length y)) as [idx g'] eqn:E.
    cbn [fst] in *.
    rewrite (perm_loop_step G k g g' cnt nvecs nv y w obs_b idx res yh
               E Ht Hfit).
    destruct (IH g' (if Rgeb (Rabs (b res)) (Rabs obs_b)
                     then (cnt + 1)%Z else cnt)) as (bs & Hbs & Hloop).
    exists (bp :: bs). split; [now constructor|].
    rewrite Hloop, count_extreme_cons, Hb. f_equal.
    destruct Rgeb; lia.
Qed.

End PermutationTestCounts.

Lemma flip_generator_permutes (g : Dipole.rng flip_generator) (n : nat) :
  Permutation (fst (Dipole.permutation flip_generator g n)) (seq 0 n).
Proof.
  simpl. destruct (Nat.even g); simpl.
  - apply Permutation_sym, Permutation_rev.
  - apply Permutation_refl.
Qed.

(** C1, amended.  With a random source whose [permutation(n)] returns a
    permutation of [0 .. n-1], a fit input on which the weighted mean is
    defined, and [nperm >= 0]: each of the [nperm] iterations draws the next
    permutation from the source seeded with [seed], reindexes the
    DIRECTIONS by it (the values and their weights stay in place), and
    reruns the full fit; the returned p-value is (count + 1) / (nperm + 1),
    where count is the number of iterations whose fitted |b| is at least
    |obs_b|. *)
Theorem permutation_pval_counts (G : Dipole.Generator)
    (nvecs : list vec3) (y : list R) (w : option (list R)) (obs_b : R)
    (nperm seed : Z)
    (Hperm : forall g n,
       Permutation (fst (Dipole.permutation G g n)) (seq 0 n))
    (Hn : length nvecs = length y)
    (Hw : length (Dipole.default_weights w (length y)) = length y)
    (Hs : np.sum (Dipole.default_weights w (length y)) <> 0)
    (Hnperm : (0 <= nperm)%Z) :
  exists bs,
    Forall2 (iteration_fit nvecs y w)
      (draws G (Dipole.default_rng G seed) (length y) (Z.to_nat nperm)) bs /\
    Z.of_nat (length bs) = nperm /\
    Dipole.permutation_pval G nvecs y w obs_b nperm seed =
      Ok (IZR (count_extreme obs_b bs + 1) / IZR (nperm + 1)).
Proof.
  destruct (perm_loop_counts G Hperm nvecs y w obs_b Hn Hw Hs
              (Z.to_nat nperm) (Dipole.default_rng G seed) 0%Z)
    as (bs & Hbs & Hloop).
  exists bs. split; [exact Hbs|]. split.
  - apply Forall2_length in Hbs. rewrite <- Hbs.
    assert (Hd : forall k g, length (draws G g (length y) k) = k).
    { induction k as [|k IH]; intros g; simpl; auto.
      destruct Dipole.permutation. simpl. now rewrite IH. }
    rewrite Hd. lia.
  - unfold Dipole.permutation_pval. rewrite Hloop. cbn [bind].
    replace (nperm + 1 =? 0)%Z with false
      by (symmetry; apply Z.eqb_neq; lia).
    reflexivity.
Qed.

Lemma permutation_pval_counts_witness :
  (forall g n,
     Permutation (fst (Dipole.permutation flip_generator g n)) (seq 0 n)) /\
  length [(1, 0, 0); (0, 1, 0)] = length [1; 2] /\
  length (Dipole.default_weights None (length [1; 2])) = length [1; 2] /\
  np.sum (Dipole.default_weights None (length [1; 2])) <> 0 /\
  (0 <= 2)%Z /\
  exists bs,
    Forall2 (iteration_fit [(1, 0, 0); (0, 1, 0)] [1; 2] None)
      [[1; 0]; [0; 1]]%nat bs /\
    Z.of_nat (length bs) = 2%Z /\
    Dipole.permutation_pval flip_generator [(1, 0, 0); (0, 1, 0)] [1; 2] None
      0 2 0 = Ok (IZR (count_extreme 0 bs + 1) / IZR (2 + 1)).
Proof.
  assert (Hs : np.sum (Dipole.default_weights None (length [1; 2])) <> 0)
    by (simpl; lra).
  split; [exact flip_generator_permutes|].
  split; [reflexivity|]. split; [reflexivity|]. split; [exact Hs|].
  split; [lia|].
  apply (permutation_pval_counts flip_generator [(1, 0, 0); (0, 1, 0)]
           [1; 2] None 0 2 0 flip_generator_permutes eq_refl eq_refl Hs).
  lia.
Defined.

Section Reproducibility.

Variable G : Dipole.Generator.

(** The loop reads and writes the generator at its own address and no
    other: it computes what the loop on that generator's state computes. *)
Lemma process_perm_loop (k : nat) :
  forall (r : nat) (cnt : Z) nvecs y w obs_b (s : Process.sources G),
    fst (Process.perm_loop G k r cnt nvecs y w obs_b s) =
      Dipole.perm_loop G k (Process.gen G s r) cnt nvecs y w obs_b /\
    forall a, a <> r ->
      Process.gen G (snd (Process.perm_loop G k r cnt nvecs y w obs_b s)) a
      = Process.gen G s a.
Proof.
  induction k as [|k IH]; intros r cnt nvecs y w obs_b s.
  - split; reflexivity.
  - cbn [Process.perm_loop Dipole.perm_loop]. unfold Process.permutation.
    destruct (Dipole.permutation G (Process.gen G s r) (length y))
      as [idx g'].
    set (s' := Process.mkSources G (Process.next G s)
                 (fun a => if (a =? r)%nat then g' else Process.gen G s a)).
    assert (Hr : Process.gen G s' r = g')
      by (cbn [s' Process.gen]; now rewrite Nat.eqb_refl).
    assert (Hother : forall a, a <> r ->
              Process.gen G s' a = Process.gen G s a).
    { intros a Ha. cbn [s' Process.gen].
      now replace (a =? r)%nat with false
        by (symmetry; now apply Nat.eqb_neq). }
    destruct (take nvecs idx) as [nv|e]; cbn [bind];
      [|split; [reflexivity | exact Hother]].
    destruct (Dipole.fit_dipole nv y w) as [fit|e];
      [|split; [reflexivity | exact Hother]].
    destruct (IH r (if Rgeb (Rabs (Dipole.b (fst fit))) (Rabs obs_b)
                    then (cnt + 1)%Z else cnt) nvecs y w obs_b s')
      as [Hres Hframe].
    rewrite Hr in Hres. split; [exact Hres|].
    intros a Ha. rewrite Hframe by exact Ha. now apply Hother.
Qed.

(** A call creates its generator at a new address, seeds it, and uses it
    alone: the outcome is that of the test on the seeded generator, and
    the generators that existed before the call are as they were. *)
Lemma process_permutation_pval (nvecs : list vec3) (y : list R)
    (w : option (list R)) (obs_b : R) (nperm seed : Z)
    (s : Process.sources G) :
  fst (Process.permutation_pval G nvecs y w obs_b nperm seed s) =
    (if (seed <? 0)%Z then Err ValueError
     else Dipole.permutation_pval G nvecs y w obs_b nperm seed) /\
  forall a, (a < Process.next G s)%nat ->
    Process.gen G
      (snd (Process.permutation_pval G nvecs y w obs_b nperm seed s)) a
    = Process.gen G s a.
Proof.
  unfold Process.permutation_pval, Process.default_rng,
    Dipole.permutation_pval.
  destruct (seed <? 0)%Z; [split; reflexivity|].
  set (s0 := Process.mkSources G (S (Process.next G s)) _).
  destruct (process_perm_loop (Z.to_nat nperm) (Process.next G s) 0
              nvecs y w obs_b s0) as [Hres Hframe].
  assert (Hnew : Process.gen G s0 (Process.next G s)
                 = Dipole.default_rng G seed)
    by (cbn [s0 Process.gen]; now rewrite Nat.eqb_refl).
  rewrite Hnew in Hres.
  assert (Hold : forall a, (a < Process.next G s)%nat ->
            Process.gen G
              (snd (Process.perm_loop G (Z.to_nat nperm) (Process.next G s)
                      0 nvecs y w obs_b s0)) a
            = Process.gen G s a).
  { intros a Ha. rewrite Hframe by lia. cbn [s0 Process.gen].
    now replace (a =? Process.next G s)%nat with false
      by (symmetry; apply Nat.eqb_neq; lia). }
  destruct (Process.perm_loop G (Z.to_nat nperm) (Process.next G s) 0
              nvecs y w obs_b s0) as [[cnt|e] s1];
    cbn [fst snd] in *; rewrite <- Hres; cbn [bind].
  - destruct (nperm + 1 =? 0)%Z; split; auto.
  - split; auto.
Qed.

Lemma process_fit_with_significance (nvecs : list vec3) (y w : list R)
    (nperm seed : Z) (s1 s2 : Process.sources G) :
  fst (Process.fit_with_significance G nvecs y w nperm seed s1) =
  fst (Process.fit_with_significance G nvecs y w nperm seed s2).
Proof.
  unfold Process.fit_with_significance.
  destruct (Dipole.fit_dipole nvecs y (Some w)) as [fit|e];
    [|reflexivity].
  cbv zeta.
  pose proof (process_permutation_pval nvecs y (Some w)
                (Dipole.b (fst fit)) nperm seed s1) as [H1 _].
  pose proof (process_permutation_pval nvecs y (Some w)
                (Dipole.b (fst fit)) nperm seed s2) as [H2 _].
  destruct (Process.permutation_pval G nvecs y (Some w)
              (Dipole.b (fst fit)) nperm seed s1) as [[p1|e1] t1];
  destruct (Process.permutation_pval G nvecs y (Some w)
              (Dipole.b (fst fit)) nperm seed s2) as [[p2|e2] t2];
  cbn [fst] in *; congruence.
Qed.

End Reproducibility.

(** C8.  A call of the permutation test creates its own generator from
    the seed and draws from no other.  So, for every input and every seed:
    two calls with the same arguments have the same outcome, p-value or
    exception, in whatever state the generators of the process are (and so
    has the fit followed by its significance); a second call made after the
    first repeats its outcome; and a call leaves every generator that
    existed before it, NumPy's global one included, as it was.  A negative
    seed is refused with [ValueError] before anything is drawn.  With a
    seed >= 0, [nperm >= 0], a source whose [permutation(n)] returns
    permutations and a fit input on which the weighted mean is defined,
    the common outcome is a p-value: (count + 1) / (nperm + 1), where count
    is the number of iterations with a fitted |b| of at least |obs_b| and
    the iterations fit the first [nperm] draws of a generator newly seeded
    with the seed. *)
Theorem permutation_pval_reproducible (G : Dipole.Generator)
    (nvecs : list vec3) (y : list R) (w : option (list R)) (wts : list R)
    (obs_b : R) (nperm seed : Z) :
  (forall s1 s2 : Process.sources G,
     fst (Process.permutation_pval G nvecs y w obs_b nperm seed s1) =
     fst (Process.permutation_pval G nvecs y w obs_b nperm seed s2) /\
     fst (Process.fit_with_significance G nvecs y wts nperm seed s1) =
     fst (Process.fit_with_significance G nvecs y wts nperm seed s2)) /\
  (forall s : Process.sources G,
     let s' := snd (Process.permutation_pval G nvecs y w obs_b nperm seed s)
     in
     fst (Process.permutation_pval G nvecs y w obs_b nperm seed s') =
     fst (Process.permutation_pval G nvecs y w obs_b nperm seed s) /\
     forall a, (a < Process.next G s)%nat ->
       Process.gen G s' a = Process.gen G s a) /\
  ((seed < 0)%Z ->
   forall s : Process.sources G,
     fst (Process.permutation_pval G nvecs y w obs_b nperm seed s)
     = Err ValueError) /\
  ((forall g n, Permutation (fst (Dipole.permutation G g n)) (seq 0 n)) ->
   length nvecs = length y ->
   length (Dipole.default_weights w (length y)) = length y ->
   np.sum (Dipole.default_weights w (length y)) <> 0 ->
   (0 <= nperm)%Z -> (0 <= seed)%Z ->
   exists bs,
     Forall2 (iteration_fit nvecs y w)
       (draws G (Dipole.default_rng G seed) (length y) (Z.to_nat nperm))
       bs /\
     forall s : Process.sources G,
       fst (Process.permutation_pval G nvecs y w obs_b nperm seed s)
       = Ok (IZR (count_extreme obs_b bs + 1) / IZR (nperm + 1))).
Proof.
  split; [|split; [|split]].
  - intros s1 s2. split; [|apply process_fit_with_significance].
    destruct (process_permutation_pval G nvecs y w obs_b nperm seed s1)
      as [-> _].
    destruct (process_permutation_pval G nvecs y w obs_b nperm seed s2)
      as [-> _].
    reflexivity.
  - intros s s'. split.
    + destruct (process_permutation_pval G nvecs y w obs_b nperm seed s')
        as [-> _].
      destruct (process_permutation_pval G nvecs y w obs_b nperm seed s)
        as [-> _].
      reflexivity.
    + apply process_permutation_pval.
  - intros Hseed s.
    destruct (process_permutation_pval G nvecs y w obs_b nperm seed s)
      as [-> _].
    now replace (seed <? 0)%Z with true
      by (symmetry; now apply Z.ltb_lt).
  - intros Hperm Hn Hw Hs Hnperm Hseed.
    destruct (perm_loop_counts G Hperm nvecs y w obs_b Hn Hw Hs
                (Z.to_nat nperm) (Dipole.default_rng G seed) 0%Z)
      as (bs & Hbs & Hloop).
    exists bs. split; [exact Hbs|].
    intros s.
    destruct (process_permutation_pval G nvecs y w obs_b nperm seed s)
      as [-> _].
    replace (seed <? 0)%Z with false
      by (symmetry; apply Z.ltb_ge; lia).
    unfold Dipole.permutation_pval. rewrite Hloop. cbn [bind].
    now replace (nperm + 1 =? 0)%Z with false
      by (symmetry; apply Z.eqb_neq; lia).
Qed.

Lemma permutation_pval_reproducible_witness :
  (forall g n,
     Permutation (fst (Dipole.permutation flip_generator g n)) (seq 0 n)) /\
  length [(1, 0, 0); (0, 1, 0)] = length [1; 2] /\
  length (Dipole.default_weights None (length [1; 2])) = length [1; 2] /\
  np.sum (Dipole.default_weights None (length [1; 2])) <> 0 /\
  (0 <= 2)%Z /\ (0 <= 3)%Z /\
  exists bs,
    Forall2 (iteration_fit [(1, 0, 0); (0, 1, 0)] [1; 2] None)
      [[0; 1]; [1; 0]]%nat bs /\
    forall s : Process.sources flip_generator,
      fst (Process.permutation_pval flip_generator [(1, 0, 0); (0, 1, 0)]
             [1; 2] None 0 2 3 s)
      = Ok (IZR (count_extreme 0 bs + 1) / IZR (2 + 1)).
Proof.
  assert (Hs : np.sum (Dipole.default_weights None (length [1; 2])) <> 0)
    by (simpl; lra).
  assert (H2 : (0 <= 2)%Z) by lia.
  assert (H3 : (0 <= 3)%Z) by lia.
  split; [exact flip_generator_permutes|].
  split; [reflexivity|]. split; [reflexivity|]. split; [exact Hs|].
  split; [exact H2|]. split; [exact H3|].
  exact (proj2 (proj2 (proj2
           (permutation_pval_reproducible flip_generator
              [(1, 0, 0); (0, 1, 0)] [1; 2] None [1; 1] 0 2 3)))
           flip_generator_permutes eq_refl eq_refl Hs H2 H3).
Defined.

(** * Further properties *)

(** ** Mirror reflection and projection *)

Lemma fmod_360_range (x : R) : 0 <= np.fmod x 360 < 360.
Proof.
  unfold np.fmod. pose proof (Zfloor_bound (x / 360)) as [Hl Hu].
  assert (Hx : x = 360 * (x / 360)) by (field; lra).
  split; nra.
Qed.

Lemma clip_range (x lo hi : R) : lo <= hi -> lo <= np.clip x lo hi <= hi.
Proof.
  intros H. unfold np.clip, Rmin, Rmax. repeat destruct Rle_dec; lra.
Qed.

(** X1.  Whatever the point and the axis, the reflected point lies within
    the coordinate ranges: right ascension in [0, 360] and declination in
    [-90, 90], both ends included. *)
Theorem reflect_cpt_in_range (ra dec ra0 dec0 : R) :
  0 <= fst (reflect_cpt ra dec ra0 dec0) <= 360 /\
  -90 <= snd (reflect_cpt ra dec ra0 dec0) <= 90.
Proof.
  unfold reflect_cpt. cbn [fst snd]. split.
  - pose proof (fmod_360_range (2 * ra0 - ra)). lra.
  - apply clip_range. lra.
Qed.

(** X2.  An axis that is itself a valid sky position is a fixed point of
    the reflection through it. *)
Theorem reflect_cpt_fixes_axis (ra0 dec0 : R)
    (Hra : 0 <= ra0 < 360) (Hdec : -90 <= dec0 <= 90) :
  reflect_cpt ra0 dec0 ra0 dec0 = (ra0, dec0).
Proof.
  unfold reflect_cpt.
  replace (2 * ra0 - ra0) with ra0 by ring.
  replace (2 * dec0 - dec0) with dec0 by ring.
  now rewrite fmod_360_id, clip_id.
Qed.

Lemma reflect_cpt_fixes_axis_witness :
  0 <= 170 < 360 /\ -90 <= 40 <= 90 /\
  reflect_cpt 170 40 170 40 = (170, 40).
Proof.
  split; [lra|]. split; [lra|].
  apply (reflect_cpt_fixes_axis 170 40); lra.
Defined.

Lemma fmod_360_idem (x : R) : np.fmod (np.fmod x 360) 360 = np.fmod x 360.
Proof. apply fmod_360_id, fmod_360_range. Qed.

Lemma reflect_ra_twice_mod (ra ra0 : R) :
  np.fmod (2 * ra0 - np.fmod (2 * ra0 - ra) 360) 360 = np.fmod ra 360.
Proof.
  unfold np.fmod at 2.
  set (k := Zfloor ((2 * ra0 - ra) / 360)).
  replace (2 * ra0 - (2 * ra0 - ra - 360 * IZR k))
    with (ra + 360 * IZR k) by ring.
  apply fmod_360_shift.
Qed.

Lemma clip_reflect_thrice (a y : R) :
  -90 <= y <= 90 ->
  np.clip (2 * a - np.clip (2 * a - np.clip (2 * a - y) (-90) 90) (-90) 90)
          (-90) 90
  = np.clip (2 * a - y) (-90) 90.
Proof.
  intros Hy. unfold np.clip, Rmin, Rmax. repeat destruct Rle_dec; lra.
Qed.

(** X3.  For every point and axis, also where the clamp engages: the double
    reflection brings the right ascension back modulo 360, and doing the
    double reflection a second time changes nothing more (from the second
    reflection on, the reflection is an involution). *)
Theorem reflect_twice_idempotent (ra dec ra0 dec0 : R) :
  fst (reflect_twice ra dec ra0 dec0) = np.fmod ra 360 /\
  reflect_twice (fst (reflect_twice ra dec ra0 dec0))
                (snd (reflect_twice ra dec ra0 dec0)) ra0 dec0
  = reflect_twice ra dec ra0 dec0.
Proof.
  unfold reflect_twice, reflect_cpt. cbn [fst snd].
  split; [apply reflect_ra_twice_mod|].
  f_equal.
  - rewrite !reflect_ra_twice_mod. apply fmod_360_idem.
  - apply clip_reflect_thrice. apply clip_range. lra.
Qed.

(** X4.  A reflected point always falls inside the frame of the Mollweide
    plot: longitude in [-pi, pi] and latitude in [-pi/2, pi/2], both ends
    included. *)
Theorem mirrored_point_in_mollweide_domain (ra dec ra0 dec0 : R) :
  let p := reflect_cpt ra dec ra0 dec0 in
  - PI <= fst (radec_to_mollweide (fst p) (snd p)) <= PI /\
  - (PI / 2) <= snd (radec_to_mollweide (fst p) (snd p)) <= PI / 2.
Proof.
  intros p. unfold p, reflect_cpt, radec_to_mollweide, np.deg2rad.
  cbn [fst snd].
  pose proof (fmod_360_range (2 * ra0 - ra)) as [Hr1 Hr2].
  pose proof (clip_range (2 * dec0 - dec) (-90) 90 ltac:(lra)) as [Hd1 Hd2].
  pose proof PI_RGT_0 as Hpi.
  repeat split; nra.
Qed.

Section GalacticLatitude.

Lemma asin_range_deg (x : R) : -90 <= np.rad2deg (asin x) <= 90.
Proof.
  pose proof (asin_bound x) as [Hl Hu]. pose proof PI_RGT_0 as Hpi.
  unfold np.rad2deg.
  assert (E : asin x * (180 / PI) = asin x / PI * 180) by (field; lra).
  rewrite E.
  assert (H1 : -1 / 2 <= asin x / PI).
  { apply Rmult_le_reg_r with PI; [lra|].
    unfold Rdiv at 2. rewrite Rmult_assoc, Rinv_l by lra. lra. }
  assert (H2 : asin x / PI <= 1 / 2).
  { apply Rmult_le_reg_r with PI; [lra|].
    unfold Rdiv at 1. rewrite Rmult_assoc, Rinv_l by lra. lra. }
  lra.
Qed.

Lemma deg2rad_plus_180 (x : R) : np.deg2rad (x + 180) = np.deg2rad x + PI.
Proof. unfold np.deg2rad. field. Qed.

End GalacticLatitude.

(** X5.  The approximate Galactic latitude is always within [-90, 90]
    degrees; it is +90 at the pole the function is built around
    (RA 192.85948, Dec 27.12825) and -90 at the opposite point. *)
Theorem galactic_latitude_range_and_poles :
  (forall ra dec, -90 <= galactic_lat_from_equatorial ra dec <= 90) /\
  galactic_lat_from_equatorial 192.85948 27.12825 = 90 /\
  galactic_lat_from_equatorial (192.85948 + 180) (- 27.12825) = -90.
Proof.
  pose proof PI_RGT_0 as Hpi.
  split; [|split].
  - intros ra dec. unfold galactic_lat_from_equatorial. apply asin_range_deg.
  - unfold galactic_lat_from_equatorial.
    set (d := np.deg2rad 27.12825).
    replace (np.deg2rad 192.85948 - np.deg2rad 192.85948) with 0 by ring.
    rewrite cos_0, Rmult_1_r.
    replace (sin d * sin d + cos d * cos d) with ((sin d)² + (cos d)²)
      by (unfold Rsqr; ring).
    rewrite sin2_cos2, clip_id by lra. rewrite asin_1.
    unfold np.rad2deg. field. lra.
  - unfold galactic_lat_from_equatorial.
    rewrite deg2rad_plus_180.
    replace (np.deg2rad (- 27.12825)) with (- np.deg2rad 27.12825)
      by (unfold np.deg2rad; lra).
    set (d := np.deg2rad 27.12825).
    replace (np.deg2rad 192.85948 + PI - np.deg2rad 192.85948)
      with PI by ring.
    rewrite sin_neg, cos_neg, cos_PI.
    replace (- sin d * sin d + cos d * cos d * -1)
      with (- ((sin d)² + (cos d)²)) by (unfold Rsqr; ring).
    rewrite sin2_cos2.
    rewrite clip_id by lra. rewrite asin_opp, asin_1.
    unfold np.rad2deg. field. lra.
Qed.

(** ** Axis significance map: separations and the grid *)

Section AngularSeparation.

Import AxisMap.

Lemma acos_range_deg (x : R) : 0 <= np.rad2deg (acos x) <= 180.
Proof.
  pose proof (acos_bound x) as [Hl Hu]. pose proof PI_RGT_0 as Hpi.
  unfold np.rad2deg.
  assert (E : acos x * (180 / PI) = acos x / PI * 180) by (field; lra).
  rewrite E.
  assert (H1 : 0 <= acos x / PI).
  { apply Rmult_le_reg_r with PI; [lra|].
    unfold Rdiv at 1. rewrite Rmult_assoc, Rinv_l by lra. lra. }
  assert (H2 : acos x / PI <= 1).
  { apply Rmult_le_reg_r with PI; [lra|].
    unfold Rdiv at 1. rewrite Rmult_assoc, Rinv_l by lra. lra. }
  lra.
Qed.

Lemma cos_minus_2PI (x y : R) : cos (x - (y + 2 * PI)) = cos (x - y).
Proof.
  replace (x - (y + 2 * PI)) with (x - y - 2 * PI) by ring.
  rewrite (cos_minus (x - y) (2 * PI)), cos_2PI, sin_2PI. ring.
Qed.

Lemma deg2rad_360 : np.deg2rad 360 = np.deg2rad 0 + 2 * PI.
Proof. unfold np.deg2rad. field. Qed.

Lemma ang_sep_meridian (ra1 dec1 dec2 : R) :
  ang_sep ra1 dec1 (np.deg2rad 360) dec2 =
  ang_sep ra1 dec1 (np.deg2rad 0) dec2.
Proof. unfold ang_sep. now rewrite deg2rad_360, cos_minus_2PI. Qed.

Lemma ang_sep_at_pole (ra1 dec1 ra2 ra2' dec2 : R) :
  cos dec2 = 0 -> ang_sep ra1 dec1 ra2 dec2 = ang_sep ra1 dec1 ra2' dec2.
Proof.
  intros Hc. unfold ang_sep. rewrite Hc. do 3 f_equal. ring.
Qed.

End AngularSeparation.

(** X6.  The great-circle separation is symmetric in its two points and
    lies between 0 and 180 degrees, whatever the four angles are. *)
Theorem ang_sep_symmetric_bounded (ra1 dec1 ra2 dec2 : R) :
  AxisMap.ang_sep ra1 dec1 ra2 dec2 = AxisMap.ang_sep ra2 dec2 ra1 dec1 /\
  0 <= AxisMap.ang_sep ra1 dec1 ra2 dec2 <= 180.
Proof.
  split.
  - unfold AxisMap.ang_sep. do 3 f_equal.
    rewrite (cos_sym (ra1 - ra2)).
    replace (- (ra1 - ra2)) with (ra2 - ra1) by ring. ring.
  - apply acos_range_deg.
Qed.

Section GridShape.

Import AxisMap.

Lemma linspace_length (a b : R) (n : nat) : length (linspace a b n) = n.
Proof.
  unfold linspace. destruct n as [|[|n]]; auto.
  now rewrite length_map, length_seq.
Qed.

Lemma linspace_first (a b : R) (n : nat) :
  (1 <= n)%nat -> exists x, nth_error (linspace a b n) 0 = Some x /\ x = a.
Proof.
  intros Hn. unfold linspace. destruct n as [|[|n]]; [lia| |].
  - eexists. split; reflexivity.
  - cbn [seq map nth_error]. eexists. split; [reflexivity|].
    simpl INR at 1. ring.
Qed.

Lemma linspace_last (a b : R) (n : nat) :
  (2 <= n)%nat ->
  exists x, nth_error (linspace a b n) (n - 1) = Some x /\ x = b.
Proof.
  intros Hn. unfold linspace. destruct n as [|[|n]]; try lia.
  set (m := S (S n)).
  rewrite nth_error_map.
  rewrite (nth_error_nth' (seq 0 m) 0%nat)
    by (rewrite length_seq; unfold m; lia).
  rewrite seq_nth by (unfold m; lia). cbn [option_map Nat.add].
  eexists. split; [reflexivity|].
  assert (Hm : INR (m - 1) <> 0).
  { apply not_0_INR. unfold m. lia. }
  field. exact Hm.
Qed.

Lemma density_shape (P : params) (rows : list (R * R)) :
  length (density P rows) = GRID_DEC P /\
  forall row, In row (density P rows) -> length row = GRID_RA P.
Proof.
  unfold density. split.
  - rewrite length_map. apply linspace_length.
  - intros row Hrow. apply in_map_iff in Hrow. destruct Hrow as (d & <- & _).
    rewrite length_map. apply linspace_length.
Qed.

Lemma count_true_le (l : list bool) : (count_true l <= length l)%nat.
Proof. unfold count_true. apply filter_length_le. Qed.

Lemma density_at_bounds (P : params) (rows : list (R * R)) (r d : R) :
  0 <= density_at P rows r d <= INR (length rows).
Proof.
  unfold density_at. split; [apply pos_INR|].
  apply le_INR.
  eapply Nat.le_trans; [apply count_true_le|].
  unfold thetas. now rewrite !length_map.
Qed.

End GridShape.

Section AxisMapOutput.

Import AxisMap.

Lemma axis_map_Z (P : params) (rows : list (R * R)) (out : output) :
  axis_map P rows = Ok out ->
  F_SKY P <> 0 /\
  exists f, Z_map out = map (map f) (density P rows).
Proof.
  unfold axis_map. destruct (Reqb (A_tot_deg2 P) 0) eqn:E; [discriminate|].
  intros [= <-]. split.
  - intros HF. apply Reqb_false in E. apply E.
    unfold A_tot_deg2. rewrite HF. ring.
  - eexists. reflexivity.
Qed.

Lemma axis_map_zero_sky (P : params) (rows : list (R * R)) :
  F_SKY P = 0 -> axis_map P rows = Err ZeroDivisionError.
Proof.
  intros HF. unfold axis_map.
  rewrite Reqb_intro_true; [reflexivity|].
  unfold A_tot_deg2. rewrite HF. ring.
Qed.

Lemma density_at_meridian (P : params) (rows : list (R * R)) (d : R) :
  density_at P rows 360 d = density_at P rows 0 d.
Proof.
  unfold density_at, thetas. do 2 f_equal. rewrite !map_map.
  apply map_ext. intros c. now rewrite ang_sep_meridian.
Qed.

Lemma density_at_pole (P : params) (rows : list (R * R)) (r r' d : R) :
  cos (np.deg2rad d) = 0 ->
  density_at P rows r d = density_at P rows r' d.
Proof.
  intros Hc. unfold density_at, thetas. do 2 f_equal. rewrite !map_map.
  apply map_ext. intros c.
  now rewrite (ang_sep_at_pole _ _ (np.deg2rad r) (np.deg2rad r')).
Qed.

Lemma density_first_last_column (P : params) (rows : list (R * R)) (i : nat) :
  (2 <= GRID_RA P)%nat ->
  cell (density P rows) i 0 = cell (density P rows) i (GRID_RA P - 1).
Proof.
  intros Hn.
  destruct (linspace_first 0 360 (GRID_RA P)) as (r0 & Hr0 & ->); [lia|].
  destruct (linspace_last 0 360 (GRID_RA P) Hn) as (rl & Hrl & ->).
  destruct (nth_error (decs P) i) as [d|] eqn:Hd.
  - rewrite (cell_density P rows i 0 d 0 Hd Hr0).
    rewrite (cell_density P rows i (GRID_RA P - 1) d 360 Hd Hrl).
    now rewrite density_at_meridian.
  - unfold cell, density. now rewrite nth_error_map, Hd.
Qed.

Lemma density_pole_rows (P : params) (rows : list (R * R)) (j j' : nat) :
  (2 <= GRID_DEC P)%nat -> (j < GRID_RA P)%nat -> (j' < GRID_RA P)%nat ->
  cell (density P rows) 0 j = cell (density P rows) 0 j' /\
  cell (density P rows) (GRID_DEC P - 1) j =
  cell (density P rows) (GRID_DEC P - 1) j'.
Proof.
  intros Hn Hj Hj'.
  destruct (linspace_first (-90) 90 (GRID_DEC P)) as (d0 & Hd0 & ->); [lia|].
  destruct (linspace_last (-90) 90 (GRID_DEC P) Hn) as (dl & Hdl & ->).
  assert (Hr : forall k, (k < GRID_RA P)%nat ->
                 exists r, nth_error (ras P) k = Some r).
  { intros k Hk. destruct (nth_error (ras P) k) as [r|] eqn:E; eauto.
    apply nth_error_None in E. unfold ras in E.
    rewrite linspace_length in E. lia. }
  destruct (Hr j Hj) as [r Hrj]. destruct (Hr j' Hj') as [r' Hrj'].
  split.
  - rewrite (cell_density P rows 0 j (-90) r Hd0 Hrj).
    rewrite (cell_density P rows 0 j' (-90) r' Hd0 Hrj').
    f_equal. apply density_at_pole.
    rewrite deg2rad_m90, cos_neg. apply cos_PI2.
  - rewrite (cell_density P rows _ j 90 r Hdl Hrj).
    rewrite (cell_density P rows _ j' 90 r' Hdl Hrj').
    f_equal. apply density_at_pole.
    rewrite deg2rad_90. apply cos_PI2.
Qed.

End AxisMapOutput.

(** X7.  The script divides by the usable sky area first: it raises
    [ZeroDivisionError] exactly when the sky fraction is 0.  Otherwise,
    whatever the table of centroids (also the empty one), the Z map has
    GRID_DEC rows of GRID_RA entries each. *)
Theorem axis_map_shape (P : AxisMap.params) (rows : list (R * R)) :
  match AxisMap.axis_map P rows with
  | Ok out =>
      AxisMap.F_SKY P <> 0 /\
      length (AxisMap.Z_map out) = AxisMap.GRID_DEC P /\
      forall row, In row (AxisMap.Z_map out) ->
                  length row = AxisMap.GRID_RA P
  | Err e => e = ZeroDivisionError /\ AxisMap.F_SKY P = 0
  end.
Proof.
  destruct (Req_dec_T (AxisMap.F_SKY P) 0) as [HF|HF].
  - rewrite axis_map_zero_sky by assumption. now split.
  - rewrite (axis_map_ok P rows HF). cbn [AxisMap.Z_map].
    destruct (density_shape P rows) as [Hlen Hrows].
    split; [exact HF|]. split.
    + now rewrite length_map.
    + intros row Hrow. apply in_map_iff in Hrow.
      destruct Hrow as (drow & <- & Hd). rewrite length_map. auto.
Qed.

(** X8.  For a non-empty table (sky fraction non-zero, search radius
    strictly between 0 and 360 degrees) every entry of the Z map is a finite
    number, never not-a-number or infinite, and lies between -sqrt(mu) (no
    centroid in reach) and (N - mu)/sqrt(mu) (all N in reach). *)
Theorem axis_map_z_bounds (P : AxisMap.params) (rows : list (R * R))
    (HF : AxisMap.F_SKY P <> 0) (Ht : 0 < AxisMap.THETA_MAX P < 360)
    (Hne : rows <> []) :
  exists out,
    AxisMap.axis_map P rows = Ok out /\
    forall i j z, cell (AxisMap.Z_map out) i j = Some z ->
      exists v, z = Num v /\
        - sqrt (AxisMap.mu_in out) <= v
        <= (INR (length rows) - AxisMap.mu_in out)
           / sqrt (AxisMap.mu_in out).
Proof.
  eexists. split; [now apply axis_map_value|].
  cbn [AxisMap.mu_in AxisMap.Z_map].
  set (mu := INR (length rows)
             * (AxisMap.A_in_deg2 P / AxisMap.A_tot_deg2 P)).
  assert (Hmu : 0 < mu) by now apply mu_pos.
  pose proof (sqrt_lt_R0 mu Hmu) as Hs.
  intros i j z Hz. rewrite cell_map in Hz.
  destruct (cell (AxisMap.density P rows) i j) as [n|] eqn:Hn;
    [|discriminate].
  destruct (cell_density_inv P rows i j n Hn) as (d & r & Hd & Hr & ->).
  cbn [option_map] in Hz. injection Hz as <-. cbv beta.
  rewrite fdivR_nonzero by lra.
  eexists. split; [reflexivity|].
  destruct (density_at_bounds P rows r d) as [Hlo Hhi].
  rewrite <- zscore_zero_density by assumption.
  split; apply Rmult_le_compat_r; try lra;
    apply Rlt_le, Rinv_0_lt_compat, Hs.
Qed.

Lemma axis_map_z_bounds_witness :
  AxisMap.F_SKY AxisMap.script_params <> 0 /\
  0 < AxisMap.THETA_MAX AxisMap.script_params < 360 /\
  hundred_at_pole <> [] /\
  exists out,
    AxisMap.axis_map AxisMap.script_params hundred_at_pole = Ok out /\
    forall i j z, cell (AxisMap.Z_map out) i j = Some z ->
      exists v, z = Num v /\
        - sqrt (AxisMap.mu_in out) <= v
        <= (INR (length hundred_at_pole) - AxisMap.mu_in out)
           / sqrt (AxisMap.mu_in out).
Proof.
  assert (HF : AxisMap.F_SKY AxisMap.script_params <> 0) by (simpl; lra).
  assert (Ht : 0 < AxisMap.THETA_MAX AxisMap.script_params < 360)
    by (simpl; lra).
  assert (Hne : hundred_at_pole <> []) by discriminate.
  split; [exact HF|]. split; [exact Ht|]. split; [exact Hne|].
  apply (axis_map_z_bounds AxisMap.script_params hundred_at_pole HF Ht Hne).
Defined.

(** X9.  The RA grid runs from 0 to 360 degrees inclusive, so its first and
    last nodes are the same direction: in every row of the Z map the first
    and the last entry are equal (with at least two RA steps). *)
Theorem axis_map_duplicate_meridian (P : AxisMap.params)
    (rows : list (R * R)) (out : AxisMap.output)
    (Hgrid : (2 <= AxisMap.GRID_RA P)%nat)
    (Hout : AxisMap.axis_map P rows = Ok out) :
  forall i,
    cell (AxisMap.Z_map out) i 0 =
    cell (AxisMap.Z_map out) i (AxisMap.GRID_RA P - 1).
Proof.
  intros i. destruct (axis_map_Z P rows out Hout) as (_ & f & ->).
  rewrite !cell_map. now rewrite density_first_last_column.
Qed.

(** X10.  The Dec grid runs from -90 to +90 inclusive, and at a pole the
    separation does not depend on the node's RA: the first and the last row
    of the Z map are constant (with at least two Dec steps). *)
Theorem axis_map_polar_rows_constant (P : AxisMap.params)
    (rows : list (R * R)) (out : AxisMap.output)
    (Hgrid : (2 <= AxisMap.GRID_DEC P)%nat)
    (Hout : AxisMap.axis_map P rows = Ok out) :
  forall j j',
    (j < AxisMap.GRID_RA P)%nat -> (j' < AxisMap.GRID_RA P)%nat ->
    cell (AxisMap.Z_map out) 0 j = cell (AxisMap.Z_map out) 0 j' /\
    cell (AxisMap.Z_map out) (AxisMap.GRID_DEC P - 1) j =
    cell (AxisMap.Z_map out) (AxisMap.GRID_DEC P - 1) j'.
Proof.
  intros j j' Hj Hj'. destruct (axis_map_Z P rows out Hout) as (_ & f & ->).
  rewrite !cell_map.
  destruct (density_pole_rows P rows j j' Hgrid Hj Hj') as [H0 Hl].
  now rewrite H0, Hl.
Qed.

Lemma axis_map_duplicate_meridian_witness :
  (2 <= AxisMap.GRID_RA AxisMap.script_params)%nat /\
  exists out,
    AxisMap.axis_map AxisMap.script_params hundred_at_pole = Ok out /\
    forall i,
      cell (AxisMap.Z_map out) i 0 =
      cell (AxisMap.Z_map out) i (AxisMap.GRID_RA AxisMap.script_params - 1).
Proof.
  assert (HF : AxisMap.F_SKY AxisMap.script_params <> 0) by (simpl; lra).
  assert (Hgrid : (2 <= AxisMap.GRID_RA AxisMap.script_params)%nat)
    by (cbn; lia).
  pose proof (axis_map_ok AxisMap.script_params hundred_at_pole HF) as Hout.
  cbv zeta in Hout.
  split; [exact Hgrid|]. eexists. split; [exact Hout|].
  apply (axis_map_duplicate_meridian AxisMap.script_params hundred_at_pole
           _ Hgrid Hout).
Defined.

Lemma axis_map_polar_rows_constant_witness :
  (2 <= AxisMap.GRID_DEC AxisMap.script_params)%nat /\
  exists out,
    AxisMap.axis_map AxisMap.script_params hundred_at_pole = Ok out /\
    forall j j',
      (j < AxisMap.GRID_RA AxisMap.script_params)%nat ->
      (j' < AxisMap.GRID_RA AxisMap.script_params)%nat ->
      cell (AxisMap.Z_map out) 0 j = cell (AxisMap.Z_map out) 0 j' /\
      cell (AxisMap.Z_map out) (AxisMap.GRID_DEC AxisMap.script_params - 1) j
      = cell (AxisMap.Z_map out)
          (AxisMap.GRID_DEC AxisMap.script_params - 1) j'.
Proof.
  assert (HF : AxisMap.F_SKY AxisMap.script_params <> 0) by (simpl; lra).
  assert (Hgrid : (2 <= AxisMap.GRID_DEC AxisMap.script_params)%nat)
    by (cbn; lia).
  pose proof (axis_map_ok AxisMap.script_params hundred_at_pole HF) as Hout.
  cbv zeta in Hout.
  split; [exact Hgrid|]. eexists. split; [exact Hout|].
  apply (axis_map_polar_rows_constant AxisMap.script_params hundred_at_pole
           _ Hgrid Hout).
Defined.

(** ** Hemisphere split and coordinate arrays *)

Section HemisphereAxis.

Lemma dot_vopp (n n0 : vec3) : dot n (vopp n0) = - dot n n0.
Proof.
  destruct n as [[a b] c], n0 as [[x y] z]. unfold vopp, dot. ring.
Qed.

Lemma hemispheres_value (nvecs : list vec3) (dm : list R) (n0 : vec3) :
  length nvecs = length dm ->
  hemispheres nvecs dm n0 =
    Ok (select dm (map (fun n => Rleb 0 (dot n n0)) nvecs),
        select dm (map (fun n => Rltb (dot n n0) 0) nvecs)).
Proof.
  intros Hlen. unfold hemispheres.
  rewrite !mask_index_same_length by (now rewrite !length_map).
  cbn [bind].
  rewrite !map_map.
  rewrite (map_ext (fun x => Rgeb (np.sign (dot x n0)) 0)
                   (fun n => Rleb 0 (dot n n0)))
    by (intros; apply sign_nonneg).
  rewrite (map_ext (fun x => Rltb (np.sign (dot x n0)) 0)
                   (fun n => Rltb (dot n n0) 0))
    by (intros; apply sign_neg).
  reflexivity.
Qed.

Lemma select_ext_in {A} (f g : vec3 -> bool) (nvecs : list vec3)
    (dm : list A) :
  (forall n, In n nvecs -> f n = g n) ->
  select dm (map f nvecs) = select dm (map g nvecs).
Proof.
  intros H. f_equal. apply map_ext_in. exact H.
Qed.

End HemisphereAxis.

(** X11.  Splitting by the opposite axis: when no sample lies exactly on
    the boundary (dot product 0), the two groups are swapped.  A sample on
    the boundary is in the positive group for the axis and for its
    opposite. *)
Theorem hemispheres_opposite_axis (nvecs : list vec3) (dm : list R)
    (n0 : vec3) (Hlen : length nvecs = length dm) :
  exists pos neg pos' neg',
    hemispheres nvecs dm n0 = Ok (pos, neg) /\
    hemispheres nvecs dm (vopp n0) = Ok (pos', neg') /\
    pos' = select dm (map (fun n => Rleb (dot n n0) 0) nvecs) /\
    neg' = select dm (map (fun n => Rltb 0 (dot n n0)) nvecs) /\
    ((forall n, In n nvecs -> dot n n0 <> 0) -> pos' = neg /\ neg' = pos).
Proof.
  do 4 eexists.
  split; [now apply hemispheres_value|].
  split; [now apply hemispheres_value|].
  assert (E1 : forall n, Rleb 0 (dot n (vopp n0)) = Rleb (dot n n0) 0).
  { intros n. rewrite dot_vopp.
    destruct (Rleb (dot n n0) 0) eqn:E.
    - apply Rleb_true in E. apply Rleb_true. lra.
    - apply Rleb_false in E. apply Rleb_false. lra. }
  assert (E2 : forall n, Rltb (dot n (vopp n0)) 0 = Rltb 0 (dot n n0)).
  { intros n. rewrite dot_vopp.
    destruct (Rltb 0 (dot n n0)) eqn:E.
    - apply Rltb_true in E. apply Rltb_true. lra.
    - apply Rltb_false in E. apply Rltb_false. lra. }
  split; [f_equal; apply map_ext; exact E1|].
  split; [f_equal; apply map_ext; exact E2|].
  intros Hnb. split; apply select_ext_in; intros n Hn;
    specialize (Hnb n Hn).
  - rewrite E1. destruct (Rltb (dot n n0) 0) eqn:E.
    + apply Rltb_true in E. apply Rleb_true. lra.
    + apply Rltb_false in E. apply Rleb_false. lra.
  - rewrite E2. destruct (Rleb 0 (dot n n0)) eqn:E.
    + apply Rleb_true in E. apply Rltb_true. lra.
    + apply Rleb_false in E. apply Rltb_false. lra.
Qed.

Lemma hemispheres_opposite_axis_witness :
  length [(1, 0, 0); (0.6, 0.8, 0); (-1, 0, 0)] = length [10; 20; 30] /\
  exists pos neg,
    hemispheres [(1, 0, 0); (0.6, 0.8, 0); (-1, 0, 0)] [10; 20; 30] (1, 0, 0)
      = Ok (pos, neg) /\
    hemispheres [(1, 0, 0); (0.6, 0.8, 0); (-1, 0, 0)] [10; 20; 30]
      (vopp (1, 0, 0)) = Ok (neg, pos).
Proof.
  split; [reflexivity|].
  destruct (hemispheres_opposite_axis
              [(1, 0, 0); (0.6, 0.8, 0); (-1, 0, 0)] [10; 20; 30] (1, 0, 0)
              eq_refl)
    as (pos & neg & pos' & neg' & H1 & H2 & _ & _ & Hswap).
  destruct Hswap as [-> ->].
  - intros n [<-|[<-|[<-|[]]]]; unfold dot; lra.
  - exists pos, neg. split; assumption.
Defined.

(** X12.  [hemispheres] raises [IndexError] exactly when there is at least
    one direction and the number of directions differs from the number of
    values.  With no direction at all it returns two empty groups whatever
    the values are: the two masks are empty, and NumPy does not check an
    empty mask against the array. *)
Theorem hemispheres_length_check (nvecs : list vec3) (dm : list R)
    (n0 : vec3) :
  (nvecs = [] -> hemispheres nvecs dm n0 = Ok ([], [])) /\
  match hemispheres nvecs dm n0 with
  | Ok _ => length nvecs = length dm \/ nvecs = []
  | Err e => e = IndexError /\ length nvecs <> length dm /\ nvecs <> []
  end.
Proof.
  split.
  { intros ->. unfold hemispheres, mask_index. cbn [map length Nat.eqb orb].
    cbn [bind]. now destruct dm. }
  unfold hemispheres, mask_index. rewrite !length_map.
  destruct nvecs as [|n nvecs]; cbn [length Nat.eqb orb bind]; [now right|].
  destruct (length dm =? S (length nvecs))%nat eqn:E; cbn [bind].
  - apply Nat.eqb_eq in E. left. now symmetry.
  - apply Nat.eqb_neq in E. repeat split; auto. discriminate.
Qed.

Section Broadcasting.

Lemma zip3_length (x y z : list R) :
  length x = length y -> length y = length z ->
  length (zip3 x y z) = length x.
Proof.
  revert y z. induction x as [|a x IH]; intros [|b y] [|c z] H1 H2;
    simpl in *; try discriminate; auto.
Qed.

Lemma rows_broadcast_ra (r : R) (dec : list R) :
  zip3 (map (fun x => x * cos (np.deg2rad r)) (map cos (map np.deg2rad dec)))
       (map (fun x => x * sin (np.deg2rad r)) (map cos (map np.deg2rad dec)))
       (map sin (map np.deg2rad dec))
  = map (to_unit_vector r) dec.
Proof.
  induction dec as [|d dec IH]; simpl; auto. now rewrite IH.
Qed.

Lemma sph_to_cart_cases (ra dec : list R) :
  sph_to_cart ra dec =
    if (length ra =? length dec)%nat
    then Ok (np.zip_with to_unit_vector ra dec)
    else match ra with
         | [r] => Ok (map (to_unit_vector r) dec)
         | _ => Err ValueError
         end.
Proof.
  destruct (length ra =? length dec)%nat eqn:E.
  - apply Nat.eqb_eq in E. now apply sph_to_cart_rows.
  - apply Nat.eqb_neq in E.
    unfold sph_to_cart, np.broadcast2. rewrite !length_map.
    replace (length dec =? length ra)%nat with false
      by (symmetry; apply Nat.eqb_neq; congruence).
    destruct dec as [|d [|d' dec]]; destruct ra as [|r [|r' ra]];
      try (exfalso; apply E; reflexivity); simpl; try reflexivity.
    all: unfold vstack3T; simpl; rewrite ?length_map, ?Nat.eqb_refl; simpl.
    all: try reflexivity.
    now rewrite rows_broadcast_ra.
Qed.

End Broadcasting.

(** X13.  On coordinate arrays of different lengths [sph_to_cart] (and
    [unit_vectors], the same code) follows NumPy broadcasting: a single
    right ascension is paired with every declination, and every other pair
    of different lengths, a single declination against several right
    ascensions included, raises [ValueError]. *)
Theorem sph_to_cart_broadcasting (ra dec : list R)
    (Hlen : length ra <> length dec) :
  (forall r, ra = [r] ->
     sph_to_cart ra dec = Ok (map (to_unit_vector r) dec) /\
     unit_vectors ra dec = Ok (map (to_unit_vector r) dec)) /\
  (length ra <> 1%nat ->
     sph_to_cart ra dec = Err ValueError /\
     unit_vectors ra dec = Err ValueError).
Proof.
  assert (Hu : unit_vectors ra dec = sph_to_cart ra dec) by reflexivity.
  rewrite Hu, sph_to_cart_cases.
  replace (length ra =? length dec)%nat with false
    by (symmetry; now apply Nat.eqb_neq).
  split.
  - intros r ->. now split.
  - intros H1. destruct ra as [|r [|r' ra]]; now split.
Qed.

Lemma sph_to_cart_broadcasting_witness :
  length [170] <> length [0; 40; 90] /\
  length [0; 40; 90] <> length [170] /\
  sph_to_cart [170] [0; 40; 90] = Ok (map (to_unit_vector 170) [0; 40; 90]) /\
  sph_to_cart [0; 40; 90] [170] = Err ValueError.
Proof.
  assert (H1 : length [170] <> length [0; 40; 90]) by discriminate.
  assert (H2 : length [0; 40; 90] <> length [170]) by discriminate.
  split; [exact H1|]. split; [exact H2|]. split.
  - apply (sph_to_cart_broadcasting [170] [0; 40; 90] H1). reflexivity.
  - apply (sph_to_cart_broadcasting [0; 40; 90] [170] H2). discriminate.
Defined.

(** ** Crossing angle on the script's angle axis *)

Section CrossingBracket.

Import Autocorr.

Lemma get_overflow {A} (l : list A) (i : nat) :
  (length l <= i)%nat -> get l i = Err IndexError.
Proof.
  intros H. unfold get. now rewrite (proj2 (nth_error_None l i) H).
Qed.

Lemma crossing_value (deg corr : list R) (target : R) (i : nat) :
  first_crossing corr target i ->
  nth i corr 0 - nth (i - 1) corr 0 <> 0 \/ i = 0%nat ->
  crossing_angle deg corr target =
    if (i <? length deg)%nat then
      Ok (Num (if (i =? 0)%nat then nth 0 deg 0
               else nth (i - 1) deg 0 +
                    (target - nth (i - 1) corr 0)
                    * (nth i deg 0 - nth (i - 1) deg 0)
                    / (nth i corr 0 - nth (i - 1) corr 0)))
    else Err IndexError.
Proof.
  intros (Hi & Hcross & Hbefore) Hne.
  destruct (where_from_first (fun c => Rleb c target) corr 0 i)
    as [rest Hw]; auto.
  { now apply Rleb_true. }
  { intros j Hj. apply Rleb_false. auto. }
  unfold crossing_angle, where_. rewrite Hw. cbn [Nat.add].
  destruct i as [|i].
  - cbn [Nat.ltb Nat.leb Nat.eqb].
    destruct (length deg) as [|n] eqn:El.
    + rewrite get_overflow by lia. reflexivity.
    + rewrite (get_nth deg 0 0) by lia. reflexivity.
  - destruct Hne as [Hne|]; [|discriminate].
    replace (0 <? S i)%nat with true by reflexivity.
    cbn [Nat.eqb]. replace (S i - 1)%nat with i in * by lia.
    destruct (S i <? length deg)%nat eqn:E.
    + apply Nat.ltb_lt in E.
      rewrite (get_nth deg i 0), (get_nth deg (S i) 0),
        (get_nth corr i 0), (get_nth corr (S i) 0) by lia.
      cbn [bind fadd]. now rewrite fdivR_nonzero.
    + apply Nat.ltb_ge in E.
      destruct (Nat.lt_ge_cases i (length deg)) as [Hlt|Hge].
      * rewrite (get_nth deg i 0) by lia. cbn [bind].
        now rewrite (get_overflow deg (S i)) by lia.
      * now rewrite (get_overflow deg i) by lia.
Qed.

Lemma first_crossing_drop (corr : list R) (target : R) (i : nat) :
  first_crossing corr target i -> (0 < i)%nat ->
  nth i corr 0 < nth (i - 1) corr 0.
Proof.
  intros (Hi & Hcross & Hbefore) Hpos.
  specialize (Hbefore (i - 1)%nat). lapply Hbefore; [lra | lia].
Qed.

Lemma interpolation_bracket (x0 x1 y0 y1 t : R) :
  y1 <= t < y0 -> x0 <= x1 ->
  x0 <= x0 + (t - y0) * (x1 - x0) / (y1 - y0) <= x1 /\
  (x0 < x1 -> x0 < x0 + (t - y0) * (x1 - x0) / (y1 - y0)).
Proof.
  intros [Ht1 Ht2] Hx.
  set (q := (t - y0) / (y1 - y0)).
  assert (Hq : 0 < q <= 1).
  { unfold q. split.
    - replace ((t - y0) / (y1 - y0)) with ((y0 - t) / (y0 - y1))
        by (field; lra).
      apply Rdiv_lt_0_compat; lra.
    - apply Rmult_le_reg_r with (y0 - y1); [lra|].
      replace ((t - y0) / (y1 - y0) * (y0 - y1)) with (y0 - t)
        by (field; lra).
      lra. }
  replace (x0 + (t - y0) * (x1 - x0) / (y1 - y0))
    with (x0 + q * (x1 - x0)) by (unfold q; field; lra).
  split; [split|]; nra.
Qed.

Lemma deg_of_bins_length (h w : nat) :
  length (deg_of_bins h w) = (Nat.min h w / 2)%nat.
Proof.
  unfold deg_of_bins, bins. now rewrite !length_map, length_seq.
Qed.

Lemma deg_of_bins_nth (h w i : nat) :
  (i < Nat.min h w / 2)%nat ->
  nth i (deg_of_bins h w) 0 = 360 * INR i / INR w.
Proof.
  intros Hi. unfold deg_of_bins.
  assert (Hw : INR w <> 0).
  { apply not_0_INR. intros ->. rewrite Nat.min_0_r in Hi. simpl in Hi. lia. }
  rewrite (nth_indep _ 0 ((fun b => b / px_per_deg w) 0))
    by (rewrite length_map; unfold bins;
        now rewrite length_map, length_seq).
  rewrite (map_nth (fun b => b / px_per_deg w)).
  rewrite bins_nth by assumption. unfold px_per_deg. field. exact Hw.
Qed.

End CrossingBracket.

(** X14.  When the profile first reaches the target at an index i > 0 and
    the angle axis does not decrease from i-1 to i, the crossing angle is a
    finite number between deg[i-1] and deg[i], strictly above deg[i-1] when
    the axis increases there. *)
Theorem crossing_angle_bracketed (deg corr : list R) (target : R) (i : nat)
    (Hcross : first_crossing corr target i) (Hpos : (0 < i)%nat)
    (Hdeg : (i < length deg)%nat)
    (Hmono : nth (i - 1) deg 0 <= nth i deg 0) :
  exists theta,
    Autocorr.crossing_angle deg corr target = Ok (Num theta) /\
    nth (i - 1) deg 0 <= theta <= nth i deg 0 /\
    (nth (i - 1) deg 0 < nth i deg 0 -> nth (i - 1) deg 0 < theta).
Proof.
  pose proof (first_crossing_drop corr target i Hcross Hpos) as Hdrop.
  rewrite (crossing_value deg corr target i Hcross) by (left; lra).
  replace (i <? length deg)%nat with true
    by (symmetry; now apply Nat.ltb_lt).
  replace (i =? 0)%nat with false by (symmetry; apply Nat.eqb_neq; lia).
  eexists. split; [reflexivity|].
  destruct Hcross as (Hi & Hle & Hbefore).
  apply interpolation_bracket; [|exact Hmono].
  split; [exact Hle|]. apply Hbefore. lia.
Qed.

Lemma crossing_angle_bracketed_witness :
  first_crossing [1; 0.6; 0.3] 0.5 2 /\ (0 < 2)%nat /\
  (2 < length [0; 1; 2])%nat /\ nth (2 - 1) [0; 1; 2] 0 <= nth 2 [0; 1; 2] 0 /\
  exists theta,
    Autocorr.crossing_angle [0; 1; 2] [1; 0.6; 0.3] 0.5 = Ok (Num theta) /\
    nth (2 - 1) [0; 1; 2] 0 <= theta <= nth 2 [0; 1; 2] 0 /\
    (nth (2 - 1) [0; 1; 2] 0 < nth 2 [0; 1; 2] 0 ->
     nth (2 - 1) [0; 1; 2] 0 < theta).
Proof.
  assert (Hc : first_crossing [1; 0.6; 0.3] 0.5 2).
  { split; [simpl; lia|]. split; [simpl; lra|].
    intros [|[|j]] Hj; simpl; try lra; lia. }
  assert (Hd : (2 < length [0; 1; 2])%nat) by (simpl; lia).
  assert (Hm : nth (2 - 1) [0; 1; 2] 0 <= nth 2 [0; 1; 2] 0) by (simpl; lra).
  split; [exact Hc|]. split; [lia|]. split; [exact Hd|]. split; [exact Hm|].
  apply (crossing_angle_bracketed [0; 1; 2] [1; 0.6; 0.3] 0.5 2 Hc);
    [lia | exact Hd | exact Hm].
Defined.

(** X15.  On the script's angle axis [deg = bins / (w / 360)] (entry k is
    360 k / w degrees): when the profile first reaches the target at bin i,
    the reported angle is 0 for i = 0, and for i > 0 it lies in the
    half-open interval (360 (i-1) / w, 360 i / w]. *)
Theorem crossing_angle_in_bin (h w : nat) (corr : list R) (target : R)
    (i : nat) (Hcross : first_crossing corr target i)
    (Hbin : (i < Nat.min h w / 2)%nat) :
  exists theta,
    Autocorr.crossing_angle (deg_of_bins h w) corr target = Ok (Num theta) /\
    (i = 0%nat -> theta = 0) /\
    ((0 < i)%nat ->
     360 * INR (i - 1) / INR w < theta <= 360 * INR i / INR w).
Proof.
  assert (Hw : 0 < INR w).
  { apply lt_0_INR. destruct w; [|lia].
    rewrite Nat.min_0_r in Hbin. simpl in Hbin. lia. }
  destruct i as [|i].
  - rewrite (crossing_value _ corr target 0 Hcross) by (now right).
    rewrite deg_of_bins_length.
    replace (0 <? Nat.min h w / 2)%nat with true
      by (symmetry; now apply Nat.ltb_lt).
    cbn [Nat.eqb]. eexists. split; [reflexivity|]. split; [|lia].
    intros _. rewrite deg_of_bins_nth by assumption. simpl INR.
    unfold Rdiv. ring.
  - pose proof (first_crossing_drop corr target (S i) Hcross
                  ltac:(lia)) as Hdrop.
    rewrite (crossing_value _ corr target (S i) Hcross) by (left; lra).
    rewrite deg_of_bins_length.
    replace (S i <? Nat.min h w / 2)%nat with true
      by (symmetry; now apply Nat.ltb_lt).
    cbn [Nat.eqb]. eexists. split; [reflexivity|]. split; [lia|].
    intros _. replace (S i - 1)%nat with i in * by lia.
    rewrite !deg_of_bins_nth by lia.
    destruct Hcross as (Hi & Hle & Hbefore).
    assert (Hx : 360 * INR i / INR w < 360 * INR (S i) / INR w).
    { rewrite S_INR. unfold Rdiv.
      apply Rmult_lt_compat_r; [now apply Rinv_0_lt_compat | lra]. }
    destruct (interpolation_bracket (360 * INR i / INR w)
                (360 * INR (S i) / INR w)
                (nth i corr 0) (nth (S i) corr 0) target) as [[_ Hu] Hl].
    + split; [exact Hle | apply Hbefore; lia].
    + lra.
    + split; [now apply Hl | exact Hu].
Qed.

Lemma crossing_angle_in_bin_witness :
  first_crossing [1; 0.6; 0.3] 0.5 2 /\ (2 < Nat.min 8 720 / 2)%nat /\
  exists theta,
    Autocorr.crossing_angle (deg_of_bins 8 720) [1; 0.6; 0.3] 0.5
      = Ok (Num theta) /\
    (2%nat = 0%nat -> theta = 0) /\
    ((0 < 2)%nat ->
     360 * INR (2 - 1) / INR 720 < theta <= 360 * INR 2 / INR 720).
Proof.
  assert (Hc : first_crossing [1; 0.6; 0.3] 0.5 2).
  { split; [simpl; lia|]. split; [simpl; lra|].
    intros [|[|j]] Hj; simpl; try lra; lia. }
  assert (Hb : (2 < Nat.min 8 720 / 2)%nat)
    by (apply Nat.ltb_lt; reflexivity).
  split; [exact Hc|]. split; [exact Hb|].
  apply (crossing_angle_in_bin 8 720 [1; 0.6; 0.3] 0.5 2 Hc Hb).
Defined.

(** X16.  When the profile reaches the target, first at index i,
    [crossing_angle] raises [IndexError] exactly when the angle array is too
    short to be indexed there ([len(deg) <= i]); otherwise it returns a
    finite number, never not-a-number or an infinity: the divisor
    corr[i] - corr[i-1] of the interpolation is strictly negative. *)
Theorem crossing_angle_index_error (deg corr : list R) (target : R) (i : nat)
    (Hcross : first_crossing corr target i) :
  ((length deg <= i)%nat ->
   Autocorr.crossing_angle deg corr target = Err IndexError) /\
  ((i < length deg)%nat ->
   exists theta, Autocorr.crossing_angle deg corr target = Ok (Num theta)) /\
  ((0 < i)%nat -> nth i corr 0 - nth (i - 1) corr 0 < 0).
Proof.
  assert (Hne : nth i corr 0 - nth (i - 1) corr 0 <> 0 \/ i = 0%nat).
  { destruct i as [|i]; [now right | left].
    pose proof (first_crossing_drop corr target (S i) Hcross ltac:(lia)).
    lra. }
  rewrite (crossing_value deg corr target i Hcross Hne).
  split; [|split].
  - intros H. now replace (i <? length deg)%nat with false
      by (symmetry; now apply Nat.ltb_ge).
  - intros H. replace (i <? length deg)%nat with true
      by (symmetry; now apply Nat.ltb_lt). eauto.
  - intros Hpos.
    pose proof (first_crossing_drop corr target i Hcross Hpos). lra.
Qed.

Lemma crossing_angle_index_error_witness :
  first_crossing [1; 0.6; 0.3] 0.5 2 /\
  Autocorr.crossing_angle [0; 1] [1; 0.6; 0.3] 0.5 = Err IndexError.
Proof.
  assert (Hc : first_crossing [1; 0.6; 0.3] 0.5 2).
  { split; [simpl; lia|]. split; [simpl; lra|].
    intros [|[|j]] Hj; simpl; try lra; lia. }
  split; [exact Hc|].
  apply (crossing_angle_index_error [0; 1] [1; 0.6; 0.3] 0.5 2 Hc).
  simpl. lia.
Defined.

(** ** Radial profile of any grid *)

Section RadialEntries.

Import Autocorr.

Lemma select_members (r : list R) (cells : list fval) (lo hi : R) :
  select cells (map (fun ri => Rgeb ri lo && Rltb ri hi) r) =
  members r cells lo hi.
Proof.
  revert cells. induction r as [|ri r IH]; intros [|c cells]; simpl; auto.
  unfold Rgeb at 1. rewrite IH. reflexivity.
Qed.

Lemma existsb_mask (f : R -> bool) (r : list R) :
  existsb (fun m => m) (map f r) = existsb f r.
Proof. induction r as [|x r IH]; simpl; [|rewrite IH]; reflexivity. Qed.

Lemma bin_update_members (r : list R) (cells : list fval) (lo hi : R) :
  bin_update r cells lo hi =
  if existsb (fun ri => Rleb lo ri && Rltb ri hi) r
  then Some (nanmean (members r cells lo hi)) else None.
Proof.
  unfold bin_update. rewrite existsb_mask, select_members. reflexivity.
Qed.

Lemma distances_length (h w : nat) : length (distances h w) = (h * w)%nat.
Proof.
  unfold distances.
  assert (H : forall l : list nat,
    length (flat_map (fun y => map
      (fun x => hypot (INR y - INR h / 2) (INR x - INR w / 2)) (seq 0 w)) l)
    = (length l * w)%nat).
  { induction l as [|a l IH]; simpl; auto.
    now rewrite length_app, length_map, length_seq, IH. }
  now rewrite H, length_seq.
Qed.

Lemma members_nonempty (r : list R) (cells : list fval) (lo hi : R) :
  length cells = length r ->
  existsb (fun ri => Rleb lo ri && Rltb ri hi) r = true ->
  members r cells lo hi <> [].
Proof.
  revert cells. induction r as [|ri r IH]; intros [|c cells] Hl He;
    simpl in *; try discriminate.
  destruct (Rleb lo ri && Rltb ri hi); [discriminate|].
  apply IH; [lia | exact He].
Qed.

Lemma members_incl (r : list R) (cells : list fval) (lo hi : R) (c : fval) :
  In c (members r cells lo hi) -> In c cells.
Proof.
  revert cells.
  induction r as [|ri r IH]; intros [|c0 cells]; simpl; try tauto.
  destruct (Rleb lo ri && Rltb ri hi); simpl; intros H; auto.
  destruct H as [H|H]; auto.
Qed.



Lemma fsum_bounded (lo hi : R) (l : list fval) (s : R) :
  Forall (bounded_cell lo hi) l ->
  exists t, fold_left fadd l (Num s) = Num (s + t) /\
            INR (length l) * lo <= t <= INR (length l) * hi.
Proof.
  intros H. revert s. induction H as [|e l (c & -> & Hc) Hl IH]; intros s.
  - exists 0. simpl. split; [f_equal; lra | lra].
  - cbn [fold_left fadd]. destruct (IH (s + c)) as (t & Ht & Hb).
    exists (c + t). split; [rewrite Ht; f_equal; lra|].
    change (length (Num c :: l)) with (S (length l)). rewrite S_INR. lra.
Qed.

Lemma filter_all_finite (lo hi : R) (l : list fval) :
  Forall (bounded_cell lo hi) l ->
  filter (fun v => negb (is_nan v)) l = l.
Proof.
  induction 1 as [|e l (c & -> & Hc) Hl IH]; simpl; [|rewrite IH];
    reflexivity.
Qed.

Lemma nanmean_bounded (lo hi : R) (l : list fval) :
  Forall (bounded_cell lo hi) l -> l <> [] ->
  bounded_cell lo hi (nanmean l).
Proof.
  intros H Hne. unfold nanmean. rewrite (filter_all_finite lo hi l H).
  destruct l as [|e l]; [contradiction|].
  destruct (fsum_bounded lo hi (e :: l) 0 H) as (t & Ht & Hb).
  unfold fsum. rewrite Ht. cbn [fdiv].
  assert (Hn : 0 < INR (length (e :: l))) by (apply lt_0_INR; simpl; lia).
  rewrite fdivR_nonzero by lra.
  exists ((0 + t) / INR (length (e :: l))). split; [reflexivity|].
  split.
  - apply Rmult_le_reg_r with (INR (length (e :: l))); [exact Hn|].
    unfold Rdiv. rewrite Rmult_assoc, Rinv_l by lra. lra.
  - apply Rmult_le_reg_r with (INR (length (e :: l))); [exact Hn|].
    unfold Rdiv. rewrite Rmult_assoc, Rinv_l by lra. lra.
Qed.

End RadialEntries.

(** X17.  The radial profile of a grid of shape (h, w) has
    min(h, w) // 2 entries.  Entry i, for every i but the last, is the
    [nanmean] of the cells whose distance r to the centre (h/2, w/2)
    satisfies i <= r < i + 1, and stays 0 when no cell lies in that ring;
    the last entry is 0 whatever the grid holds. *)
Theorem radial_profile_entries (h w : nat) (AC : list (list fval)) :
  length (Autocorr.radial h w AC) = (Nat.min h w / 2)%nat /\
  nth (Nat.min h w / 2 - 1) (Autocorr.radial h w AC) (Num 0) = Num 0 /\
  forall i, (S i < Nat.min h w / 2)%nat ->
    nth i (Autocorr.radial h w AC) (Num 0) =
    if existsb (fun ri => Rleb (INR i) ri && Rltb ri (INR (S i)))
         (Autocorr.distances h w)
    then Autocorr.nanmean
           (members (Autocorr.distances h w) (concat AC) (INR i) (INR (S i)))
    else Num 0.
Proof.
  split; [apply radial_length|]. split; [apply radial_last_entry|].
  intros i Hi. rewrite radial_entry by exact Hi.
  rewrite bin_update_members.
  now destruct (existsb _ _).
Qed.

(** X18.  On a grid of shape (h, w) whose cells are all finite and lie
    in [lo, hi], with lo <= 0 <= hi, every entry of the radial profile is
    finite and lies in [lo, hi]: for the normalised autocorrelation, whose
    cells lie in [-1, 1], so does the profile. *)
Theorem radial_profile_bounded (h w : nat) (AC : list (list fval))
    (lo hi : R)
    (Hshape : length (concat AC) = (h * w)%nat)
    (Hcells : Forall (fun e => exists c, e = Num c /\ lo <= c <= hi)
                (concat AC))
    (Hzero : lo <= 0 <= hi) :
  Forall (fun e => exists v, e = Num v /\ lo <= v <= hi)
    (Autocorr.radial h w AC).
Proof.
  apply Forall_forall. intros e He.
  destruct (In_nth _ _ (Num 0) He) as (i & Hi & <-).
  rewrite radial_length in Hi.
  destruct (Nat.eq_dec i (Nat.min h w / 2 - 1)) as [->|Hne].
  - rewrite radial_last_entry. exists 0. now split.
  - rewrite radial_entry by lia. rewrite bin_update_members.
    destruct (existsb _ _) eqn:E; [|exists 0; now split].
    apply (nanmean_bounded lo hi).
    + apply Forall_forall. intros c Hc.
      apply members_incl in Hc.
      exact (proj1 (Forall_forall _ _) Hcells c Hc).
    + apply members_nonempty; [|exact E].
      now rewrite distances_length.
Qed.

Lemma radial_profile_bounded_witness :
  length (concat stripes_4x4) = (4 * 4)%nat /\
  Forall (fun e => exists c, e = Num c /\ -1 <= c <= 1)
    (concat stripes_4x4) /\
  -1 <= 0 <= 1 /\
  Forall (fun e => exists v, e = Num v /\ -1 <= v <= 1)
    (Autocorr.radial 4 4 stripes_4x4).
Proof.
  assert (Hc : Forall (fun e => exists c, e = Num c /\ -1 <= c <= 1)
                 (concat stripes_4x4)).
  { unfold stripes_4x4. cbn [concat app].
    repeat (apply Forall_cons; [eexists; split; [reflexivity | lra]|]).
    apply Forall_nil. }
  assert (Hz : -1 <= 0 <= 1) by lra.
  split; [reflexivity|]. split; [exact Hc|]. split; [exact Hz|].
  apply (radial_profile_bounded 4 4 stripes_4x4 (-1) 1 eq_refl Hc Hz).
Defined.

(** ** Effective number of patches *)

Section EffectivePatches.

Import Autocorr.

Lemma deg2rad_sqr_pos (t : R) : t <> 0 -> 0 < np.deg2rad t ^ 2.
Proof.
  intros H. unfold np.deg2rad. pose proof PI_RGT_0.
  assert (t * (PI / 180) <> 0) by (apply Rmult_integral_contrapositive; lra).
  nra.
Qed.

Lemma neff_finite (t : R) :
  t <> 0 -> neff (Num t) = Num (4 * f_sky / np.deg2rad t ^ 2).
Proof.
  intros H. unfold neff. apply fdivR_nonzero.
  pose proof (deg2rad_sqr_pos t H). lra.
Qed.

Lemma crossing_none (deg corr : list R) (target : R) :
  (forall c, In c corr -> target < c) -> crossing_angle deg corr target = Ok NaN.
Proof.
  intros H. unfold crossing_angle, where_.
  rewrite where_from_none; [reflexivity|].
  intros x Hx. apply Rleb_false. auto.
Qed.

Lemma inv_sqr_antitone (x y : R) :
  0 < x <= y -> 1 / y ^ 2 <= 1 / x ^ 2.
Proof.
  intros [Hx Hxy].
  assert (Hx2 : 0 < x ^ 2) by nra.
  assert (Hy2 : 0 < y ^ 2) by nra.
  apply Rmult_le_reg_r with (x ^ 2 * y ^ 2);
    [now apply Rmult_lt_0_compat|].
  replace (1 / y ^ 2 * (x ^ 2 * y ^ 2)) with (x ^ 2) by (field; lra).
  replace (1 / x ^ 2 * (x ^ 2 * y ^ 2)) with (y ^ 2) by (field; lra).
  nra.
Qed.

End EffectivePatches.

(** X19.  [neff] is not-a-number at not-a-number and plus infinity at a
    zero angle (no exception is raised).  At an angle whose size is within
    the range [10^-100, 10^100] it is finite and strictly positive, it does
    not increase when the angle grows in absolute value, and together with
    the scale [L_gly] of the same angle (for a distance within that range)
    it satisfies N_eff * L^2 = 4 * f_sky * D_gly^2. *)
Theorem neff_values (t t' D : R)
    (Ht : within_float_range t) (Ht' : within_float_range t')
    (HD : within_float_range D) :
  neff NaN = NaN /\ neff (Num 0) = PInf /\
  exists n l,
    neff (Num t) = Num n /\ L_gly (Num t) D = Num l /\
    0 < n /\ n * l ^ 2 = 4 * f_sky * D ^ 2 /\
    (Rabs t <= Rabs t' ->
     exists n', neff (Num t') = Num n' /\ 0 < n' <= n).
Proof.
  assert (Hpos : forall x, within_float_range x -> x <> 0).
  { intros x [Hl _] ->. rewrite Rabs_R0 in Hl.
    assert (0 < / 10 ^ 100)
      by (apply Rinv_0_lt_compat, pow_lt; lra).
    lra. }
  apply Hpos in Ht. apply Hpos in Ht'. clear Hpos HD.
  split; [reflexivity|]. split.
  { unfold neff, fdivR, np.deg2rad.
    rewrite Reqb_intro_true by lra.
    rewrite Reqb_intro_false by (unfold f_sky; lra).
    now rewrite Rltb_intro_true by (unfold f_sky; lra). }
  pose proof (deg2rad_sqr_pos t Ht) as Hp.
  assert (Hf : 0 < 4 * f_sky) by (unfold f_sky; lra).
  exists (4 * f_sky / np.deg2rad t ^ 2), (np.deg2rad t * D).
  split; [now apply neff_finite|]. split; [reflexivity|].
  split; [now apply Rdiv_lt_0_compat|].
  assert (Hd : np.deg2rad t <> 0) by (intros E; rewrite E in Hp; lra).
  split; [field; exact Hd|].
  intros Habs.
  pose proof (deg2rad_sqr_pos t' Ht') as Hp'.
  exists (4 * f_sky / np.deg2rad t' ^ 2).
  split; [now apply neff_finite|].
  split; [now apply Rdiv_lt_0_compat|].
  assert (Hsq : np.deg2rad t ^ 2 <= np.deg2rad t' ^ 2).
  { unfold np.deg2rad. pose proof PI_RGT_0.
    assert (t ^ 2 <= t' ^ 2)
      by (rewrite <- !Rsqr_pow2; now apply Rsqr_le_abs_1).
    replace ((t * (PI / 180)) ^ 2) with (t ^ 2 * (PI / 180) ^ 2) by ring.
    replace ((t' * (PI / 180)) ^ 2) with (t' ^ 2 * (PI / 180) ^ 2) by ring.
    apply Rmult_le_compat_r; [nra | assumption]. }
  unfold Rdiv. apply Rmult_le_compat_l; [lra|].
  apply Rinv_le_contravar; assumption.
Qed.

Lemma neff_values_witness :
  within_float_range 1 /\ within_float_range 2 /\ within_float_range 11 /\
  exists n l,
    neff (Num 1) = Num n /\ L_gly (Num 1) 11 = Num l /\
    0 < n /\ n * l ^ 2 = 4 * f_sky * 11 ^ 2 /\
    exists n', neff (Num 2) = Num n' /\ 0 < n' <= n.
Proof.
  assert (Hr : forall x, 1 <= x <= 100 -> within_float_range x).
  { intros x Hx. unfold within_float_range.
    rewrite Rabs_right by lra.
    assert (H1 : 1 <= 10 ^ 100) by (apply pow_R1_Rle; lra).
    assert (H2 : 10 ^ 2 <= 10 ^ 100) by (apply Rle_pow; [lra | lia]).
    assert (H3 : / 10 ^ 100 <= 1).
    { rewrite <- Rinv_1. apply Rinv_le_contravar; lra. }
    simpl in H2. lra. }
  assert (H1 : within_float_range 1) by (apply Hr; lra).
  assert (H2 : within_float_range 2) by (apply Hr; lra).
  assert (H11 : within_float_range 11) by (apply Hr; lra).
  split; [exact H1|]. split; [exact H2|]. split; [exact H11|].
  destruct (neff_values 1 2 11 H1 H2 H11)
    as (_ & _ & n & l & Hn & Hl & Hpos & Hid & Hmono).
  exists n, l. split; [exact Hn|]. split; [exact Hl|].
  split; [exact Hpos|]. split; [exact Hid|].
  apply Hmono. rewrite !Rabs_right by lra. lra.
Defined.

(** X20.  The effective number of patches computed from the crossing
    angle on the script's angle axis: not-a-number when the profile never
    reaches the target; plus infinity when it is at or below the target
    already in bin 0 (the angle is 0); and when it first reaches it in a
    bin i > 0, a finite number of at least 4 f_sky / (2 pi i / w)^2. *)
Theorem neff_of_crossing (h w : nat) (corr : list R) (target : R) (i : nat) :
  ((forall c, In c corr -> target < c) ->
   neff_at (deg_of_bins h w) corr target = Ok NaN) /\
  (first_crossing corr target i -> (i < Nat.min h w / 2)%nat ->
   (i = 0%nat -> neff_at (deg_of_bins h w) corr target = Ok PInf) /\
   ((0 < i)%nat ->
    exists n, neff_at (deg_of_bins h w) corr target = Ok (Num n) /\
      4 * f_sky / np.deg2rad (360 * INR i / INR w) ^ 2 <= n)).
Proof.
  split.
  { intros H. unfold neff_at. now rewrite crossing_none. }
  intros Hcross Hbin.
  assert (Hw : 0 < INR w).
  { apply lt_0_INR. destruct w; [|lia].
    rewrite Nat.min_0_r in Hbin. simpl in Hbin. lia. }
  destruct i as [|i]; (split; [|intros Hpos]); try lia; try discriminate.
  - intros _. unfold neff_at.
    rewrite (crossing_value _ corr target 0 Hcross) by (now right).
    rewrite deg_of_bins_length.
    replace (0 <? Nat.min h w / 2)%nat with true
      by (symmetry; now apply Nat.ltb_lt).
    cbn [Nat.eqb bind]. rewrite deg_of_bins_nth by assumption.
    replace (360 * INR 0 / INR w) with 0 by (simpl; unfold Rdiv; ring).
    unfold neff, fdivR, np.deg2rad.
    rewrite Reqb_intro_true by lra.
    rewrite Reqb_intro_false by (unfold f_sky; lra).
    now rewrite Rltb_intro_true by (unfold f_sky; lra).
  - pose proof (first_crossing_drop corr target (S i) Hcross Hpos) as Hdrop.
    unfold neff_at.
    rewrite (crossing_value _ corr target (S i) Hcross) by (left; lra).
    rewrite deg_of_bins_length.
    replace (S i <? Nat.min h w / 2)%nat with true
      by (symmetry; now apply Nat.ltb_lt).
    cbn [Nat.eqb bind]. replace (S i - 1)%nat with i in * by lia.
    rewrite !deg_of_bins_nth by lia.
    destruct Hcross as (Hi & Hle & Hbefore).
    assert (Hx0 : 0 <= 360 * INR i / INR w).
    { apply Rmult_le_pos; [pose proof (pos_INR i); lra|].
      left. now apply Rinv_0_lt_compat. }
    assert (Hx : 360 * INR i / INR w < 360 * INR (S i) / INR w).
    { rewrite S_INR. unfold Rdiv.
      apply Rmult_lt_compat_r; [now apply Rinv_0_lt_compat | lra]. }
    destruct (interpolation_bracket (360 * INR i / INR w)
                (360 * INR (S i) / INR w)
                (nth i corr 0) (nth (S i) corr 0) target) as [[_ Hu] Hl];
      [split; [exact Hle | apply Hbefore; lia] | lra |].
    specialize (Hl Hx).
    set (theta := 360 * INR i / INR w + _) in *.
    assert (Hth : theta <> 0) by lra.
    rewrite (neff_finite theta Hth). eexists. split; [reflexivity|].
    assert (Hf : 0 < 4 * f_sky) by (unfold f_sky; lra).
    pose proof PI_RGT_0 as Hpi.
    assert (Hr : 0 < np.deg2rad theta <= np.deg2rad (360 * INR (S i) / INR w)).
    { unfold np.deg2rad. split.
      - apply Rmult_lt_0_compat; lra.
      - apply Rmult_le_compat_r; lra. }
    pose proof (inv_sqr_antitone _ _ Hr) as Hinv.
    unfold Rdiv in *. rewrite !Rmult_1_l in Hinv.
    apply Rmult_le_compat_l; [lra | exact Hinv].
Qed.

(** ** The crossing angle as a function of the target *)

Section CrossingOrder.

Import Autocorr.

Lemma first_crossing_search (corr : list R) (t : R) (n : nat) :
  (n <= length corr)%nat ->
  (forall j, (j < n)%nat -> t < nth j corr 0) \/
  (exists i, (i < n)%nat /\ first_crossing corr t i).
Proof.
  induction n as [|n IH]; intros Hn.
  - left. intros j Hj. lia.
  - destruct IH as [Hall|(i & Hi & Hc)]; [lia| |right; exists i; split; auto].
    destruct (Rle_dec (nth n corr 0) t) as [Hle|Hgt].
    + right. exists n. split; [lia|]. repeat split; auto; lia.
    + left. intros j Hj.
      destruct (Nat.eq_dec j n) as [->|Hne]; [lra | apply Hall; lia].
Qed.

Lemma first_crossing_below (corr : list R) (t : R) (i : nat) :
  (i < length corr)%nat -> nth i corr 0 <= t ->
  exists i0, (i0 <= i)%nat /\ first_crossing corr t i0.
Proof.
  intros Hi Hle.
  destruct (first_crossing_search corr t (S i)) as [Hall|(i0 & Hi0 & Hc)];
    [lia | |exists i0; split; [lia | exact Hc]].
  specialize (Hall i). lapply Hall; [lra | lia].
Qed.

End CrossingOrder.

(** X21.  On a non-decreasing angle axis as long as the profile, raising
    the target never raises the crossing angle: when the profile reaches the
    lower target t1, it reaches any t2 >= t1 too, both angles are finite
    numbers and the angle of t2 is at most that of t1.  (The script's
    theta_half is therefore at most its theta_1e.) *)
Theorem crossing_angle_antitone (deg corr : list R) (t1 t2 : R) (i1 : nat)
    (Hlen : length deg = length corr)
    (Hmono : forall j k, (j <= k < length deg)%nat ->
                         nth j deg 0 <= nth k deg 0)
    (Ht : t1 <= t2)
    (Hcross : first_crossing corr t1 i1) :
  exists theta1 theta2,
    Autocorr.crossing_angle deg corr t1 = Ok (Num theta1) /\
    Autocorr.crossing_angle deg corr t2 = Ok (Num theta2) /\
    theta2 <= theta1.
Proof.
  destruct (first_crossing_below corr t2 i1) as (i2 & Hi2 & Hcross2).
  { apply Hcross. }
  { destruct Hcross as (_ & Hle & _). lra. }
  assert (Hi1 : (i1 < length deg)%nat) by (rewrite Hlen; apply Hcross).
  assert (Hv : forall t i, first_crossing corr t i -> (i < length deg)%nat ->
    exists theta, Autocorr.crossing_angle deg corr t = Ok (Num theta) /\
      (i = 0%nat -> theta = nth 0 deg 0) /\
      ((0 < i)%nat ->
       theta = nth (i - 1) deg 0 +
               (t - nth (i - 1) corr 0) * (nth i deg 0 - nth (i - 1) deg 0)
               / (nth i corr 0 - nth (i - 1) corr 0) /\
       nth i corr 0 <= t < nth (i - 1) corr 0 /\
       nth (i - 1) deg 0 <= theta <= nth i deg 0)).
  { intros t i Hc Hi.
    assert (Hne : nth i corr 0 - nth (i - 1) corr 0 <> 0 \/ i = 0%nat).
    { destruct i as [|i]; [now right | left].
      pose proof (first_crossing_drop corr t (S i) Hc ltac:(lia)). lra. }
    rewrite (crossing_value deg corr t i Hc Hne).
    replace (i <? length deg)%nat with true
      by (symmetry; now apply Nat.ltb_lt).
    eexists. split; [reflexivity|].
    destruct i as [|i]; (split; [intros E | intros Hpos]);
      try lia; try discriminate; auto.
    cbn [Nat.eqb]. split; [reflexivity|].
    destruct Hc as (Hic & Hle & Hbefore).
    assert (Hy : nth (S i) corr 0 <= t < nth (S i - 1) corr 0)
      by (split; [exact Hle | apply Hbefore; lia]).
    split; [exact Hy|].
    apply interpolation_bracket; [exact Hy | apply Hmono; lia]. }
  destruct (Hv t1 i1 Hcross Hi1) as (th1 & E1 & Hz1 & Hp1).
  destruct (Hv t2 i2 Hcross2 ltac:(lia)) as (th2 & E2 & Hz2 & Hp2).
  exists th1, th2. split; [exact E1|]. split; [exact E2|].
  destruct (Nat.eq_dec i2 i1) as [->|Hne].
  - destruct i1 as [|i]; [rewrite Hz1, Hz2 by reflexivity; lra|].
    destruct (Hp1 ltac:(lia)) as (-> & Hy1 & _).
    destruct (Hp2 ltac:(lia)) as (-> & Hy2 & _).
    replace (S i - 1)%nat with i in * by lia.
    assert (Hx : nth i deg 0 <= nth (S i) deg 0) by (apply Hmono; lia).
    set (x0 := nth i deg 0) in *. set (x1 := nth (S i) deg 0) in *.
    set (y0 := nth i corr 0) in *. set (y1 := nth (S i) corr 0) in *.
    assert (Hq : 0 <= (t2 - t1) * (x1 - x0) / (y0 - y1)).
    { apply Rmult_le_pos; [nra|]. left. apply Rinv_0_lt_compat. lra. }
    replace (x0 + (t1 - y0) * (x1 - x0) / (y1 - y0))
      with (x0 + (t2 - y0) * (x1 - x0) / (y1 - y0)
            + (t2 - t1) * (x1 - x0) / (y0 - y1)) by (field; lra).
    lra.
  - assert (Hpos1 : (0 < i1)%nat) by lia.
    destruct (Hp1 Hpos1) as (_ & _ & Hb1 & _).
    assert (Hup : th2 <= nth i2 deg 0).
    { destruct i2 as [|i2]; [rewrite Hz2 by reflexivity; lra|].
      destruct (Hp2 ltac:(lia)) as (_ & _ & _ & Hb2). exact Hb2. }
    assert (Hmid : nth i2 deg 0 <= nth (i1 - 1) deg 0) by (apply Hmono; lia).
    lra.
Qed.

Lemma crossing_angle_antitone_witness :
  length [0; 1; 2] = length [1; 0.6; 0.3] /\
  (forall j k, (j <= k < length [0; 1; 2])%nat ->
               nth j [0; 1; 2] 0 <= nth k [0; 1; 2] 0) /\
  0.4 <= 0.5 /\ first_crossing [1; 0.6; 0.3] 0.4 2 /\
  exists theta1 theta2,
    Autocorr.crossing_angle [0; 1; 2] [1; 0.6; 0.3] 0.4 = Ok (Num theta1) /\
    Autocorr.crossing_angle [0; 1; 2] [1; 0.6; 0.3] 0.5 = Ok (Num theta2) /\
    theta2 <= theta1.
Proof.
  assert (Hm : forall j k, (j <= k < length [0; 1; 2])%nat ->
                 nth j [0; 1; 2] 0 <= nth k [0; 1; 2] 0).
  { intros j k [Hjk Hk]. simpl in Hk.
    destruct k as [|[|[|k]]]; [| | |lia];
      destruct j as [|[|[|j]]]; simpl; try lra; lia. }
  assert (Ht : 0.4 <= 0.5) by lra.
  assert (Hc : first_crossing [1; 0.6; 0.3] 0.4 2).
  { split; [simpl; lia|]. split; [simpl; lra|].
    intros [|[|j]] Hj; simpl; try lra; lia. }
  split; [reflexivity|]. split; [exact Hm|]. split; [exact Ht|].
  split; [exact Hc|].
  apply (crossing_angle_antitone [0; 1; 2] [1; 0.6; 0.3] 0.4 0.5 2
           eq_refl Hm Ht Hc).
Defined.

(** ** The candidate directions of the dipole search *)

Section CandidateDirections.

Import Dipole.

Lemma IZR_num_dirs : IZR (Z.of_nat num_dirs) = 4000.
Proof. reflexivity. Qed.

Lemma INR_num_dirs : INR num_dirs = 4000.
Proof. rewrite INR_IZR_INZ. exact IZR_num_dirs. Qed.

Lemma fib_dir_third (k : nat) :
  snd (fib_dir k) = 1 - 2 * (INR k + 0.5) / 4000.
Proof.
  unfold fib_dir. cbn [snd]. now rewrite IZR_num_dirs, <- INR_IZR_INZ.
Qed.

Lemma fib_dir_range (k : nat) :
  (k < num_dirs)%nat -> -1 < snd (fib_dir k) < 1.
Proof.
  intros Hk. rewrite fib_dir_third.
  pose proof (pos_INR k) as H0.
  apply le_INR in Hk. rewrite S_INR, INR_num_dirs in Hk. lra.
Qed.

Lemma fib_dir_unit (k : nat) :
  (k < num_dirs)%nat -> dot (fib_dir k) (fib_dir k) = 1.
Proof.
  intros Hk. pose proof (fib_dir_range k Hk) as Hz.
  unfold fib_dir in *. cbn [snd] in Hz.
  set (z := 1 - 2 * (IZR (Z.of_nat k) + 0.5) / IZR (Z.of_nat num_dirs)) in *.
  set (lon := IZR (Z.of_nat k) * golden).
  cbn [dot].
  assert (Hr : sqrt (1 - z * z) * sqrt (1 - z * z) = 1 - z * z)
    by (apply sqrt_sqrt; nra).
  pose proof (sin2_cos2 lon) as Hsc. unfold Rsqr in Hsc.
  set (r := sqrt (1 - z * z)) in *.
  replace (r * cos lon * (r * cos lon) + r * sin lon * (r * sin lon) + z * z)
    with (r * r * (sin lon * sin lon + cos lon * cos lon) + z * z) by ring.
  rewrite Hsc, Hr. ring.
Qed.

Lemma fib_dir_inj (j k : nat) : fib_dir j = fib_dir k -> j = k.
Proof.
  intros H. apply (f_equal snd) in H. rewrite !fib_dir_third in H.
  apply INR_eq. lra.
Qed.

End CandidateDirections.

(** X22.  The search grid of [fit_dipole]: 4000 candidate directions, no
    two of them equal, each a unit vector (d . d = 1) with third
    coordinate strictly between -1 and 1, so that neither pole is a
    candidate. *)
Theorem candidate_directions :
  length Dipole.d_dirs = Dipole.num_dirs /\
  NoDup Dipole.d_dirs /\
  Forall (fun d => dot d d = 1 /\ -1 < snd d < 1) Dipole.d_dirs.
Proof.
  unfold Dipole.d_dirs. split; [now rewrite length_map, length_seq|].
  split.
  - apply NoDup_map_NoDup_ForallPairs; [|apply seq_NoDup].
    intros j k _ _. apply fib_dir_inj.
  - apply Forall_forall. intros d Hd.
    apply in_map_iff in Hd. destruct Hd as (k & <- & Hk).
    apply in_seq in Hk.
    split; [apply fib_dir_unit | apply fib_dir_range]; lia.
Qed.

(** ** The reported direction *)

Section ReportedDirection.

Import Dipole.

Lemma cos_period_Z (x : R) (n : Z) : cos (x + 2 * IZR n * PI) = cos x.
Proof.
  destruct (Z_le_gt_dec 0 n) as [Hn|Hn].
  - rewrite <- (Z2Nat.id n Hn), <- INR_IZR_INZ. apply cos_period.
  - rewrite <- (cos_period (x + 2 * IZR n * PI) (Z.to_nat (- n))).
    rewrite INR_IZR_INZ, Z2Nat.id by lia. rewrite opp_IZR. f_equal. ring.
Qed.

Lemma sin_period_Z (x : R) (n : Z) : sin (x + 2 * IZR n * PI) = sin x.
Proof.
  destruct (Z_le_gt_dec 0 n) as [Hn|Hn].
  - rewrite <- (Z2Nat.id n Hn), <- INR_IZR_INZ. apply sin_period.
  - rewrite <- (sin_period (x + 2 * IZR n * PI) (Z.to_nat (- n))).
    rewrite INR_IZR_INZ, Z2Nat.id by lia. rewrite opp_IZR. f_equal. ring.
Qed.

Lemma deg2rad_rad2deg (x : R) : np.deg2rad (np.rad2deg x) = x.
Proof.
  unfold np.deg2rad, np.rad2deg. pose proof PI_RGT_0. field. lra.
Qed.

Lemma deg2rad_fmod_360 (x : R) :
  exists n : Z, np.deg2rad (np.fmod (np.rad2deg x + 360) 360)
                = x + 2 * IZR n * PI.
Proof.
  exists (1 - Zfloor ((np.rad2deg x + 360) / 360))%Z.
  unfold np.fmod, np.deg2rad. rewrite minus_IZR.
  fold (np.deg2rad (np.rad2deg x)).
  set (k := IZR (Zfloor _)).
  replace ((np.rad2deg x + 360 - 360 * k) * (PI / 180))
    with (np.deg2rad (np.rad2deg x) + 2 * (1 - k) * PI)
    by (unfold np.deg2rad; field).
  now rewrite deg2rad_rad2deg.
Qed.

Lemma sqrt_one_plus_sqr (x y : R) :
  x <> 0 -> sqrt (1 + (y / x)²) = sqrt (x * x + y * y) / Rabs x.
Proof.
  intros Hx.
  replace (1 + (y / x)²) with ((x * x + y * y) / x²)
    by (unfold Rsqr; field; exact Hx).
  rewrite sqrt_div_alt by (apply Rsqr_pos_lt; exact Hx).
  now rewrite sqrt_Rsqr_abs.
Qed.

Lemma arctan2_cos_sin (x y : R) :
  0 < x * x + y * y ->
  cos (arctan2 y x) = x / sqrt (x * x + y * y) /\
  sin (arctan2 y x) = y / sqrt (x * x + y * y).
Proof.
  intros Hpos. set (r := sqrt (x * x + y * y)).
  assert (Hr : 0 < r) by (now apply sqrt_lt_R0).
  assert (Hrr : r * r = x * x + y * y) by (apply sqrt_sqrt; lra).
  unfold arctan2.
  destruct (Rltb 0 x) eqn:E1.
  { apply Rltb_true in E1.
    rewrite cos_atan, sin_atan, sqrt_one_plus_sqr by lra. fold r.
    rewrite Rabs_right by lra. split; field; lra. }
  apply Rltb_false in E1.
  destruct (Rltb x 0) eqn:E2.
  { apply Rltb_true in E2.
    assert (Hc : cos (atan (y / x)) = - x / r).
    { rewrite cos_atan, sqrt_one_plus_sqr by lra. fold r.
      rewrite Rabs_left by lra. field; lra. }
    assert (Hs : sin (atan (y / x)) = - y / r).
    { rewrite sin_atan, sqrt_one_plus_sqr by lra. fold r.
      rewrite Rabs_left by lra. field; lra. }
    destruct (Rleb 0 y).
    - rewrite neg_cos, neg_sin, Hc, Hs. split; field; lra.
    - unfold Rminus. rewrite cos_plus, sin_plus, cos_neg, sin_neg.
      rewrite cos_PI, sin_PI, Hc, Hs. split; field; lra. }
  apply Rltb_false in E2.
  assert (Hx : x = 0) by lra. subst x.
  assert (Hy2 : r * r = y * y) by lra.
  destruct (Rltb 0 y) eqn:E3.
  { apply Rltb_true in E3. rewrite cos_PI2, sin_PI2.
    assert (H : r = y) by nra. rewrite H.
    split; [unfold Rdiv; ring | field; lra]. }
  apply Rltb_false in E3.
  destruct (Rltb y 0) eqn:E4.
  { apply Rltb_true in E4. rewrite cos_neg, sin_neg, cos_PI2, sin_PI2.
    assert (H : r = - y) by nra. rewrite H.
    split; [unfold Rdiv; ring | field; lra]. }
  apply Rltb_false in E4. nra.
Qed.

Lemma direction_round_trip (d : vec3) :
  dot d d = 1 -> -1 < snd d < 1 ->
  to_unit_vector (reported_ra d) (reported_dec d) = d.
Proof.
  destruct d as [[dx dy] dz]. cbn [dot snd]. intros Hu Hz.
  unfold to_unit_vector, reported_ra, reported_dec, arcsin.
  rewrite deg2rad_rad2deg.
  destruct (deg2rad_fmod_360 (arctan2 dy dx)) as [n ->].
  rewrite cos_period_Z, sin_period_Z.
  rewrite sin_asin, cos_asin by lra.
  assert (Hxy : dx * dx + dy * dy = 1 - dz²) by (unfold Rsqr; lra).
  assert (Hpos : 0 < dx * dx + dy * dy) by (rewrite Hxy; unfold Rsqr; nra).
  destruct (arctan2_cos_sin dx dy Hpos) as [-> ->].
  rewrite <- Hxy.
  assert (Hr : 0 < sqrt (dx * dx + dy * dy)) by (now apply sqrt_lt_R0).
  f_equal. f_equal; field; lra.
Qed.

Lemma candidate_of_fields (nvecs : list vec3) (y w : list R) (m : R)
    (yc : list R) (d : vec3) :
  let c := snd (candidate_of nvecs y w m yc d) in
  c_d c = d /\
  c_yhat c = map (fun n => c_a c + c_b c * dot n d) nvecs.
Proof.
  unfold candidate_of. destruct lstsq as [a_c bb]. cbn [snd c_d c_yhat c_a c_b].
  split; [reflexivity|]. now rewrite map_map.
Qed.

Lemma reported_range (d : vec3) :
  -1 < snd d < 1 ->
  0 <= reported_ra d < 360 /\ -90 < reported_dec d < 90.
Proof.
  destruct d as [[dx dy] dz]. cbn [snd]. intros Hz.
  split; [apply fmod_360_range|].
  unfold reported_dec, arcsin, np.rad2deg.
  pose proof (asin_bound_lt dz Hz) as Hb. pose proof PI_RGT_0 as Hpi.
  assert (H180 : 0 < 180 / PI) by (apply Rdiv_lt_0_compat; lra).
  assert (L : - (PI / 2) * (180 / PI) < asin dz * (180 / PI))
    by (apply Rmult_lt_compat_r; lra).
  assert (U : asin dz * (180 / PI) < PI / 2 * (180 / PI))
    by (apply Rmult_lt_compat_r; lra).
  replace (- (PI / 2) * (180 / PI)) with (-90) in L by (field; lra).
  replace (PI / 2 * (180 / PI)) with 90 in U by (field; lra).
  now split.
Qed.

(** The best candidate, with the direction it belongs to. *)
Lemma fit_dipole_best (nvecs : list vec3) (y : list R) (w : option (list R)) :
  let wt := default_weights w (length y) in
  let m := np.sum (np.zip_with Rmult y wt) / np.sum wt in
  length nvecs = length y -> length wt = length y -> np.sum wt <> 0 ->
  exists k ss_best c,
    (k < num_dirs)%nat /\
    (ss_best, c) = candidate_of nvecs y wt m (map (fun v => v - m) y)
                     (fib_dir k) /\
    (forall j, (j < num_dirs)%nat ->
       ss_best <= fst (candidate_of nvecs y wt m (map (fun v => v - m) y)
                         (fib_dir j))) /\
    fit_dipole nvecs y w =
      Ok (mkFit (c_a c) (c_b c) (reported_ra (fib_dir k))
            (reported_dec (fib_dir k))
            (if Rgtb (weighted_ss wt y m) 0
             then Num (1 - ss_best / weighted_ss wt y m) else NaN),
          c_yhat c).
Proof.
  intros wt m Hn Hw Hs.
  destruct (fit_dipole_value nvecs y w Hn Hw Hs) as (ssb & c & Hbest & Hfit).
  destruct (best_candidate nvecs y w) as (c' & Hbest' & Hin & Hleast).
  fold wt in Hbest, Hbest', Hin, Hleast, Hfit.
  fold m in Hbest, Hbest', Hin, Hleast, Hfit.
  rewrite Hbest in Hbest'. injection Hbest' as <-.
  apply in_map_iff in Hin. destruct Hin as (d & Hd & Hind).
  unfold d_dirs in Hind. apply in_map_iff in Hind.
  destruct Hind as (k & <- & Hk). apply in_seq in Hk.
  exists k, ssb, c. split; [lia|]. split; [now rewrite Hd|]. split.
  - intros j Hj.
    apply (Hleast (candidate_of nvecs y wt m (map (fun v => v - m) y)
                     (fib_dir j))).
    apply in_map. unfold d_dirs. apply in_map. apply in_seq. lia.
  - rewrite Hfit.
    pose proof (candidate_of_fields nvecs y wt m (map (fun v => v - m) y)
                  (fib_dir k)) as Hf.
    rewrite Hd in Hf. cbn [snd] in Hf. destruct Hf as [Hcd _].
    rewrite Hcd. unfold reported_ra, reported_dec.
    destruct (fib_dir k) as [[dx dy] dz]. reflexivity.
Qed.

End ReportedDirection.

(** X23.  What [fit_dipole] does on arrays of finite numbers of moderate
    size (direction vectors not longer than 1, values and weights of size
    at most 10^50) and of any lengths, with the weights that are in force
    (ones when none are given): [TypeError] when there are not as many
    weights as values; else [ZeroDivisionError] when the weights sum to
    zero (so on an empty sample); else [ValueError] when there are not as
    many direction vectors as values; else a result, with one prediction
    per value, right ascension in [0, 360) and declination strictly between
    -90 and 90.  (Entries that are not finite, on which [np.linalg.lstsq]
    raises [LinAlgError], are outside this analysis.) *)
Theorem fit_dipole_outcomes (nvecs : list vec3) (y : list R)
    (w : option (list R))
    (Hsize : moderate_fit_input nvecs y
               (Dipole.default_weights w (length y))) :
  let wt := Dipole.default_weights w (length y) in
  match Dipole.fit_dipole nvecs y w with
  | Err TypeError => length wt <> length y
  | Err ZeroDivisionError => length wt = length y /\ np.sum wt = 0
  | Err ValueError =>
      length wt = length y /\ np.sum wt <> 0 /\ length nvecs <> length y
  | Err IndexError => False
  | Ok (res, yhat) =>
      length wt = length y /\ np.sum wt <> 0 /\ length nvecs = length y /\
      length yhat = length y /\
      0 <= Dipole.ra res < 360 /\ -90 < Dipole.dec res < 90
  end.
Proof.
  intros wt.
  destruct (Nat.eq_dec (length wt) (length y)) as [Hw|Hw].
  2:{ assert (E : Dipole.fit_dipole nvecs y w = Err TypeError).
      { unfold Dipole.fit_dipole, Dipole.average. fold wt.
        replace (length y =? length wt)%nat with false
          by (symmetry; apply Nat.eqb_neq; congruence).
        reflexivity. }
      now rewrite E. }
  destruct (Req_dec (np.sum wt) 0) as [Hs|Hs].
  { assert (E : Dipole.fit_dipole nvecs y w = Err ZeroDivisionError).
    { unfold Dipole.fit_dipole, Dipole.average. fold wt.
      rewrite <- Hw, Nat.eqb_refl. cbn [negb].
      rewrite Reqb_intro_true by exact Hs. reflexivity. }
    now rewrite E. }
  destruct (Nat.eq_dec (length nvecs) (length y)) as [Hn|Hn].
  2:{ assert (E : Dipole.fit_dipole nvecs y w = Err ValueError).
      { unfold Dipole.fit_dipole. fold wt.
        rewrite (average_ok y wt Hw Hs). cbn [bind].
        rewrite d_dirs_cons. cbn [Dipole.search].
        unfold Dipole.fit_candidate.
        replace (length nvecs =? length y)%nat with false
          by (symmetry; now apply Nat.eqb_neq).
        reflexivity. }
      now rewrite E. }
  destruct (fit_dipole_best nvecs y w Hn Hw Hs)
    as (k & ssb & c & Hk & Hc & _ & ->).
  pose proof (candidate_of_fields nvecs y wt
                (np.sum (np.zip_with Rmult y wt) / np.sum wt)
                (map (fun v => v - np.sum (np.zip_with Rmult y wt)
                                   / np.sum wt) y)
                (Dipole.fib_dir k)) as Hf.
  fold wt in Hc. rewrite <- Hc in Hf. cbn [snd] in Hf.
  destruct Hf as [_ Hyh].
  cbn [Dipole.ra Dipole.dec].
  split; [exact Hw|]. split; [exact Hs|]. split; [exact Hn|].
  split; [now rewrite Hyh, length_map|].
  apply reported_range. now apply fib_dir_range.
Qed.

Lemma fit_dipole_outcomes_witness :
  moderate_fit_input [(1, 0, 0); (0, 1, 0)] [1; 2] [1; 1; 1] /\
  Dipole.fit_dipole [(1, 0, 0); (0, 1, 0)] [1; 2] (Some [1; 1; 1])
    = Err TypeError.
Proof.
  assert (H1 : 1 <= 10 ^ 50) by (apply pow_R1_Rle; lra).
  assert (H2 : 10 ^ 2 <= 10 ^ 50) by (apply Rle_pow; [lra | lia]).
  simpl in H2.
  assert (Hsize : moderate_fit_input [(1, 0, 0); (0, 1, 0)] [1; 2]
                    [1; 1; 1]).
  { repeat split;
      repeat (apply Forall_cons;
              [try (cbn [dot]; lra); rewrite Rabs_right by lra; lra|]);
      apply Forall_nil. }
  split; [exact Hsize|].
  pose proof (fit_dipole_outcomes [(1, 0, 0); (0, 1, 0)] [1; 2]
                (Some [1; 1; 1]) Hsize) as H.
  cbv zeta in H.
  destruct (Dipole.fit_dipole [(1, 0, 0); (0, 1, 0)] [1; 2]
              (Some [1; 1; 1])) as [[res yhat]|[ | | | ]].
  - destruct H as [H _]. discriminate H.
  - destruct H as [H _]. discriminate H.
  - reflexivity.
  - destruct H as [H _]. discriminate H.
  - destruct H.
Defined.

(** X24.  The result of a successful fit is consistent with the model
    y = a + b (n . d): the reported right ascension and declination,
    converted back to a unit vector as [sph_to_cart] converts a sky
    position, give one of the candidate directions, and the returned
    prediction of every sample is a + b times the projection of its
    direction vector on that direction. *)
Theorem fit_dipole_model_equation (nvecs : list vec3) (y : list R)
    (w : option (list R))
    (Hn : length nvecs = length y)
    (Hw : length (Dipole.default_weights w (length y)) = length y)
    (Hs : np.sum (Dipole.default_weights w (length y)) <> 0) :
  exists res yhat,
    Dipole.fit_dipole nvecs y w = Ok (res, yhat) /\
    In (to_unit_vector (Dipole.ra res) (Dipole.dec res)) Dipole.d_dirs /\
    yhat = map (fun n => Dipole.a res + Dipole.b res *
                         dot n (to_unit_vector (Dipole.ra res)
                                               (Dipole.dec res))) nvecs.
Proof.
  destruct (fit_dipole_best nvecs y w Hn Hw Hs)
    as (k & ssb & c & Hk & Hc & _ & Hfit).
  set (wt := Dipole.default_weights w (length y)) in *.
  pose proof (candidate_of_fields nvecs y wt
                (np.sum (np.zip_with Rmult y wt) / np.sum wt)
                (map (fun v => v - np.sum (np.zip_with Rmult y wt)
                                   / np.sum wt) y)
                (Dipole.fib_dir k)) as Hf.
  rewrite <- Hc in Hf. cbn [snd] in Hf. destruct Hf as [_ Hyh].
  eexists _, _. split; [exact Hfit|].
  cbn [Dipole.ra Dipole.dec Dipole.a Dipole.b].
  rewrite direction_round_trip
    by (try apply fib_dir_unit; try apply fib_dir_range; exact Hk).
  split; [|exact Hyh].
  unfold Dipole.d_dirs. apply in_map. apply in_seq. lia.
Qed.

Lemma fit_dipole_model_equation_witness :
  length [(1, 0, 0); (0, 1, 0)] = length [1; 2] /\
  length (Dipole.default_weights None (length [1; 2])) = length [1; 2] /\
  np.sum (Dipole.default_weights None (length [1; 2])) <> 0 /\
  exists res yhat,
    Dipole.fit_dipole [(1, 0, 0); (0, 1, 0)] [1; 2] None = Ok (res, yhat) /\
    In (to_unit_vector (Dipole.ra res) (Dipole.dec res)) Dipole.d_dirs /\
    yhat = map (fun n => Dipole.a res + Dipole.b res *
                         dot n (to_unit_vector (Dipole.ra res)
                                               (Dipole.dec res)))
             [(1, 0, 0); (0, 1, 0)].
Proof.
  assert (Hs : np.sum (Dipole.default_weights None (length [1; 2])) <> 0)
    by (simpl; lra).
  split; [reflexivity|]. split; [reflexivity|]. split; [exact Hs|].
  apply (fit_dipole_model_equation [(1, 0, 0); (0, 1, 0)] [1; 2] None
           eq_refl eq_refl Hs).
Defined.

(** ** The least-squares step and R^2 *)

Section LeastSquares.

Import Dipole.

Lemma residual_ss_expand (A : list (R * R)) (c : list R) (p q : R) :
  length A = length c ->
  residual_ss A c p q =
    np.sum (np.zip_with Rmult c c)
    - 2 * p * np.sum (np.zip_with Rmult (map fst A) c)
    - 2 * q * np.sum (np.zip_with Rmult (map snd A) c)
    + p * p * np.sum (np.zip_with Rmult (map fst A) (map fst A))
    + 2 * p * q * np.sum (np.zip_with Rmult (map fst A) (map snd A))
    + q * q * np.sum (np.zip_with Rmult (map snd A) (map snd A)).
Proof.
  unfold residual_ss, np.sum. revert c.
  induction A as [|[u v] A IH]; intros [|ci c] Hl; simpl in *;
    try discriminate; [ring|].
  rewrite IH by lia. ring.
Qed.

Lemma gram_form_nonneg (A : list (R * R)) (p q : R) :
  0 <= p * p * np.sum (np.zip_with Rmult (map fst A) (map fst A))
       + 2 * p * q * np.sum (np.zip_with Rmult (map fst A) (map snd A))
       + q * q * np.sum (np.zip_with Rmult (map snd A) (map snd A)).
Proof.
  unfold np.sum. induction A as [|[u v] A IH]; simpl; [lra|].
  match goal with |- 0 <= ?e =>
    match type of IH with 0 <= ?f =>
      replace e with ((p * u + q * v) * (p * u + q * v) + f) by ring
    end
  end.
  apply Rplus_le_le_0_compat; [|exact IH].
  exact (Rle_0_sqr (p * u + q * v)).
Qed.

(** The solution [lstsq] returns leaves no more residual than the zero
    solution. *)
Lemma lstsq_no_worse (A : list (R * R)) (c : list R) :
  length A = length c ->
  residual_ss A c (fst (lstsq A c)) (snd (lstsq A c))
  <= np.sum (np.zip_with Rmult c c).
Proof.
  intros Hl. rewrite residual_ss_expand by exact Hl.
  unfold lstsq.
  set (uu := np.sum (np.zip_with Rmult (map fst A) (map fst A))).
  set (uv := np.sum (np.zip_with Rmult (map fst A) (map snd A))).
  set (vv := np.sum (np.zip_with Rmult (map snd A) (map snd A))).
  set (uc := np.sum (np.zip_with Rmult (map fst A) c)).
  set (vc := np.sum (np.zip_with Rmult (map snd A) c)).
  set (cc := np.sum (np.zip_with Rmult c c)).
  assert (Hform : forall p q,
            0 <= p * p * uu + 2 * p * q * uv + q * q * vv)
    by (intros p q; apply gram_form_nonneg).
  destruct (Reqb (uu * vv - uv * uv) 0) eqn:Edet; cbn [negb].
  - destruct (Reqb (uu + vv) 0) eqn:ET; cbn [negb fst snd].
    + lra.
    + apply Reqb_false in ET.
      pose proof (Hform 1 0) as Huu. pose proof (Hform 0 1) as Hvv.
      assert (HT : 0 < uu + vv) by lra.
      pose proof (Hform vc (- uc)) as Hq.
      set (T := uu + vv) in *.
      assert (Hi : 0 < / T) by now apply Rinv_0_lt_compat.
      assert (E : - 2 * (uc / T) * uc - 2 * (vc / T) * vc
                  + uc / T * (uc / T) * uu + 2 * (uc / T) * (vc / T) * uv
                  + vc / T * (vc / T) * vv
                  = - ((uc * uc + vc * vc) / T)
                    - (vc * vc * uu + 2 * vc * - uc * uv + - uc * - uc * vv)
                      / (T * T)).
      { unfold T. field. unfold T in HT. lra. }
      assert (H1 : 0 <= (uc * uc + vc * vc) / T)
        by (apply Rmult_le_pos; [nra | lra]).
      assert (H2 : 0 <= (vc * vc * uu + 2 * vc * - uc * uv
                         + - uc * - uc * vv) / (T * T)).
      { apply Rmult_le_pos; [exact Hq|].
        left. apply Rinv_0_lt_compat. nra. }
      lra.
  - apply Reqb_false in Edet. cbn [fst snd].
    set (det := uu * vv - uv * uv) in *.
    set (p := (vv * uc - uv * vc) / det).
    set (q := (uu * vc - uv * uc) / det).
    assert (N1 : uu * p + uv * q = uc) by (unfold p, q, det; field; exact Edet).
    assert (N2 : uv * p + vv * q = vc) by (unfold p, q, det; field; exact Edet).
    pose proof (Hform p q) as Hq.
    replace (cc - 2 * p * uc - 2 * q * vc + p * p * uu + 2 * p * q * uv
             + q * q * vv)
      with (cc - (p * p * uu + 2 * p * q * uv + q * q * vv)).
    + lra.
    + rewrite <- N1, <- N2. ring.
Qed.

Lemma unit_weight_residuals (nvecs : list vec3) (y : list R) (m : R)
    (d : vec3) (p q : R) :
  length nvecs = length y ->
  let ndot := map (fun n => dot n d) nvecs in
  let w := ones (length y) in
  let WX := np.zip_with (fun x wi => (fst x * wi, snd x * wi))
              (combine (ones (length y)) ndot) w in
  let Wy := np.zip_with Rmult (map (fun v => v - m) y) w in
  np.sum (np.zip_with Rmult w
            (map (fun e => e ^ 2)
               (np.zip_with Rminus y
                  (map (fun nd => p + m + q * nd) ndot))))
    = residual_ss WX Wy p q /\
  weighted_ss w y m = np.sum (np.zip_with Rmult Wy Wy) /\
  length WX = length Wy.
Proof.
  unfold residual_ss, weighted_ss, np.sum, ones. revert nvecs.
  induction y as [|yi y IH]; intros [|n nvecs] Hl; simpl in *;
    try discriminate; [repeat split; reflexivity|].
  destruct (IH nvecs ltac:(lia)) as (E1 & E2 & E3).
  rewrite E1, E2, E3. repeat split; ring.
Qed.

Lemma candidate_unit_weights (nvecs : list vec3) (y : list R) (m : R)
    (d : vec3) :
  length nvecs = length y ->
  fst (candidate_of nvecs y (ones (length y)) m (map (fun v => v - m) y) d)
  <= weighted_ss (ones (length y)) y m.
Proof.
  intros Hl. unfold candidate_of.
  set (ndot := map (fun n => dot n d) nvecs).
  set (WX := np.zip_with _ (combine _ ndot) _).
  set (Wy := np.zip_with Rmult _ _).
  pose proof (unit_weight_residuals nvecs y m d
                (fst (lstsq WX Wy)) (snd (lstsq WX Wy)) Hl) as H.
  cbv zeta in H. fold ndot in H. fold WX in H. fold Wy in H.
  destruct H as (E1 & E2 & E3).
  pose proof (lstsq_no_worse WX Wy E3) as Hle.
  destruct (lstsq WX Wy) as [a_c bb]. cbn [fst snd] in *.
  rewrite E1, E2. exact Hle.
Qed.

End LeastSquares.

(** X25.  Bounds on the R^2 of a fit on which the weighted mean is
    defined.  With weights that are all non-negative, R^2 is not-a-number
    or a number that is at most 1.  With unit weights (no weights given, or
    the ones that [main] falls back to), it is not-a-number or a number
    between 0 and 1: the least-squares step leaves no more residual than
    the constant model. *)
Theorem fit_dipole_r2_bounds (nvecs : list vec3) (y : list R)
    (w : option (list R))
    (Hn : length nvecs = length y)
    (Hw : length (Dipole.default_weights w (length y)) = length y)
    (Hs : np.sum (Dipole.default_weights w (length y)) <> 0) :
  exists res yhat,
    Dipole.fit_dipole nvecs y w = Ok (res, yhat) /\
    (Forall (fun x => 0 <= x) (Dipole.default_weights w (length y)) ->
     Dipole.r2 res = NaN \/ exists v, Dipole.r2 res = Num v /\ v <= 1) /\
    (Dipole.default_weights w (length y) = Dipole.ones (length y) ->
     Dipole.r2 res = NaN \/
     exists v, Dipole.r2 res = Num v /\ 0 <= v <= 1).
Proof.
  destruct (fit_dipole_best nvecs y w Hn Hw Hs)
    as (k & ssb & c & Hk & Hc & _ & Hfit).
  set (wt := Dipole.default_weights w (length y)) in *.
  set (m := np.sum (np.zip_with Rmult y wt) / np.sum wt) in *.
  eexists _, _. split; [exact Hfit|]. cbn [Dipole.r2].
  assert (Hssb : ssb = fst (Dipole.candidate_of nvecs y wt m
                              (map (fun v => v - m) y) (Dipole.fib_dir k)))
    by now rewrite <- Hc.
  assert (Hnonneg : Forall (fun x => 0 <= x) wt -> 0 <= ssb).
  { intros Hpos. rewrite Hssb, candidate_ss.
    now apply weighted_ss_nonneg. }
  assert (Hratio : forall t, 0 < t -> 0 <= ssb -> 0 <= ssb / t).
  { intros t Ht H0. apply Rmult_le_pos; [exact H0|].
    left. now apply Rinv_0_lt_compat. }
  unfold Rgtb. destruct (Rltb 0 (Dipole.weighted_ss wt y m)) eqn:E.
  2:{ split; intros _; now left. }
  apply Rltb_true in E. split.
  - intros Hpos. right. eexists. split; [reflexivity|].
    pose proof (Hratio _ E (Hnonneg Hpos)). lra.
  - intros Hones. right. eexists. split; [reflexivity|].
    assert (Hpos : Forall (fun x => 0 <= x) wt).
    { rewrite Hones. unfold Dipole.ones. apply Forall_forall.
      intros x Hx. apply repeat_spec in Hx. lra. }
    pose proof (Hratio _ E (Hnonneg Hpos)) as H0.
    assert (Hle : ssb <= Dipole.weighted_ss wt y m).
    { rewrite Hssb. clearbody m. rewrite Hones in *.
      now apply candidate_unit_weights. }
    assert (ssb / Dipole.weighted_ss wt y m <= 1).
    { apply Rmult_le_reg_r with (Dipole.weighted_ss wt y m); [exact E|].
      unfold Rdiv. rewrite Rmult_assoc, Rinv_l by lra. lra. }
    lra.
Qed.

Lemma fit_dipole_r2_bounds_witness :
  length [(1, 0, 0); (0, 1, 0)] = length [1; 2] /\
  length (Dipole.default_weights None (length [1; 2])) = length [1; 2] /\
  np.sum (Dipole.default_weights None (length [1; 2])) <> 0 /\
  exists res yhat,
    Dipole.fit_dipole [(1, 0, 0); (0, 1, 0)] [1; 2] None = Ok (res, yhat) /\
    (Dipole.r2 res = NaN \/
     exists v, Dipole.r2 res = Num v /\ 0 <= v <= 1).
Proof.
  assert (Hs : np.sum (Dipole.default_weights None (length [1; 2])) <> 0)
    by (simpl; lra).
  split; [reflexivity|]. split; [reflexivity|]. split; [exact Hs|].
  destruct (fit_dipole_r2_bounds [(1, 0, 0); (0, 1, 0)] [1; 2] None
              eq_refl eq_refl Hs) as (res & yhat & Hfit & _ & Hunit).
  exists res, yhat. split; [exact Hfit|]. apply Hunit. reflexivity.
Defined.

(** ** Range and monotonicity of the permutation p-value *)

Section PermutationValue.

Import Dipole.

Variable G : Generator.

Lemma perm_loop_bounds (k : nat) :
  forall (g : rng G) (cnt c : Z) nvecs y w obs_b,
  perm_loop G k g cnt nvecs y w obs_b = Ok c ->
  (cnt <= c <= cnt + Z.of_nat k)%Z.
Proof.
  induction k as [|k IH]; intros g cnt c nvecs y w obs_b H.
  - simpl in H. injection H as <-. lia.
  - cbn [perm_loop] in H.
    destruct (permutation G g (length y)) as [idx g'].
    destruct (take nvecs idx) as [nv|e]; [|discriminate].
    cbn [bind] in H.
    destruct (fit_dipole nv y w) as [[res yh]|e]; [|discriminate].
    cbn [bind fst] in H. apply IH in H.
    destruct (Rgeb (Rabs (b res)) (Rabs obs_b)); lia.
Qed.

Lemma perm_loop_antitone (k : nat) :
  forall (g : rng G) (c1 c2 r1 : Z) nvecs y w obs1 obs2,
  Rabs obs1 <= Rabs obs2 -> (c2 <= c1)%Z ->
  perm_loop G k g c1 nvecs y w obs1 = Ok r1 ->
  exists r2, perm_loop G k g c2 nvecs y w obs2 = Ok r2 /\ (r2 <= r1)%Z.
Proof.
  induction k as [|k IH]; intros g c1 c2 r1 nvecs y w obs1 obs2 Ho Hc H.
  - simpl in *. injection H as <-. eauto.
  - cbn [perm_loop] in *.
    destruct (permutation G g (length y)) as [idx g'].
    destruct (take nvecs idx) as [nv|e]; [|discriminate].
    cbn [bind] in *.
    destruct (fit_dipole nv y w) as [[res yh]|e]; [|discriminate].
    cbn [bind fst] in *.
    refine (IH g' _ _ r1 nvecs y w obs1 obs2 Ho _ H).
    destruct (Rgeb (Rabs (b res)) (Rabs obs2)) eqn:E2.
    + apply Rleb_true in E2.
      unfold Rgeb. rewrite Rleb_intro_true by lra. lia.
    + destruct (Rgeb (Rabs (b res)) (Rabs obs1)); lia.
Qed.

End PermutationValue.

(** The test on a single sample with the reversing source: every
    iteration fits the amplitude 0. *)
Lemma pval_one_sample (obs_b : R) :
  Dipole.permutation_pval flip_generator [(1, 0, 0)] [5] None obs_b 2 0 =
  Ok (if Rgeb (Rabs 0) (Rabs obs_b) then 1 else 1 / 3).
Proof.
  assert (Hfit : Dipole.fit_dipole [(1, 0, 0)] [5] None =
                 Ok (Dipole.mkFit 5 0 0
                       (np.rad2deg (Dipole.arcsin z0)) NaN, [5])).
  { apply (fit_dipole_one_sample (1, 0, 0) 5 None). reflexivity. }
  unfold Dipole.permutation_pval.
  change (Z.to_nat 2) with 2%nat.
  rewrite (perm_loop_step flip_generator 1
             (Dipole.default_rng flip_generator 0) 1%nat 0
             [(1, 0, 0)] [(1, 0, 0)] [5] None obs_b [0%nat]
             _ _ eq_refl eq_refl Hfit).
  rewrite (perm_loop_step flip_generator 0 1%nat 2%nat _
             [(1, 0, 0)] [(1, 0, 0)] [5] None obs_b [0%nat]
             _ _ eq_refl eq_refl Hfit).
  cbn [Dipole.perm_loop bind Dipole.b].
  change (2 + 1 =? 0)%Z with false. cbv iota.
  destruct (Rgeb (Rabs 0) (Rabs obs_b)); f_equal; simpl; lra.
Qed.

(** X26.  For [nperm >= 0], whatever the random source draws, a p-value
    that [permutation_pval] returns lies between 1 / (nperm + 1) and 1:
    it is never zero. *)
Theorem permutation_pval_range (G : Dipole.Generator) (nvecs : list vec3)
    (y : list R) (w : option (list R)) (obs_b : R) (nperm seed : Z) (p : R)
    (Hnperm : (0 <= nperm)%Z)
    (Hp : Dipole.permutation_pval G nvecs y w obs_b nperm seed = Ok p) :
  1 / IZR (nperm + 1) <= p <= 1.
Proof.
  unfold Dipole.permutation_pval in Hp.
  destruct (Dipole.perm_loop G (Z.to_nat nperm) (Dipole.default_rng G seed)
              0 nvecs y w obs_b) as [c|e] eqn:E; [|discriminate].
  cbn [bind] in Hp.
  replace (nperm + 1 =? 0)%Z with false in Hp
    by (symmetry; apply Z.eqb_neq; lia).
  injection Hp as <-.
  apply perm_loop_bounds in E. rewrite Z2Nat.id in E by lia.
  assert (Hd : 0 < IZR (nperm + 1)) by (apply IZR_lt; lia).
  assert (H1 : 1 <= IZR (c + 1)) by (apply IZR_le; lia).
  assert (H2 : IZR (c + 1) <= IZR (nperm + 1)) by (apply IZR_le; lia).
  split.
  - unfold Rdiv. apply Rmult_le_compat_r; [|exact H1].
    left. now apply Rinv_0_lt_compat.
  - apply Rmult_le_reg_r with (IZR (nperm + 1)); [exact Hd|].
    unfold Rdiv. rewrite Rmult_assoc, Rinv_l by lra. lra.
Qed.

Lemma permutation_pval_range_witness :
  (0 <= 2)%Z /\
  Dipole.permutation_pval flip_generator [(1, 0, 0)] [5] None 1 2 0
    = Ok (1 / 3) /\
  1 / IZR (2 + 1) <= 1 / 3 <= 1.
Proof.
  assert (Hn : (0 <= 2)%Z) by lia.
  assert (Hp : Dipole.permutation_pval flip_generator [(1, 0, 0)] [5] None
                 1 2 0 = Ok (1 / 3)).
  { rewrite pval_one_sample. unfold Rgeb.
    rewrite Rleb_intro_false by (rewrite Rabs_R0, Rabs_R1; lra).
    reflexivity. }
  split; [exact Hn|]. split; [exact Hp|].
  apply (permutation_pval_range flip_generator [(1, 0, 0)] [5] None 1 2 0
           _ Hn Hp).
Defined.

(** X27.  With [nperm <= 0] the loop body never runs: no permutation is
    drawn and nothing is fitted, so the outcome does not depend on the
    data.  A negative seed is refused with [ValueError]; with a seed >= 0,
    [nperm = 0] gives the p-value 1, [nperm = -1] raises
    [ZeroDivisionError], and [nperm < -1] gives 1 / (nperm + 1), a negative
    number in [-1, 0). *)
Theorem permutation_pval_without_iterations (G : Dipole.Generator)
    (nvecs : list vec3) (y : list R) (w : option (list R)) (obs_b : R)
    (nperm seed : Z) (s : Process.sources G) (Hnperm : (nperm <= 0)%Z) :
  ((seed < 0)%Z ->
   fst (Process.permutation_pval G nvecs y w obs_b nperm seed s)
     = Err ValueError) /\
  ((0 <= seed)%Z ->
   (nperm = 0%Z ->
    fst (Process.permutation_pval G nvecs y w obs_b nperm seed s) = Ok 1) /\
   (nperm = (-1)%Z ->
    fst (Process.permutation_pval G nvecs y w obs_b nperm seed s)
      = Err ZeroDivisionError) /\
   ((nperm < -1)%Z ->
    fst (Process.permutation_pval G nvecs y w obs_b nperm seed s)
      = Ok (1 / IZR (nperm + 1)) /\
    -1 <= 1 / IZR (nperm + 1) < 0)).
Proof.
  assert (Hk : Z.to_nat nperm = 0%nat) by lia.
  unfold Process.permutation_pval, Process.default_rng. rewrite Hk.
  split.
  { intros Hseed. now replace (seed <? 0)%Z with true
      by (symmetry; now apply Z.ltb_lt). }
  intros Hseed. replace (seed <? 0)%Z with false
    by (symmetry; apply Z.ltb_ge; lia).
  cbn [Process.perm_loop].
  split; [|split].
  - intros ->. change (0 + 1 =? 0)%Z with false. cbv iota. cbn [fst].
    f_equal. simpl. field.
  - intros ->. reflexivity.
  - intros Hlt.
    replace (nperm + 1 =? 0)%Z with false
      by (symmetry; apply Z.eqb_neq; lia).
    split; [reflexivity|].
    assert (Hd : IZR (nperm + 1) <= -1) by (apply IZR_le; lia).
    assert (Hi : / IZR (nperm + 1) < 0) by (apply Rinv_lt_0_compat; lra).
    split; [|lra].
    assert (Hm : - IZR (nperm + 1) * / IZR (nperm + 1) = -1)
      by (field; lra).
    nra.
Qed.

Lemma permutation_pval_without_iterations_witness :
  (-1 <= 0)%Z /\
  fst (Process.permutation_pval flip_generator [] [] None 0 (-1) 0
         busy_process) = Err ZeroDivisionError /\
  fst (Process.permutation_pval flip_generator [] [] None 0 (-1) (-1)
         busy_process) = Err ValueError.
Proof.
  split; [lia|]. split.
  - apply (permutation_pval_without_iterations flip_generator [] [] None 0
             (-1) 0 busy_process); [lia | lia | reflexivity].
  - apply (permutation_pval_without_iterations flip_generator [] [] None 0
             (-1) (-1) busy_process); lia.
Defined.

(** X28.  The p-value does not increase with the size of the observed
    amplitude: with the same data, source and seed and [nperm >= 0], if the
    test returns p1 for obs1 and |obs1| <= |obs2|, it returns some
    p2 <= p1 for obs2. *)
Theorem permutation_pval_antitone (G : Dipole.Generator) (nvecs : list vec3)
    (y : list R) (w : option (list R)) (obs1 obs2 : R) (nperm seed : Z)
    (p1 : R)
    (Hnperm : (0 <= nperm)%Z)
    (Hobs : Rabs obs1 <= Rabs obs2)
    (Hp : Dipole.permutation_pval G nvecs y w obs1 nperm seed = Ok p1) :
  exists p2,
    Dipole.permutation_pval G nvecs y w obs2 nperm seed = Ok p2 /\ p2 <= p1.
Proof.
  unfold Dipole.permutation_pval in *.
  destruct (Dipole.perm_loop G (Z.to_nat nperm) (Dipole.default_rng G seed)
              0 nvecs y w obs1) as [c1|e] eqn:E; [|discriminate].
  cbn [bind] in Hp.
  destruct (perm_loop_antitone G (Z.to_nat nperm) (Dipole.default_rng G seed)
              0 0 c1 nvecs y w obs1 obs2 Hobs (Z.le_refl 0) E)
    as (c2 & -> & Hc).
  cbn [bind].
  replace (nperm + 1 =? 0)%Z with false in *
    by (symmetry; apply Z.eqb_neq; lia).
  injection Hp as <-. eexists. split; [reflexivity|].
  assert (Hd : 0 < IZR (nperm + 1)) by (apply IZR_lt; lia).
  unfold Rdiv. apply Rmult_le_compat_r.
  - left. now apply Rinv_0_lt_compat.
  - apply IZR_le. lia.
Qed.

Lemma permutation_pval_antitone_witness :
  (0 <= 2)%Z /\ Rabs 0 <= Rabs 1 /\
  Dipole.permutation_pval flip_generator [(1, 0, 0)] [5] None 0 2 0
    = Ok 1 /\
  exists p2,
    Dipole.permutation_pval flip_generator [(1, 0, 0)] [5] None 1 2 0
      = Ok p2 /\
    p2 <= 1.
Proof.
  assert (Hn : (0 <= 2)%Z) by lia.
  assert (Ho : Rabs 0 <= Rabs 1) by (rewrite Rabs_R0, Rabs_R1; lra).
  assert (Hp : Dipole.permutation_pval flip_generator [(1, 0, 0)] [5] None
                 0 2 0 = Ok 1).
  { rewrite pval_one_sample. unfold Rgeb.
    rewrite Rleb_intro_true by lra. reflexivity. }
  split; [exact Hn|]. split; [exact Ho|]. split; [exact Hp|].
  apply (permutation_pval_antitone flip_generator [(1, 0, 0)] [5] None
           0 1 2 0 _ Hn Ho Hp).
Defined.

(** ** Weights of [main] *)

Section MainWeights.

Import Dipole.

Variables lo hi : R.
Hypothesis Hlo : 0 < lo.
Hypothesis Hhi : lo <= hi.

Lemma insert_sorted_Forall (P : fval -> Prop) (x : fval) (l : list fval) :
  P x -> Forall P l -> Forall P (insert_sorted x l).
Proof.
  intros Hx. induction 1 as [|h t Hh Ht IH]; simpl.
  - now constructor.
  - destruct (fleb x h); repeat constructor; auto.
Qed.

Lemma sort_Forall (P : fval -> Prop) (l : list fval) :
  Forall P l -> Forall P (sort l).
Proof.
  induction 1 as [|h t Hh Ht IH]; simpl; [constructor|].
  now apply insert_sorted_Forall.
Qed.

Lemma insert_sorted_length (x : fval) (l : list fval) :
  length (insert_sorted x l) = S (length l).
Proof.
  induction l as [|h t IH]; simpl; auto.
  destruct (fleb x h); simpl; auto.
Qed.

Lemma sort_length (l : list fval) : length (sort l) = length l.
Proof.
  induction l as [|h t IH]; simpl; auto.
  now rewrite insert_sorted_length, IH.
Qed.

Lemma mask_invalid_cells (err : list fval) :
  Forall (fun v => forall x, v = Num x -> 0 < x -> lo <= x <= hi) err ->
  Forall (fun v => v = NaN \/ bounded_cell lo hi v) (mask_invalid err).
Proof.
  intros Herr. unfold mask_invalid. apply Forall_forall. intros v Hv.
  apply in_map_iff in Hv. destruct Hv as (e & <- & He).
  pose proof (proj1 (Forall_forall _ _) Herr e He) as Hrange.
  destruct e as [x| | |]; cbn [isfinite fle0 negb orb]; auto.
  destruct (Rleb x 0) eqn:E; auto.
  apply Rleb_false in E. right. exists x. split; [reflexivity|].
  now apply Hrange.
Qed.

Lemma kept_bounded (a : list fval) :
  Forall (fun v => v = NaN \/ bounded_cell lo hi v) a ->
  Forall (bounded_cell lo hi) (filter (fun v => negb (is_nan v)) a).
Proof.
  induction 1 as [|v a Hv Ha IH]; simpl; [constructor|].
  destruct Hv as [->|(x & -> & Hx)]; simpl; auto.
  constructor; auto. exists x. now split.
Qed.

Lemma kept_nonempty (a : list fval) :
  existsb isfinite a = true ->
  filter (fun v => negb (is_nan v)) a <> [].
Proof.
  induction a as [|v a IH]; simpl; [discriminate|].
  destruct v; simpl; try discriminate; auto.
Qed.

(** The median of values in a range lies in that range. *)
Lemma nanmedian_bounded (a : list fval) :
  Forall (fun v => v = NaN \/ bounded_cell lo hi v) a ->
  existsb isfinite a = true ->
  bounded_cell lo hi (nanmedian a).
Proof.
  intros Ha He. unfold nanmedian.
  pose proof (sort_Forall _ _ (kept_bounded a Ha)) as Hs.
  pose proof (kept_nonempty a He) as Hne.
  set (s := sort (filter (fun v => negb (is_nan v)) a)) in *.
  assert (Hlen : (0 < length s)%nat).
  { unfold s. rewrite sort_length.
    destruct (filter _ a); [contradiction | simpl; lia]. }
  replace (length s =? 0)%nat with false
    by (symmetry; apply Nat.eqb_neq; lia).
  assert (Hhalf : (length s / 2 < length s)%nat)
    by (apply Nat.div_lt; lia).
  assert (Hnth : forall i, (i < length s)%nat ->
            bounded_cell lo hi (nth i s NaN)).
  { intros i Hi. apply (proj1 (Forall_forall _ _) Hs). now apply nth_In. }
  destruct (Nat.even (length s)); [|now apply Hnth].
  destruct (Hnth (length s / 2 - 1)%nat ltac:(lia)) as (p & -> & Hp).
  destruct (Hnth (length s / 2)%nat Hhalf) as (q & -> & Hq).
  cbn [fadd fdiv]. rewrite fdivR_nonzero by lra.
  exists ((p + q) / 2). split; [reflexivity | lra].
Qed.

Lemma inverse_square_bounds (x : R) :
  lo <= x <= hi -> 1 / hi ^ 2 <= 1 / x ^ 2 <= 1 / lo ^ 2.
Proof.
  intros [Hl Hu].
  assert (Hx2 : 0 < x ^ 2) by nra.
  assert (Hl2 : 0 < lo ^ 2) by nra.
  assert (Hh2 : 0 < hi ^ 2) by nra.
  assert (H1 : lo ^ 2 <= x ^ 2) by nra.
  assert (H2 : x ^ 2 <= hi ^ 2) by nra.
  unfold Rdiv. rewrite !Rmult_1_l.
  split; apply Rinv_le_contravar; assumption.
Qed.

Lemma inverse_variance_bounded (med e : fval) :
  bounded_cell lo hi med -> e = NaN \/ bounded_cell lo hi e ->
  bounded_cell (1 / hi ^ 2) (1 / lo ^ 2)
    (fdiv (Num 1) (fsquare (nan_to_num med e))) /\
  forall x, e = Num x ->
    fdiv (Num 1) (fsquare (nan_to_num med e)) = Num (1 / x ^ 2).
Proof.
  intros (m & -> & Hm) He.
  assert (Hinv : forall x, lo <= x <= hi ->
            fdiv (Num 1) (fsquare (Num x)) = Num (1 / x ^ 2)).
  { intros x Hx. cbn [fsquare fdiv].
    assert (0 < x ^ 2) by nra.
    now rewrite fdivR_nonzero by lra. }
  destruct He as [->|(x & -> & Hx)]; cbn [nan_to_num].
  - rewrite (Hinv m Hm). split; [|discriminate].
    eexists. split; [reflexivity | now apply inverse_square_bounds].
  - rewrite (Hinv x Hx). split.
    + eexists. split; [reflexivity | now apply inverse_square_bounds].
    + intros x' Hx'. injection Hx' as <-. reflexivity.
Qed.

Lemma bounded_cells_values (a b : R) (l : list fval) :
  Forall (bounded_cell a b) l ->
  exists ws, l = map Num ws /\ Forall (fun x => a <= x <= b) ws.
Proof.
  induction 1 as [|v l (x & -> & Hx) Hl (ws & -> & Hws)].
  - exists []. split; [reflexivity | constructor].
  - exists (x :: ws). split; [reflexivity | now constructor].
Qed.

Lemma sum_positive (ws : list R) :
  Forall (fun x => 0 < x) ws -> ws <> [] -> 0 < np.sum ws.
Proof.
  unfold np.sum. intros H. induction H as [|x ws Hx Hws IH]; intros Hne.
  - contradiction.
  - simpl. destruct ws as [|x' ws'].
    + simpl. lra.
    + assert (0 < fold_right Rplus 0 (x' :: ws'))
        by (apply IH; discriminate).
      lra.
Qed.

End MainWeights.

Lemma error_range_facts :
  0 < / 10 ^ 50 /\ / 10 ^ 50 <= 10 ^ 50 /\
  1 / (10 ^ 50) ^ 2 = / 10 ^ 100 /\ 1 / (/ 10 ^ 50) ^ 2 = 10 ^ 100 /\
  / 10 ^ 100 <= 1 <= 10 ^ 100.
Proof.
  assert (H50 : 1 <= 10 ^ 50) by (apply pow_R1_Rle; lra).
  assert (H100 : 1 <= 10 ^ 100) by (apply pow_R1_Rle; lra).
  assert (Hsq : (10 ^ 50) ^ 2 = 10 ^ 100) by (now rewrite <- pow_mult).
  assert (I50 : 0 < / 10 ^ 50) by (apply Rinv_0_lt_compat; lra).
  assert (L50 : / 10 ^ 50 <= 1)
    by (rewrite <- Rinv_1; apply Rinv_le_contravar; lra).
  split; [exact I50|]. split; [lra|].
  split; [rewrite Hsq; unfold Rdiv; ring|].
  split; [rewrite <- Hsq; field; lra|].
  split; [rewrite <- Rinv_1; apply Rinv_le_contravar; lra | exact H100].
Qed.

(** X29.  What [main] does for one observable of a table with finite
    positions, whose values are all finite and of size at most 10^50, and
    whose error column (if the table has one) has its finite positive
    entries in [10^-50, 10^50]: the directions are the unit vectors of the
    positions; the weights are finite numbers in [10^-100, 10^100], one
    per value, equal to 1 / err^2 wherever the error is finite and
    positive, and all ones when the table has no error column or the
    column holds no finite positive error; and on a non-empty table the
    fit that [main] runs with these directions and weights does not
    raise. *)
Theorem main_weights_fit (ra dec : list R) (ycol : list fval)
    (y : list R) (err : option (list fval))
    (Hra : length ra = length y) (Hdec : length dec = length y)
    (Hy : ycol = map Num y)
    (Hsize : Forall (fun v => Rabs v <= 10 ^ 50) y)
    (Herr : match err with
            | Some e =>
                length e = length ycol /\
                Forall (fun v => forall x, v = Num x -> 0 < x ->
                                           / 10 ^ 50 <= x <= 10 ^ 50) e
            | None => True
            end) :
  exists nvecs ws,
    sph_to_cart ra dec = Ok nvecs /\
    nvecs = np.zip_with to_unit_vector ra dec /\
    main_weights ycol err = map Num ws /\
    length ws = length y /\
    Forall (fun x => / 10 ^ 100 <= x <= 10 ^ 100) ws /\
    (forall e i x, err = Some e -> nth_error e i = Some (Num x) -> 0 < x ->
       nth_error ws i = Some (1 / x ^ 2)) /\
    (match err with
     | Some e => existsb isfinite (mask_invalid e) = false
     | None => True
     end -> ws = Dipole.ones (length y)) /\
    (y <> [] ->
     exists res yhat, Dipole.fit_dipole nvecs y (Some ws) = Ok (res, yhat)).
Proof.
  destruct error_range_facts as (I50 & L50 & Einv & Einv' & L100 & H100).
  assert (I100 : 0 < / 10 ^ 100) by (apply Rinv_0_lt_compat; lra).
  assert (Hycol : length ycol = length y) by (subst ycol; apply length_map).
  exists (np.zip_with to_unit_vector ra dec).
  assert (Hn : length (np.zip_with to_unit_vector ra dec) = length y)
    by (rewrite zip_with_length; congruence).
  assert (Hrows : sph_to_cart ra dec
                  = Ok (np.zip_with to_unit_vector ra dec))
    by (apply sph_to_cart_rows; congruence).
  assert (Hfit : forall ws, length ws = length y ->
            Forall (fun x => / 10 ^ 100 <= x <= 10 ^ 100) ws ->
            y <> [] ->
            exists res yhat,
              Dipole.fit_dipole (np.zip_with to_unit_vector ra dec) y
                (Some ws) = Ok (res, yhat)).
  { intros ws Hl Hrange Hne.
    assert (Hpos : Forall (fun x => 0 < x) ws).
    { apply Forall_forall. intros x Hx.
      pose proof (proj1 (Forall_forall _ _) Hrange x Hx). lra. }
    assert (Hs : np.sum ws <> 0).
    { assert (0 < np.sum ws); [|lra].
      apply sum_positive; [exact Hpos|].
      intros ->. destruct y; [contradiction | discriminate]. }
    destruct (fit_dipole_value _ y (Some ws) Hn Hl Hs)
      as (ssb & c & _ & E).
    eauto. }
  assert (Hones : length (Dipole.ones (length y)) = length y /\
                  Forall (fun x => / 10 ^ 100 <= x <= 10 ^ 100)
                    (Dipole.ones (length y))).
  { split; [apply repeat_length|]. unfold Dipole.ones.
    apply Forall_forall. intros x Hx. apply repeat_spec in Hx. lra. }
  unfold main_weights. rewrite Hycol.
  destruct err as [e|].
  2:{ destruct Hones as (Hl & Hrange).
      exists (Dipole.ones (length y)). repeat split; auto.
      intros; discriminate. }
  destruct Herr as [Helen Hin_range].
  destruct (existsb isfinite (mask_invalid e)) eqn:Eany.
  2:{ destruct Hones as (Hl & Hrange).
      exists (Dipole.ones (length y)). repeat split; auto.
      intros e' i x He' Hi Hx. injection He' as <-.
      exfalso.
      assert (Hin : In (Num x) (mask_invalid e)).
      { unfold mask_invalid. apply in_map_iff. exists (Num x).
        split; [|eapply nth_error_In; exact Hi].
        cbn [isfinite fle0 negb orb].
        now rewrite Rleb_intro_false by lra. }
      assert (Hex : existsb isfinite (mask_invalid e) = true)
        by (apply existsb_exists; exists (Num x); now split).
      congruence. }
  pose proof (mask_invalid_cells _ _ e Hin_range) as Hcells.
  pose proof (nanmedian_bounded _ _ _ Hcells Eany) as Hmed.
  set (med := nanmedian (mask_invalid e)) in *.
  assert (Hall : Forall (bounded_cell (/ 10 ^ 100) (10 ^ 100))
            (map (fun v => fdiv (Num 1) (fsquare (nan_to_num med v)))
               (mask_invalid e))).
  { apply Forall_forall. intros v Hv. apply in_map_iff in Hv.
    destruct Hv as (u & <- & Hu).
    rewrite <- Einv, <- Einv'.
    apply inverse_variance_bounded; [exact I50 | exact Hmed|].
    exact (proj1 (Forall_forall _ _) Hcells u Hu). }
  destruct (bounded_cells_values _ _ _ Hall) as (ws & Ews & Hrange).
  assert (Hl : length ws = length y).
  { apply (f_equal (@length fval)) in Ews.
    rewrite !length_map in Ews. unfold mask_invalid in Ews.
    rewrite length_map in Ews. congruence. }
  exists ws. split; [exact Hrows|]. split; [reflexivity|].
  split; [exact Ews|]. split; [exact Hl|]. split; [exact Hrange|].
  split; [|split; [discriminate | now apply Hfit]].
  intros e' i x He' Hi Hx. injection He' as <-.
  assert (Hm : nth_error (mask_invalid e) i = Some (Num x)).
  { unfold mask_invalid. rewrite nth_error_map, Hi. cbn [option_map].
    cbn [isfinite fle0 negb orb].
    now rewrite Rleb_intro_false by lra. }
  assert (Hw : nth_error (map Num ws) i = Some (Num (1 / x ^ 2))).
  { rewrite <- Ews, nth_error_map, Hm. cbn [option_map]. f_equal.
    apply (inverse_variance_bounded (/ 10 ^ 50) (10 ^ 50) I50 med
             (Num x) Hmed); [|reflexivity].
    right. exists x. split; [reflexivity|].
    apply (proj1 (Forall_forall _ _) Hin_range (Num x)
             (nth_error_In _ _ Hi) x eq_refl Hx). }
  rewrite nth_error_map in Hw.
  destruct (nth_error ws i) as [wi|]; [|discriminate].
  cbn [option_map] in Hw. congruence.
Qed.

Lemma main_weights_fit_witness :
  length [0; 90; 180] = length [1; 2; 3] /\
  length [0; 0; 0] = length [1; 2; 3] /\
  [Num 1; Num 2; Num 3] = map Num [1; 2; 3] /\
  Forall (fun v => Rabs v <= 10 ^ 50) [1; 2; 3] /\
  (length [Num 2; NaN; Num (-1)] = length [Num 1; Num 2; Num 3] /\
   Forall (fun v => forall x, v = Num x -> 0 < x ->
                              / 10 ^ 50 <= x <= 10 ^ 50)
     [Num 2; NaN; Num (-1)]) /\
  exists nvecs ws,
    sph_to_cart [0; 90; 180] [0; 0; 0] = Ok nvecs /\
    main_weights [Num 1; Num 2; Num 3] (Some [Num 2; NaN; Num (-1)])
      = map Num ws /\
    Forall (fun x => / 10 ^ 100 <= x <= 10 ^ 100) ws /\
    nth_error ws 0 = Some (1 / 2 ^ 2) /\
    exists res yhat,
      Dipole.fit_dipole nvecs [1; 2; 3] (Some ws) = Ok (res, yhat).
Proof.
  assert (H2 : 10 ^ 2 <= 10 ^ 50) by (apply Rle_pow; [lra | lia]).
  simpl in H2.
  assert (I50 : / 10 ^ 50 <= 1).
  { rewrite <- Rinv_1. apply Rinv_le_contravar; lra. }
  assert (Hsize : Forall (fun v => Rabs v <= 10 ^ 50) [1; 2; 3]).
  { repeat (apply Forall_cons; [rewrite Rabs_right by lra; lra|]).
    apply Forall_nil. }
  assert (Herr : length [Num 2; NaN; Num (-1)]
                 = length [Num 1; Num 2; Num 3] /\
                 Forall (fun v => forall x, v = Num x -> 0 < x ->
                                            / 10 ^ 50 <= x <= 10 ^ 50)
                   [Num 2; NaN; Num (-1)]).
  { split; [reflexivity|].
    apply Forall_cons; [|apply Forall_cons; [|apply Forall_cons;
      [|apply Forall_nil]]]; intros x Hx Hpos; try discriminate.
    - injection Hx as <-. lra.
    - injection Hx as <-. lra. }
  split; [reflexivity|]. split; [reflexivity|]. split; [reflexivity|].
  split; [exact Hsize|]. split; [exact Herr|].
  destruct (main_weights_fit [0; 90; 180] [0; 0; 0]
              [Num 1; Num 2; Num 3] [1; 2; 3]
              (Some [Num 2; NaN; Num (-1)]) eq_refl eq_refl eq_refl
              Hsize Herr)
    as (nvecs & ws & Hrows & _ & E & Hl & Hrange & Hval & _ & Hfit).
  exists nvecs, ws. split; [exact Hrows|]. split; [exact E|].
  split; [exact Hrange|]. split.
  - apply (Hval [Num 2; NaN; Num (-1)] 0%nat 2); [reflexivity..|lra].
  - apply Hfit. discriminate.
Defined.

(** ** Hemispheres and angular separation *)

Section HemisphereSeparation.

Lemma acos_le_PI2 (x : R) : -1 <= x <= 1 -> (acos x <= PI / 2 <-> 0 <= x).
Proof.
  intros Hx. pose proof (acos_bound x) as Hb. pose proof PI_RGT_0 as Hpi.
  pose proof (cos_acos x Hx) as Hcos. split; intros H.
  - rewrite <- Hcos. apply cos_ge_0; lra.
  - destruct (Rle_dec (acos x) (PI / 2)) as [|Hn]; [assumption|].
    assert (cos (acos x) < 0) by (apply cos_lt_0; lra). lra.
Qed.

Lemma dot_unit_vectors (ra dec ra0 dec0 : R) :
  dot (to_unit_vector ra dec) (to_unit_vector ra0 dec0) =
  sin (np.deg2rad dec) * sin (np.deg2rad dec0) +
  cos (np.deg2rad dec) * cos (np.deg2rad dec0) *
  cos (np.deg2rad ra - np.deg2rad ra0).
Proof.
  unfold to_unit_vector, dot. rewrite cos_minus. ring.
Qed.

Lemma separation_le_90 (ra0 dec0 : R) (p : R * R) :
  separation ra0 dec0 p <= 90 <->
  0 <= dot (to_unit_vector (fst p) (snd p)) (to_unit_vector ra0 dec0).
Proof.
  rewrite dot_unit_vectors. unfold separation, AxisMap.ang_sep.
  set (c := sin _ * sin _ + _).
  pose proof (clip_range c (-1) 1 ltac:(lra)) as Hc.
  pose proof PI_RGT_0 as Hpi.
  assert (Hdeg : forall t, np.rad2deg t <= 90 <-> t <= PI / 2).
  { intros t. unfold np.rad2deg.
    assert (H180 : 0 < 180 / PI) by (apply Rdiv_lt_0_compat; lra).
    assert (E : PI / 2 * (180 / PI) = 90) by (field; lra).
    rewrite <- E. split; intros H.
    - now apply Rmult_le_reg_r in H.
    - apply Rmult_le_compat_r; lra. }
  rewrite Hdeg, (acos_le_PI2 _ Hc).
  unfold np.clip, Rmin, Rmax.
  repeat destruct Rle_dec; split; lra.
Qed.

End HemisphereSeparation.

(** X30.  The split of the histogram script in terms of angular
    distance: for coordinate and value arrays of one length, the positive
    group holds the values of the sky positions at most 90 degrees from the
    axis (ra0, dec0), the negative group those farther than 90 degrees, in
    the order of the table. *)
Theorem split_by_axis_separation (ra dec dm : list R) (ra0 dec0 : R)
    (Hdec : length ra = length dec) (Hdm : length ra = length dm) :
  split_by_axis ra dec dm ra0 dec0 =
    Ok (select dm (map (fun p => Rleb (separation ra0 dec0 p) 90)
                     (combine ra dec)),
        select dm (map (fun p => Rltb 90 (separation ra0 dec0 p))
                     (combine ra dec))).
Proof.
  unfold split_by_axis.
  rewrite (unit_vectors_rows ra dec Hdec). cbn [bind].
  rewrite (unit_vectors_rows [ra0] [dec0] eq_refl).
  cbn [bind np.zip_with get nth_error].
  assert (Hrows : np.zip_with to_unit_vector ra dec =
                  map (fun p => to_unit_vector (fst p) (snd p))
                    (combine ra dec)).
  { clear. revert dec. induction ra as [|r ra IH]; intros [|d dec];
      simpl; auto. now rewrite IH. }
  rewrite hemispheres_value
    by (rewrite zip_with_length by exact Hdec; exact Hdm).
  rewrite Hrows, !map_map. do 2 f_equal.
  - f_equal. apply map_ext. intros p.
    pose proof (separation_le_90 ra0 dec0 p) as Hsep.
    destruct (Rleb (separation ra0 dec0 p) 90) eqn:E.
    + apply Rleb_true in E. apply Rleb_intro_true. tauto.
    + apply Rleb_false in E. apply Rleb_intro_false.
      destruct (Rlt_dec (dot (to_unit_vector (fst p) (snd p))
                             (to_unit_vector ra0 dec0)) 0) as [|Hn];
        [assumption|].
      assert (separation ra0 dec0 p <= 90) by (apply Hsep; lra). lra.
  - f_equal. apply map_ext. intros p.
    pose proof (separation_le_90 ra0 dec0 p) as Hsep.
    destruct (Rltb 90 (separation ra0 dec0 p)) eqn:E.
    + apply Rltb_true in E. apply Rltb_intro_true.
      destruct (Rlt_dec (dot (to_unit_vector (fst p) (snd p))
                             (to_unit_vector ra0 dec0)) 0) as [|Hn];
        [assumption|].
      assert (separation ra0 dec0 p <= 90) by (apply Hsep; lra). lra.
    + apply Rltb_false in E. apply Rltb_intro_false. tauto.
Qed.

Lemma split_by_axis_separation_witness :
  length [0; 180] = length [0; 0] /\ length [0; 180] = length [10; 20] /\
  split_by_axis [0; 180] [0; 0] [10; 20] 0 0 =
    Ok (select [10; 20]
          (map (fun p => Rleb (separation 0 0 p) 90)
             (combine [0; 180] [0; 0])),
        select [10; 20]
          (map (fun p => Rltb 90 (separation 0 0 p))
             (combine [0; 180] [0; 0]))).
Proof.
  split; [reflexivity|]. split; [reflexivity|].
  apply (split_by_axis_separation [0; 180] [0; 0] [10; 20] 0 0
           eq_refl eq_refl).
Defined.
